(** * minio-cleaner: the filter-and-delete pipeline of [main.go]

    The program lists a bucket twice (once to count, once to feed a
    bounded channel), lets a fixed number of worker goroutines filter
    the objects by size and age and remove the matches, samples four
    atomic counters from a reporter goroutine, and prints a summary
    once the enumerator goroutine has signalled [doneChan].

    The goroutines are embedded as small program-counter machines, one
    transition per visible action (an atomic load, add or store, a
    channel operation, a log line, a call of the storage client), and
    the whole process as their interleaving under a schedule. *)

From Stdlib Require Import ZArith List String Bool Lia Permutation.
Import ListNotations.
Local Open Scope Z_scope.

(** ** Go's [int64] and [int] (64-bit platforms) *)

Module Int64.
Definition min : Z := - 2 ^ 63.
Definition max : Z := 2 ^ 63 - 1.
(** Two's complement wrap-around of an ideal integer. *)
Definition wrap (x : Z) : Z := (x + 2 ^ 63) mod 2 ^ 64 - 2 ^ 63.
Definition add (x y : Z) : Z := wrap (x + y).
Definition mul (x y : Z) : Z := wrap (x * y).
End Int64.

(** ** Data *)

(** [time.Time] values are compared as instants; [LastModified] comes
    from the listing and [thresholdTime] from [AddDate], so neither
    carries a monotonic reading.  An instant is a number of nanoseconds. *)
Definition Time := Z.

(** [t.After(u)]. *)
Definition After (t u : Time) : bool := t >? u.

(** The fields of [minio.ObjectInfo] that [main] reads. *)
Record ObjectInfo := {
  Key : string;
  Size : Z;
  LastModified : Time;
  Err : option string
}.

(** The fields of [Config] that the pipeline reads. *)
Record MinioConfig := { Bucket : string }.
Record CleanupConfig := {
  MaxAge : Z;
  MinSize : Z;
  DryRun : bool;
  Workers : Z
}.
Record Config := { Minio : MinioConfig; Cleanup : CleanupConfig }.

(** The storage client, as far as [main] uses it: the stream that the
    n-th call of [ListObjects] delivers (two calls are made, and the
    bucket may have changed in between), and the result of
    [RemoveObject bucket key] ([None] is Go's [nil] error). *)
Record Client := {
  ListObjects : nat -> list ObjectInfo;
  RemoveObject : string -> string -> option string
}.

(** What the process lets the outside see, in the order it happens: the
    log lines (with the integer arguments of their format strings; the
    division into megabytes and the percentage are floating point and
    left to the printer), the removal calls, and the operations on the
    two channels. *)
Inductive Event :=
| LogStart (threshold : Time) (minSize : Z)           (* line 107 *)
| LogDryRun                                           (* line 109 *)
| LogCandidate (key : string) (size : Z) (modified : Time) (* line 161 *)
| LogRemoveFailed (key err : string)                  (* line 168 *)
| LogRemoved (key : string)                           (* line 170 *)
| LogListError (err : string)                         (* lines 191, 205 *)
| LogTotal (count : Z)                                (* line 197 *)
| LogProgress (processed total deleted size : Z)      (* line 133 *)
| LogSummary (total processed deleted size : Z)       (* line 216 *)
| CallRemoveObject (bucket key : string)              (* line 166 *)
| SendFile (obj : ObjectInfo)                         (* line 208 *)
| CloseFileChan                                       (* line 210 *)
| SendDone.                                           (* line 211 *)

(** The variables of [main] that the goroutines share: the four atomic
    counters, the buffered channel [fileChan] (its buffer, oldest
    first, its capacity and whether it has been closed) and the output. *)
Record Shared := {
  totalFiles : Z;
  processedFiles : Z;
  deletedFiles : Z;
  deletedSize : Z;
  fileChan : list ObjectInfo;
  fileChanCap : nat;
  fileChanClosed : bool;
  out : list Event
}.

Definition emit (e : Event) (sh : Shared) : Shared :=
  {| totalFiles := totalFiles sh; processedFiles := processedFiles sh;
     deletedFiles := deletedFiles sh; deletedSize := deletedSize sh;
     fileChan := fileChan sh; fileChanCap := fileChanCap sh;
     fileChanClosed := fileChanClosed sh; out := out sh ++ [e] |}.

(** [atomic.StoreInt64(&totalFiles, n)] *)
Definition store_total (n : Z) (sh : Shared) : Shared :=
  {| totalFiles := n; processedFiles := processedFiles sh;
     deletedFiles := deletedFiles sh; deletedSize := deletedSize sh;
     fileChan := fileChan sh; fileChanCap := fileChanCap sh;
     fileChanClosed := fileChanClosed sh; out := out sh |}.

(** [atomic.AddInt64(&processedFiles, 1)] *)
Definition add_processed (sh : Shared) : Shared :=
  {| totalFiles := totalFiles sh;
     processedFiles := Int64.add (processedFiles sh) 1;
     deletedFiles := deletedFiles sh; deletedSize := deletedSize sh;
     fileChan := fileChan sh; fileChanCap := fileChanCap sh;
     fileChanClosed := fileChanClosed sh; out := out sh |}.

(** [atomic.AddInt64(&deletedFiles, 1)] *)
Definition add_deleted (sh : Shared) : Shared :=
  {| totalFiles := totalFiles sh; processedFiles := processedFiles sh;
     deletedFiles := Int64.add (deletedFiles sh) 1;
     deletedSize := deletedSize sh;
     fileChan := fileChan sh; fileChanCap := fileChanCap sh;
     fileChanClosed := fileChanClosed sh; out := out sh |}.

(** [atomic.AddInt64(&deletedSize, n)] *)
Definition add_size (n : Z) (sh : Shared) : Shared :=
  {| totalFiles := totalFiles sh; processedFiles := processedFiles sh;
     deletedFiles := deletedFiles sh;
     deletedSize := Int64.add (deletedSize sh) n;
     fileChan := fileChan sh; fileChanCap := fileChanCap sh;
     fileChanClosed := fileChanClosed sh; out := out sh |}.

Definition set_chan (buf : list ObjectInfo) (closed : bool) (sh : Shared)
  : Shared :=
  {| totalFiles := totalFiles sh; processedFiles := processedFiles sh;
     deletedFiles := deletedFiles sh; deletedSize := deletedSize sh;
     fileChan := buf; fileChanCap := fileChanCap sh;
     fileChanClosed := closed; out := out sh |}.

(** ** The goroutines *)

(** A worker (lines 146-177).  Each constructor is the statement the
    goroutine is about to execute, with its live local variables. *)
Inductive Worker :=
| WRecv                                   (* 147: for obj := range fileChan *)
| WFilter (obj : ObjectInfo)              (* 149-162 *)
| WRemove (obj : ObjectInfo)              (* 165-166 *)
| WFailed (obj : ObjectInfo) (err : string) (* 168 *)
| WRemoved (obj : ObjectInfo)             (* 170 *)
| WAddDeleted (obj : ObjectInfo)          (* 171 *)
| WAddSize (obj : ObjectInfo)             (* 172 *)
| WCount (obj : ObjectInfo)               (* 175 *)
| WExit.                                  (* the range loop has ended *)

(** The enumerator (lines 186-212).  [objectCh] is what is left of the
    listing stream being ranged over. *)
Inductive Enumerator :=
| EPass1 (objectCh : list ObjectInfo) (count : Z)   (* 189-195 *)
| ELogTotal (count : Z)                             (* 197-202 *)
| EPass2 (objectCh : list ObjectInfo)               (* 203-209 *)
| ESignal                                           (* 211 *)
| EExit.

(** The progress reporter (lines 123-142). *)
Inductive Reporter :=
| RSleep                                            (* 125-126 *)
| RLoadTotal (processed : Z)                        (* 127 *)
| RLoadDeleted (processed total : Z)                (* 128 *)
| RLoadSize (processed total deleted : Z)           (* 129 *)
| RReport (processed total deleted size : Z)        (* 131-140 *)
| RDone.                                            (* after the break *)

(** [main] itself, from the receive on [doneChan] on (lines 215-221). *)
Inductive Main :=
| MWait                                             (* 215: <-doneChan *)
| MLoadTotal                                        (* 217 *)
| MLoadProcessed (total : Z)                        (* 218 *)
| MLoadDeleted (total processed : Z)                (* 219 *)
| MLoadSize (total processed deleted : Z)           (* 220 *)
| MPrint (total processed deleted size : Z)         (* 216 *)
| MExit.                                            (* main has returned *)

Section Run.

(** The locals of [main] that the closures capture. *)
Variable cfg : Config.
Variable thresholdTime : Time.
Variable minioClient : Client.

(** One transition of a worker; [None] when it cannot move (blocked
    on the empty, still open channel, or finished). *)
Definition worker_step (w : Worker) (sh : Shared)
  : option (Worker * Shared) :=
  match w with
  | WRecv =>
      match fileChan sh with
      | obj :: rest =>
          Some (WFilter obj, set_chan rest (fileChanClosed sh) sh)
      | [] => if fileChanClosed sh then Some (WExit, sh) else None
      end
  | WFilter obj =>
      if Size obj <? MinSize (Cleanup cfg) then
        Some (WRecv, add_processed sh)
      else if After (LastModified obj) thresholdTime then
        Some (WRecv, add_processed sh)
      else
        Some (WRemove obj,
              emit (LogCandidate (Key obj) (Size obj) (LastModified obj)) sh)
  | WRemove obj =>
      if negb (DryRun (Cleanup cfg)) then
        let sh' := emit (CallRemoveObject (Bucket (Minio cfg)) (Key obj)) sh in
        match RemoveObject minioClient (Bucket (Minio cfg)) (Key obj) with
        | Some err => Some (WFailed obj err, sh')
        | None => Some (WRemoved obj, sh')
        end
      else Some (WRecv, add_processed sh)
  | WFailed obj err =>
      Some (WCount obj, emit (LogRemoveFailed (Key obj) err) sh)
  | WRemoved obj => Some (WAddDeleted obj, emit (LogRemoved (Key obj)) sh)
  | WAddDeleted obj => Some (WAddSize obj, add_deleted sh)
  | WAddSize obj => Some (WCount obj, add_size (Size obj) sh)
  | WCount obj => Some (WRecv, add_processed sh)
  | WExit => None
  end.

(** A worker run on its own until it is back at the head of its loop. *)
Fixpoint worker_run (fuel : nat) (w : Worker) (sh : Shared)
  : Worker * Shared :=
  match w with
  | WRecv | WExit => (w, sh)
  | _ =>
      match fuel with
      | O => (w, sh)
      | S fuel' =>
          match worker_step w sh with
          | Some (w', sh') => worker_run fuel' w' sh'
          | None => (w, sh)
          end
      end
  end.

(** The body of the range loop for one received object: no path
    through lines 149-175 has more than six visible actions. *)
Definition worker_body (obj : ObjectInfo) (sh : Shared) : Worker * Shared :=
  worker_run 6 (WFilter obj) sh.

(** One transition of the enumerator, the send on [doneChan] apart
    (that one needs [main] as its partner, see [step]).  A send on
    [fileChan] needs room in the buffer: the capacity is twice the
    number of workers, so a channel without buffer has no receiver
    either and a send on it never completes. *)
Definition enum_step (e : Enumerator) (sh : Shared)
  : option (Enumerator * Shared) :=
  match e with
  | EPass1 (obj :: rest) count =>
      match Err obj with
      | Some err => Some (EPass1 rest count, emit (LogListError err) sh)
      | None => Some (EPass1 rest (Int64.add count 1), sh)
      end
  | EPass1 [] count => Some (ELogTotal count, store_total count sh)
  | ELogTotal count =>
      Some (EPass2 (ListObjects minioClient 1), emit (LogTotal count) sh)
  | EPass2 (obj :: rest) =>
      match Err obj with
      | Some err => Some (EPass2 rest, emit (LogListError err) sh)
      | None =>
          if (List.length (fileChan sh) <? fileChanCap sh)%nat then
            Some (EPass2 rest,
                  emit (SendFile obj)
                    (set_chan (fileChan sh ++ [obj]) (fileChanClosed sh) sh))
          else None
      end
  | EPass2 [] =>
      Some (ESignal, emit CloseFileChan (set_chan (fileChan sh) true sh))
  | ESignal => None
  | EExit => None
  end.

(** One transition of the reporter; it never blocks. *)
Definition reporter_step (r : Reporter) (sh : Shared)
  : option (Reporter * Shared) :=
  match r with
  | RSleep => Some (RLoadTotal (processedFiles sh), sh)
  | RLoadTotal processed => Some (RLoadDeleted processed (totalFiles sh), sh)
  | RLoadDeleted processed total =>
      Some (RLoadSize processed total (deletedFiles sh), sh)
  | RLoadSize processed total deleted =>
      Some (RReport processed total deleted (deletedSize sh), sh)
  | RReport processed total deleted size =>
      let sh' :=
        if total >? 0 then emit (LogProgress processed total deleted size) sh
        else sh in
      if (processed >=? total) && (total >? 0) then Some (RDone, sh')
      else Some (RSleep, sh')
  | RDone => None
  end.

(** One iteration of the reporter's loop run on its own. *)
Fixpoint reporter_run (fuel : nat) (r : Reporter) (sh : Shared)
  : Reporter * Shared :=
  match fuel with
  | O => (r, sh)
  | S fuel' =>
      match reporter_step r sh with
      | Some (r', sh') =>
          match r' with
          | RSleep | RDone => (r', sh')
          | _ => reporter_run fuel' r' sh'
          end
      | None => (r, sh)
      end
  end.

Definition reporter_tick (sh : Shared) : Reporter * Shared :=
  reporter_run 5 RSleep sh.

(** One transition of [main] after it has been released. *)
Definition main_step (m : Main) (sh : Shared) : option (Main * Shared) :=
  match m with
  | MWait => None
  | MLoadTotal => Some (MLoadProcessed (totalFiles sh), sh)
  | MLoadProcessed total =>
      Some (MLoadDeleted total (processedFiles sh), sh)
  | MLoadDeleted total processed =>
      Some (MLoadSize total processed (deletedFiles sh), sh)
  | MLoadSize total processed deleted =>
      Some (MPrint total processed deleted (deletedSize sh), sh)
  | MPrint total processed deleted size =>
      Some (MExit, emit (LogSummary total processed deleted size) sh)
  | MExit => None
  end.

(** ** The process *)

Record State := {
  shared : Shared;
  workers : list Worker;
  enumerator : Enumerator;
  reporter : Reporter;
  main : Main
}.

(** Which goroutine moves next. *)
Inductive Thread :=
| TMain
| TEnumerator
| TReporter
| TWorker (i : nat).

Fixpoint set_nth {A : Type} (i : nat) (x : A) (l : list A) : list A :=
  match l, i with
  | [], _ => []
  | _ :: t, O => x :: t
  | h :: t, S j => h :: set_nth j x t
  end.

Definition exited (m : Main) : bool :=
  match m with MExit => true | _ => false end.

(** One transition of the process.  Once [main] has returned the
    process is gone and nothing moves.  The send on the unbuffered
    [doneChan] (line 211) and the receive in [main] (line 215) happen
    together. *)
Definition step (t : Thread) (st : State) : option State :=
  if exited (main st) then None
  else
    match t with
    | TMain =>
        match main_step (main st) (shared st) with
        | Some (m, sh) =>
            Some {| shared := sh; workers := workers st;
                    enumerator := enumerator st; reporter := reporter st;
                    main := m |}
        | None => None
        end
    | TEnumerator =>
        match enumerator st with
        | ESignal =>
            match main st with
            | MWait =>
                Some {| shared := emit SendDone (shared st);
                        workers := workers st; enumerator := EExit;
                        reporter := reporter st; main := MLoadTotal |}
            | _ => None
            end
        | e =>
            match enum_step e (shared st) with
            | Some (e', sh) =>
                Some {| shared := sh; workers := workers st;
                        enumerator := e'; reporter := reporter st;
                        main := main st |}
            | None => None
            end
        end
    | TReporter =>
        match reporter_step (reporter st) (shared st) with
        | Some (r, sh) =>
            Some {| shared := sh; workers := workers st;
                    enumerator := enumerator st; reporter := r;
                    main := main st |}
        | None => None
        end
    | TWorker i =>
        match nth_error (workers st) i with
        | Some w =>
            match worker_step w (shared st) with
            | Some (w', sh) =>
                Some {| shared := sh; workers := set_nth i w' (workers st);
                        enumerator := enumerator st; reporter := reporter st;
                        main := main st |}
            | None => None
            end
        | None => None
        end
    end.

(** A schedule is run from left to right; it fails where it names a
    goroutine that cannot move. *)
Fixpoint exec (sched : list Thread) (st : State) : option State :=
  match sched with
  | [] => Some st
  | t :: sched' =>
      match step t st with
      | Some st' => exec sched' st'
      | None => None
      end
  end.

(** The state in which [main] reaches line 215: the start-up lines
    are logged, the counters are zero, [fileChan] is empty, every
    goroutine stands at its first statement and the first listing has
    been requested (line 181). *)
Definition startup_log : list Event :=
  LogStart thresholdTime (MinSize (Cleanup cfg))
    :: (if DryRun (Cleanup cfg) then [LogDryRun] else []).

Definition init : State :=
  {| shared :=
       {| totalFiles := 0; processedFiles := 0; deletedFiles := 0;
          deletedSize := 0; fileChan := [];
          fileChanCap := Z.to_nat (Int64.mul (Workers (Cleanup cfg)) 2);
          fileChanClosed := false; out := startup_log |};
     workers := repeat WRecv (Z.to_nat (Workers (Cleanup cfg)));
     enumerator := EPass1 (ListObjects minioClient 0) 0;
     reporter := RSleep;
     main := MWait |}.

(** [make(chan minio.ObjectInfo, cfg.Cleanup.Workers*2)] panics on a
    negative size, which is also what a product that overflows gives.
    The runtime refuses as well a size whose buffer is too large to
    allocate; that bound depends on the platform and on the size of
    [minio.ObjectInfo] and is left out: the runs of the model are those
    of a process whose channel has been created, and for a very large
    worker count the model has runs where the process panics. *)
Definition boot : option State :=
  if Int64.mul (Workers (Cleanup cfg)) 2 <? 0 then None else Some init.

(** The process under a schedule, from start-up on. *)
Definition run (sched : list Thread) : option State :=
  match boot with
  | Some st => exec sched st
  | None => None
  end.

End Run.

Arguments set_nth {A} i x l.

(** ** Auxiliary definitions *)

Fixpoint sumZ {A : Type} (f : A -> Z) (l : list A) : Z :=
  match l with
  | [] => 0
  | x :: t => f x + sumZ f t
  end.

(** The shapes a transition of the process can have. *)
Inductive step_spec (cfg : Config) (thr : Time) (cl : Client)
  : Thread -> State -> State -> Prop :=
| step_main st m sh :
    main_step (main st) (shared st) = Some (m, sh) ->
    step_spec cfg thr cl TMain st
      {| shared := sh; workers := workers st; enumerator := enumerator st;
         reporter := reporter st; main := m |}
| step_signal st :
    enumerator st = ESignal -> main st = MWait ->
    step_spec cfg thr cl TEnumerator st
      {| shared := emit SendDone (shared st); workers := workers st;
         enumerator := EExit; reporter := reporter st; main := MLoadTotal |}
| step_enum st e sh :
    enumerator st <> ESignal ->
    enum_step cl (enumerator st) (shared st) = Some (e, sh) ->
    step_spec cfg thr cl TEnumerator st
      {| shared := sh; workers := workers st; enumerator := e;
         reporter := reporter st; main := main st |}
| step_reporter st r sh :
    reporter_step (reporter st) (shared st) = Some (r, sh) ->
    step_spec cfg thr cl TReporter st
      {| shared := sh; workers := workers st; enumerator := enumerator st;
         reporter := r; main := main st |}
| step_worker st i w w' sh l1 l2 :
    nth_error (workers st) i = Some w ->
    workers st = l1 ++ w :: l2 ->
    worker_step cfg thr cl w (shared st) = Some (w', sh) ->
    step_spec cfg thr cl (TWorker i) st
      {| shared := sh; workers := l1 ++ w' :: l2;
         enumerator := enumerator st; reporter := reporter st;
         main := main st |}.


(** A listing entry without error. *)
Definition valid (obj : ObjectInfo) : bool :=
  match Err obj with None => true | Some _ => false end.

(** Classifiers of the output. *)
Definition is_remove_call (e : Event) : bool :=
  match e with CallRemoveObject _ _ => true | _ => false end.
Definition is_progress (e : Event) : bool :=
  match e with LogProgress _ _ _ _ => true | _ => false end.
Definition is_summary (e : Event) : bool :=
  match e with LogSummary _ _ _ _ => true | _ => false end.
Definition is_close (e : Event) : bool :=
  match e with CloseFileChan => true | _ => false end.
Definition is_done (e : Event) : bool :=
  match e with SendDone => true | _ => false end.

(** The objects sent on [fileChan], in the order of the sends. *)
Fixpoint sent (tr : list Event) : list ObjectInfo :=
  match tr with
  | [] => []
  | SendFile obj :: tr' => obj :: sent tr'
  | _ :: tr' => sent tr'
  end.

(** The listing errors logged, in order. *)
Fixpoint list_errors (tr : list Event) : list string :=
  match tr with
  | [] => []
  | LogListError err :: tr' => err :: list_errors tr'
  | _ :: tr' => list_errors tr'
  end.

(** The errors that a listing stream carries, in order. *)
Fixpoint stream_errors (l : list ObjectInfo) : list string :=
  match l with
  | [] => []
  | obj :: l' =>
      match Err obj with
      | Some err => err :: stream_errors l'
      | None => stream_errors l'
      end
  end.

(** The object a worker holds while it is inside its loop body. *)
Definition inflight (w : Worker) : list ObjectInfo :=
  match w with
  | WRecv | WExit => []
  | WFilter obj | WRemove obj | WFailed obj _ | WRemoved obj
  | WAddDeleted obj | WAddSize obj | WCount obj => [obj]
  end.

(** What the enumerator has still to read of the second listing. *)
Definition todo (cl : Client) (e : Enumerator) : list ObjectInfo :=
  match e with
  | EPass1 _ _ | ELogTotal _ => ListObjects cl 1
  | EPass2 rest => rest
  | ESignal | EExit => []
  end.

Definition pool_done (st : State) : Prop :=
  workers st <> [] /\ Forall (fun w => w = WExit) (workers st).

Section Accounting.

Variable cfg : Config.
Variable thresholdTime : Time.
Variable minioClient : Client.

(** Both tests of lines 149 and 155 let the object through. *)
Definition eligible (obj : ObjectInfo) : bool :=
  (MinSize (Cleanup cfg) <=? Size obj) && (LastModified obj <=? thresholdTime).

(** The object is one that a worker removes from the bucket. *)
Definition removed (obj : ObjectInfo) : bool :=
  eligible obj && negb (DryRun (Cleanup cfg)) &&
  match RemoveObject minioClient (Bucket (Minio cfg)) (Key obj) with
  | None => true
  | Some _ => false
  end.

Definition removed_one (obj : ObjectInfo) : Z :=
  if removed obj then 1 else 0.
Definition removed_size (obj : ObjectInfo) : Z :=
  if removed obj then Size obj else 0.

(** What the program counter of a worker tells about its object. *)
Definition worker_ok (w : Worker) : Prop :=
  match w with
  | WRecv | WExit | WFilter _ => True
  | WRemove obj => eligible obj = true
  | WFailed obj err =>
      eligible obj = true /\ DryRun (Cleanup cfg) = false /\
      RemoveObject minioClient (Bucket (Minio cfg)) (Key obj) = Some err
  | WRemoved obj | WAddDeleted obj | WAddSize obj => removed obj = true
  | WCount obj => eligible obj = true /\ DryRun (Cleanup cfg) = false
  end.

(** What a worker inside its loop body has already added to
    [deletedFiles] and to [deletedSize] for the object it holds. *)
Definition credit_deleted (w : Worker) : Z :=
  match w with
  | WAddSize _ => 1
  | WCount obj => removed_one obj
  | _ => 0
  end.
Definition credit_size (w : Worker) : Z :=
  match w with
  | WCount obj => removed_size obj
  | _ => 0
  end.

(** The bookkeeping of the run: the valid entries of the second
    listing are, up to order, the objects handled to the end ([fin]),
    those held by workers, those in the channel and those not yet
    read; and the counters are the wrapped tallies over [fin] plus
    what the workers in mid-body have already added. *)
Definition accounted (fin : list ObjectInfo) (st : State) : Prop :=
  Permutation
    (fin ++ flat_map inflight (workers st) ++ fileChan (shared st)
         ++ filter valid (todo minioClient (enumerator st)))
    (filter valid (ListObjects minioClient 1)) /\
  Forall worker_ok (workers st) /\
  processedFiles (shared st) = Int64.wrap (sumZ (fun _ => 1) fin) /\
  deletedFiles (shared st) =
    Int64.wrap (sumZ removed_one fin + sumZ credit_deleted (workers st)) /\
  deletedSize (shared st) =
    Int64.wrap (sumZ removed_size fin + sumZ credit_size (workers st)).

End Accounting.

(** The total that the reporter holds in hand, if it has sampled one. *)
Definition sampled_total (r : Reporter) : option Z :=
  match r with
  | RLoadDeleted _ total | RLoadSize _ total _ | RReport _ total _ _ =>
      Some total
  | RSleep | RLoadTotal _ | RDone => None
  end.

(** The count that the enumerator holds in hand during and after the
    first pass. *)
Definition counted (e : Enumerator) : option (list ObjectInfo * Z) :=
  match e with
  | EPass1 rest count => Some (rest, count)
  | ELogTotal count => Some ([], count)
  | EPass2 _ | ESignal | EExit => None
  end.

(** Invariant of a run whose first listing has no valid entry. *)
Definition nothing_counted (st : State) : Prop :=
  totalFiles (shared st) = 0 /\
  reporter st <> RDone /\
  (forall t, sampled_total (reporter st) = Some t -> t = 0) /\
  filter is_progress (out (shared st)) = [] /\
  (forall rest c, counted (enumerator st) = Some (rest, c) ->
                  filter valid rest = [] /\ c = 0).

(** Invariant of a run without workers whose second listing has a
    valid entry: the enumerator never gets past that entry. *)
Definition starved (cl : Client) (st : State) : Prop :=
  main st = MWait /\
  workers st = [] /\
  fileChan (shared st) = [] /\
  fileChanCap (shared st) = O /\
  fileChanClosed (shared st) = false /\
  filter is_summary (out (shared st)) = [] /\
  filter is_close (out (shared st)) = [] /\
  sent (out (shared st)) = [] /\
  filter valid (todo cl (enumerator st)) <> [].

(** A worker only leaves its loop on the closed, empty channel, and
    the channel stays that way. *)
Definition closing (st : State) : Prop :=
  In WExit (workers st) ->
  fileChan (shared st) = [] /\ fileChanClosed (shared st) = true.

(** What the enumerator has let the outside see once it has read
    [seen1] of the first and [seen2] of the second listing. *)
Definition enum_trace (sh : Shared) (seen1 seen2 : list ObjectInfo)
           (closes dones : list Event) (closed : bool) : Prop :=
  list_errors (out sh) = stream_errors seen1 ++ stream_errors seen2 /\
  sent (out sh) = filter valid seen2 /\
  filter is_close (out sh) = closes /\
  filter is_done (out sh) = dones /\
  fileChanClosed sh = closed.

(** The number of entries without error, as an [int64]. *)
Definition count_valid (l : list ObjectInfo) : Z :=
  Int64.wrap (Z.of_nat (List.length (filter valid l))).

(** Invariant of the enumerator. *)
Definition enumerated (cl : Client) (st : State) : Prop :=
  match enumerator st with
  | EPass1 rest count =>
      exists seen,
        ListObjects cl 0 = seen ++ rest /\ count = count_valid seen /\
        enum_trace (shared st) seen [] [] [] false
  | ELogTotal count =>
      count = count_valid (ListObjects cl 0) /\
      totalFiles (shared st) = count /\
      enum_trace (shared st) (ListObjects cl 0) [] [] [] false
  | EPass2 rest =>
      totalFiles (shared st) = count_valid (ListObjects cl 0) /\
      exists seen,
        ListObjects cl 1 = seen ++ rest /\
        enum_trace (shared st) (ListObjects cl 0) seen [] [] false
  | ESignal =>
      totalFiles (shared st) = count_valid (ListObjects cl 0) /\
      enum_trace (shared st) (ListObjects cl 0) (ListObjects cl 1)
        [CloseFileChan] [] true
  | EExit =>
      totalFiles (shared st) = count_valid (ListObjects cl 0) /\
      enum_trace (shared st) (ListObjects cl 0) (ListObjects cl 1)
        [CloseFileChan] [SendDone] true
  end.

(** A transition that the enumerator cannot tell from none. *)
Definition quiet (sh sh' : Shared) : Prop :=
  totalFiles sh' = totalFiles sh /\
  fileChanClosed sh' = fileChanClosed sh /\
  list_errors (out sh') = list_errors (out sh) /\
  sent (out sh') = sent (out sh) /\
  filter is_close (out sh') = filter is_close (out sh) /\
  filter is_done (out sh') = filter is_done (out sh).

(** Where a worker can be in dry-run mode. *)
Definition dry_worker (w : Worker) : Prop :=
  match w with
  | WRecv | WFilter _ | WRemove _ | WExit => True
  | WFailed _ _ | WRemoved _ | WAddDeleted _ | WAddSize _ | WCount _ => False
  end.

(** Invariant of a run in dry-run mode. *)
Definition dry (st : State) : Prop :=
  deletedFiles (shared st) = 0 /\
  deletedSize (shared st) = 0 /\
  filter is_remove_call (out (shared st)) = [] /\
  Forall dry_worker (workers st).

(** A worker between the two additions of lines 171 and 172. *)
Definition at_add_size (w : Worker) : Z :=
  match w with WAddSize _ => 1 | _ => 0 end.

(** The sizes of the bucket fit the counters: no valid object of the
    second listing has a negative size, and neither their number nor
    the sum of their sizes exceeds the largest [int64]. *)
Definition sizes_fit (cl : Client) : Prop :=
  (forall obj, In obj (ListObjects cl 1) -> Err obj = None -> 0 <= Size obj) /\
  sumZ Size (filter valid (ListObjects cl 1)) <= Int64.max /\
  Z.of_nat (List.length (filter valid (ListObjects cl 1))) <= Int64.max.

(** What a worker is about to add to [deletedFiles] (line 171) and to
    [deletedSize] (line 172). *)
Definition pending_one (w : Worker) : Z :=
  match w with WAddDeleted _ => 1 | _ => 0 end.
Definition pending_size (w : Worker) : Z :=
  match w with WAddSize obj => Size obj | _ => 0 end.

(** The object of a worker that has passed both additions of lines
    171 and 172 and is about to count it as processed. *)
Definition counted_by (cfg : Config) (thr : Time) (cl : Client) (w : Worker)
  : list ObjectInfo :=
  match w with
  | WCount obj => if removed cfg thr cl obj then [obj] else []
  | _ => []
  end.

(** The visible actions a worker has left, at most, before it is back
    at the head of its loop. *)
Definition steps_left (w : Worker) : nat :=
  match w with
  | WRecv | WExit => 0
  | WCount _ => 1
  | WAddSize _ | WFailed _ _ => 2
  | WAddDeleted _ => 3
  | WRemoved _ => 4
  | WRemove _ => 5
  | WFilter _ => 6
  end.

(** The second pass with an idle first worker and an empty channel. *)
Definition ready (rest : list ObjectInfo) (st : State) : Prop :=
  enumerator st = EPass2 rest /\
  main st = MWait /\
  fileChan (shared st) = [] /\
  fileChanClosed (shared st) = false /\
  (0 < fileChanCap (shared st))%nat /\
  exists ws, workers st = WRecv :: ws.

(** ** A bucket of three objects

    A (10 MB, 40 days old), B (500 KB, 40 days old) and C (10 MB, 5
    days old), cleaned with [MaxAge] 30 days and [MinSize] 1 MB. *)

Module Scenario.

Local Open Scope string_scope.
Local Open Scope list_scope.

Definition day : Z := 86400 * 1000000000.
Definition MB : Z := 1024 * 1024.
Definition now : Time := 20000 * day.
Definition threshold : Time := now - 30 * day.

Definition objA : ObjectInfo :=
  {| Key := "A"; Size := 10 * MB; LastModified := now - 40 * day;
     Err := None |}.
Definition objB : ObjectInfo :=
  {| Key := "B"; Size := 500 * 1024; LastModified := now - 40 * day;
     Err := None |}.
Definition objC : ObjectInfo :=
  {| Key := "C"; Size := 10 * MB; LastModified := now - 5 * day;
     Err := None |}.
(** A listing entry that only carries an error. *)
Definition broken : ObjectInfo :=
  {| Key := ""; Size := 0; LastModified := 0; Err := Some "listing failed" |}.

Definition config (nworkers : Z) (dry : bool) : Config :=
  {| Minio := {| Bucket := "backups" |};
     Cleanup := {| MaxAge := 30; MinSize := MB; DryRun := dry;
                   Workers := nworkers |} |}.

(** The bucket behind a client that removes what it is asked to. *)
Definition bucket : Client :=
  {| ListObjects := fun _ => [objA; objB; objC];
     RemoveObject := fun _ _ => None |}.
(** The same bucket behind a client that refuses every removal. *)
Definition denying : Client :=
  {| ListObjects := fun _ => [objA; objB; objC];
     RemoveObject := fun _ _ => Some "access denied" |}.
(** The same bucket with a listing that starts with a broken entry. *)
Definition faulty : Client :=
  {| ListObjects := fun _ => [broken; objA; objB; objC];
     RemoveObject := fun _ _ => None |}.
(** A bucket whose listing has no valid entry. *)
Definition barren : Client :=
  {| ListObjects := fun _ => [broken];
     RemoveObject := fun _ _ => None |}.
(** A bucket with the single object A. *)
Definition single : Client :=
  {| ListObjects := fun _ => [objA];
     RemoveObject := fun _ _ => None |}.

(** One worker: the enumerator counts, fills the channel as fast as the
    worker lets it, closes and signals, and [main] prints at once. *)
Definition hasty1 : list Thread :=
  repeat TEnumerator 7 ++ [TWorker 0] ++ repeat TEnumerator 3
    ++ repeat TMain 5.
(** Eight workers: none of them gets to run before [main] prints. *)
Definition hasty8 : list Thread :=
  repeat TEnumerator 10 ++ repeat TMain 5.
(** One worker that handles every object before the channel is closed
    and leaves its loop before [main] is signalled. *)
Definition patient1 : list Thread :=
  repeat TEnumerator 6 ++ repeat (TWorker 0) 7
    ++ [TEnumerator] ++ repeat (TWorker 0) 2
    ++ [TEnumerator] ++ repeat (TWorker 0) 2
    ++ [TEnumerator; TWorker 0; TEnumerator] ++ repeat TMain 5.
(** The same with a broken first entry in both listings. *)
Definition patient1_faulty : list Thread :=
  repeat TEnumerator 8 ++ repeat (TWorker 0) 7
    ++ [TEnumerator] ++ repeat (TWorker 0) 2
    ++ [TEnumerator] ++ repeat (TWorker 0) 2
    ++ [TEnumerator; TWorker 0; TEnumerator] ++ repeat TMain 5.
(** One worker in dry-run mode or with refused removals. *)
Definition patient1_dry : list Thread :=
  repeat TEnumerator 6 ++ repeat (TWorker 0) 3
    ++ [TEnumerator] ++ repeat (TWorker 0) 2
    ++ [TEnumerator] ++ repeat (TWorker 0) 2
    ++ [TEnumerator; TWorker 0; TEnumerator] ++ repeat TMain 5.
(** No worker: the enumerator counts and then waits at its first send,
    while the reporter goes round. *)
Definition waiting : list Thread :=
  repeat TEnumerator 5 ++ repeat TReporter 5.
(** A worker count whose double wraps around to 2. *)
Definition wrapping : Z := - 2 ^ 63 + 1.

(** Two old objects of 2^62 bytes each. *)
Definition huge1 : ObjectInfo :=
  {| Key := "H1"; Size := 2 ^ 62; LastModified := now - 40 * day;
     Err := None |}.
Definition huge2 : ObjectInfo :=
  {| Key := "H2"; Size := 2 ^ 62; LastModified := now - 40 * day;
     Err := None |}.
Definition oversized : Client :=
  {| ListObjects := fun _ => [huge1; huge2];
     RemoveObject := fun _ _ => None |}.
(** An object with a negative size, and a policy that lets it through. *)
Definition negative : ObjectInfo :=
  {| Key := "N"; Size := -5; LastModified := now - 40 * day; Err := None |}.
Definition indebted : Client :=
  {| ListObjects := fun _ => [negative];
     RemoveObject := fun _ _ => None |}.
Definition lenient : Config :=
  {| Minio := {| Bucket := "backups" |};
     Cleanup := {| MaxAge := 30; MinSize := -10; DryRun := false;
                   Workers := 1 |} |}.
(** One worker that has removed the single object and is about to add
    its size (line 172). *)
Definition before_size : list Thread :=
  repeat TEnumerator 4 ++ repeat (TWorker 0) 5.
(** One worker that has removed and counted the first of them and is
    about to add the size of the second (line 172). *)
Definition before_second_size : list Thread :=
  repeat TEnumerator 5 ++ repeat (TWorker 0) 7
    ++ [TEnumerator] ++ repeat (TWorker 0) 5.

End Scenario.

(** ** What the workers let the outside see *)

Definition is_worker_event (e : Event) : bool :=
  match e with
  | LogCandidate _ _ _ | LogRemoveFailed _ _ | LogRemoved _
  | CallRemoveObject _ _ => true
  | _ => false
  end.

Section Ledger.

Variable cfg : Config.
Variable thresholdTime : Time.
Variable minioClient : Client.

Definition candidate_of (obj : ObjectInfo) : Event :=
  LogCandidate (Key obj) (Size obj) (LastModified obj).
Definition call_of (obj : ObjectInfo) : Event :=
  CallRemoveObject (Bucket (Minio cfg)) (Key obj).

(** The log lines and the call of one pass through lines 149-175 for
    one object, in order. *)
Definition events_of (obj : ObjectInfo) : list Event :=
  if eligible cfg thresholdTime obj then
    candidate_of obj
      :: (if DryRun (Cleanup cfg) then []
          else
            call_of obj
              :: match RemoveObject minioClient (Bucket (Minio cfg)) (Key obj)
                 with
                 | Some err => [LogRemoveFailed (Key obj) err]
                 | None => [LogRemoved (Key obj)]
                 end)
  else [].

(** What a worker has let the outside see for the object it holds. *)
Definition emitted (w : Worker) : list Event :=
  match w with
  | WRecv | WExit | WFilter _ => []
  | WRemove obj => [candidate_of obj]
  | WFailed obj _ | WRemoved obj => [candidate_of obj; call_of obj]
  | WAddDeleted obj | WAddSize obj =>
      [candidate_of obj; call_of obj; LogRemoved (Key obj)]
  | WCount obj => events_of obj
  end.

(** The bookkeeping of [accounted], extended to the output of the
    workers. *)
Definition ledger (fin : list ObjectInfo) (st : State) : Prop :=
  accounted cfg thresholdTime minioClient fin st /\
  Permutation
    (filter is_worker_event (out (shared st)))
    (flat_map events_of fin ++ flat_map emitted (workers st)).

End Ledger.

(** The number of valid entries of the second listing fits an [int64]. *)
Definition count_fits (cl : Client) : Prop :=
  Z.of_nat (List.length (filter valid (ListObjects cl 1))) <= Int64.max.

(** The channel within its capacity, and the capacity and the pool as
    they were made. *)
Definition bounded (cfg : Config) (st : State) : Prop :=
  (List.length (fileChan (shared st)) <= fileChanCap (shared st))%nat /\
  fileChanCap (shared st) = Z.to_nat (Int64.mul (Workers (Cleanup cfg)) 2) /\
  List.length (workers st) = Z.to_nat (Workers (Cleanup cfg)).

(** The total that [main] holds in hand once it has loaded it, and the
    processed count that the reporter holds in hand. *)
Definition main_total (m : Main) : option Z :=
  match m with
  | MLoadProcessed t | MLoadDeleted t _ | MLoadSize t _ _ | MPrint t _ _ _ =>
      Some t
  | MWait | MLoadTotal | MExit => None
  end.
Definition sampled_processed (r : Reporter) : option Z :=
  match r with
  | RLoadTotal p | RLoadDeleted p _ | RLoadSize p _ _ | RReport p _ _ _ =>
      Some p
  | RSleep | RDone => None
  end.

(** A log line that shows a total shows [c]. *)
Definition total_ok (c : Z) (e : Event) : Prop :=
  match e with
  | LogTotal count => count = c
  | LogProgress _ total _ _ => total = c /\ 0 < total
  | LogSummary total _ _ _ => total = c
  | _ => True
  end.

(** Invariant of the total: it is 0 until the first pass has counted,
    and the count of the first pass from then on, also in the hands of
    the reporter and of [main] and in the log. *)
Definition totals (cl : Client) (st : State) : Prop :=
  (totalFiles (shared st) = 0 \/
   totalFiles (shared st) = count_valid (ListObjects cl 0)) /\
  (forall t, sampled_total (reporter st) = Some t ->
             t = 0 \/ t = count_valid (ListObjects cl 0)) /\
  (forall t, main_total (main st) = Some t ->
             t = count_valid (ListObjects cl 0)) /\
  (main st <> MWait -> enumerator st = EExit) /\
  Forall (total_ok (count_valid (ListObjects cl 0))) (out (shared st)).

(** Invariant of the summary: it is the last line, and only there. *)
Definition summary_last (st : State) : Prop :=
  (main st <> MExit -> filter is_summary (out (shared st)) = []) /\
  (main st = MExit ->
   exists tr total processed deleted size,
     out (shared st) = tr ++ [LogSummary total processed deleted size] /\
     filter is_summary tr = []).

(** Invariant of a reporter that cannot catch up: what it has sampled
    as processed is at most [n], and it has not left its loop. *)
Definition lagging (cl : Client) (n : Z) (st : State) : Prop :=
  reporter st <> RDone /\
  (forall p, sampled_processed (reporter st) = Some p -> p <= n) /\
  (forall t, sampled_total (reporter st) = Some t ->
             t = 0 \/ t = count_valid (ListObjects cl 0)).

(** ** The scenario, continued *)

Module Outcomes.

Import Scenario.
Local Open Scope string_scope.
Local Open Scope list_scope.

(** Where the three objects are once the patient worker has gone
    through them and [main] has returned. *)
Definition patient1_end : State :=
  Eval vm_compute in
    match run (config 1 false) threshold bucket patient1 with
    | Some st => st
    | None => init (config 1 false) threshold bucket
    end.

(** Where they are when [main] has returned at once. *)
Definition hasty1_end : State :=
  Eval vm_compute in
    match run (config 1 false) threshold bucket hasty1 with
    | Some st => st
    | None => init (config 1 false) threshold bucket
    end.

(** The bucket has lost object C between the two listings. *)
Definition shrunk : Client :=
  {| ListObjects :=
       fun n => match n with
                | O => [objA; objB; objC]
                | S _ => [objA; objB]
                end;
     RemoveObject := fun _ _ => None |}.
(** One worker handles A and B and leaves; the reporter goes round. *)
Definition shrunk_run : list Thread :=
  repeat TEnumerator 6 ++ repeat (TWorker 0) 7
    ++ [TEnumerator] ++ repeat (TWorker 0) 2
    ++ [TEnumerator; TWorker 0] ++ repeat TReporter 5.
Definition shrunk_end : State :=
  Eval vm_compute in
    match run (config 1 false) threshold shrunk shrunk_run with
    | Some st => st
    | None => init (config 1 false) threshold shrunk
    end.

(** The patient worker in dry-run mode. *)
Definition patient1_dry_end : State :=
  Eval vm_compute in
    match run (config 1 true) threshold bucket patient1_dry with
    | Some st => st
    | None => init (config 1 true) threshold bucket
    end.

(** Two workers behind a full channel: the first handles A, the second
    B and C, and both find the channel closed. *)
Definition pair : list Thread :=
  repeat TEnumerator 10 ++ repeat (TWorker 0) 7
    ++ repeat (TWorker 1) 5 ++ [TWorker 0].
Definition pair_end : State :=
  Eval vm_compute in
    match run (config 2 false) threshold bucket pair with
    | Some st => st
    | None => init (config 2 false) threshold bucket
    end.

End Outcomes.

(** ** Keys in the output, and what must come before what *)

(** The keys logged as files to clean, and the keys handed to
    [RemoveObject], in order. *)
Definition candidate_key (e : Event) : list string :=
  match e with LogCandidate k _ _ => [k] | _ => [] end.
Definition call_key (e : Event) : list string :=
  match e with CallRemoveObject _ k => [k] | _ => [] end.

(** What must have happened before an event: a removal is called for a
    key logged as a file to clean, and an outcome is logged for a key
    for which the removal has been called. *)
Definition justified (bucket : string) (before : list Event) (e : Event)
  : Prop :=
  match e with
  | CallRemoveObject _ k => exists s m, In (LogCandidate k s m) before
  | LogRemoved k | LogRemoveFailed k _ => In (CallRemoveObject bucket k) before
  | _ => True
  end.

(** Every event of a trace is justified by what precedes it. *)
Definition causal (bucket : string) (tr : list Event) : Prop :=
  forall before e after,
    tr = before ++ e :: after -> justified bucket before e.

(** ** Arithmetic of [int64] *)

Lemma wrap_small (x : Z) : Int64.min <= x <= Int64.max -> Int64.wrap x = x.
Proof.
  unfold Int64.min, Int64.max, Int64.wrap. intros H.
  rewrite Z.mod_small; lia.
Qed.

Lemma wrap_add_l (a b : Z) : Int64.wrap (Int64.wrap a + b) = Int64.wrap (a + b).
Proof.
  unfold Int64.wrap.
  replace ((a + 2 ^ 63) mod 2 ^ 64 - 2 ^ 63 + b + 2 ^ 63)
    with ((a + 2 ^ 63) mod 2 ^ 64 + b) by ring.
  rewrite Z.add_mod_idemp_l by lia.
  f_equal. f_equal. ring.
Qed.

Lemma add_wrap (a b : Z) : Int64.add (Int64.wrap a) b = Int64.wrap (a + b).
Proof. unfold Int64.add. apply wrap_add_l. Qed.

(** ** Sums over lists *)

Lemma sumZ_app {A} (f : A -> Z) (l1 l2 : list A) :
  sumZ f (l1 ++ l2) = sumZ f l1 + sumZ f l2.
Proof. induction l1 as [|x l1 IH]; simpl; lia. Qed.

Lemma sumZ_perm {A} (f : A -> Z) (l1 l2 : list A) :
  Permutation l1 l2 -> sumZ f l1 = sumZ f l2.
Proof. induction 1; simpl; lia. Qed.

Lemma sumZ_flat_map {A B} (f : B -> Z) (g : A -> list B) (l : list A) :
  sumZ f (flat_map g l) = sumZ (fun x => sumZ f (g x)) l.
Proof.
  induction l as [|x l IH]; simpl; [reflexivity|].
  rewrite sumZ_app, IH. reflexivity.
Qed.

Lemma sumZ_plus {A} (f g : A -> Z) (l : list A) :
  sumZ (fun x => f x + g x) l = sumZ f l + sumZ g l.
Proof. induction l as [|x l IH]; simpl; lia. Qed.

Lemma sumZ_le {A} (f g : A -> Z) (l : list A) :
  (forall x, In x l -> f x <= g x) -> sumZ f l <= sumZ g l.
Proof.
  induction l as [|x l IH]; simpl; intros H; [lia|].
  specialize (H x (or_introl eq_refl)) as Hx.
  assert (sumZ f l <= sumZ g l) by (apply IH; intros; apply H; now right).
  lia.
Qed.

Lemma sumZ_nonneg {A} (f : A -> Z) (l : list A) :
  (forall x, In x l -> 0 <= f x) -> 0 <= sumZ f l.
Proof.
  induction l as [|x l IH]; simpl; intros H; [lia|].
  specialize (H x (or_introl eq_refl)) as Hx.
  assert (0 <= sumZ f l) by (apply IH; intros; apply H; now right).
  lia.
Qed.

Lemma sumZ_one_length {A} (l : list A) :
  sumZ (fun _ => 1) l = Z.of_nat (List.length l).
Proof.
  induction l as [|x l IH]; [reflexivity|].
  cbn [sumZ List.length]. rewrite Nat2Z.inj_succ, IH. lia.
Qed.

(** ** Updating one goroutine of the pool *)

Lemma set_nth_split {A} (i : nat) (x y : A) (l : list A) :
  nth_error l i = Some x ->
  exists l1 l2, l = l1 ++ x :: l2 /\ set_nth i y l = l1 ++ y :: l2.
Proof.
  revert i. induction l as [|h t IH]; intros [|i] H; simpl in H; try discriminate.
  - inversion H; subst. exists [], t. split; reflexivity.
  - destruct (IH i H) as (l1 & l2 & -> & E).
    exists (h :: l1), l2. simpl. rewrite E. split; reflexivity.
Qed.

(** ** Reasoning along a schedule *)

Lemma exec_app (cfg : Config) (thr : Time) (cl : Client)
      (s1 s2 : list Thread) (st : State) :
  exec cfg thr cl (s1 ++ s2) st =
  match exec cfg thr cl s1 st with
  | Some st' => exec cfg thr cl s2 st'
  | None => None
  end.
Proof.
  revert st. induction s1 as [|t s1 IH]; intros st; simpl; [reflexivity|].
  destruct (step cfg thr cl t st); [apply IH | reflexivity].
Qed.

Lemma exec_invariant (cfg : Config) (thr : Time) (cl : Client)
      (P : State -> Prop) :
  (forall t st st', P st -> step cfg thr cl t st = Some st' -> P st') ->
  forall sched st st', P st -> exec cfg thr cl sched st = Some st' -> P st'.
Proof.
  intros Hstep sched. induction sched as [|t sched IH]; intros st st' HP H.
  - simpl in H. inversion H; subst. exact HP.
  - simpl in H. destruct (step cfg thr cl t st) as [st1|] eqn:E; [|discriminate].
    eapply IH; [|exact H]. eapply Hstep; eauto.
Qed.

Lemma run_exec (cfg : Config) (thr : Time) (cl : Client)
      (sched : list Thread) (st : State) :
  run cfg thr cl sched = Some st ->
  Int64.mul (Workers (Cleanup cfg)) 2 >= 0 /\
  exec cfg thr cl sched (init cfg thr cl) = Some st.
Proof.
  unfold run, boot.
  destruct (Int64.mul (Workers (Cleanup cfg)) 2 <? 0) eqn:E; [discriminate|].
  apply Z.ltb_ge in E. intros H. split; [apply Z.le_ge; exact E | exact H].
Qed.

Lemma step_inv (cfg : Config) (thr : Time) (cl : Client)
      (t : Thread) (st st' : State) :
  step cfg thr cl t st = Some st' ->
  main st <> MExit /\ step_spec cfg thr cl t st st'.
Proof.
  unfold step. destruct (exited (main st)) eqn:Ex; [discriminate|].
  intros H. split; [intros E; rewrite E in Ex; discriminate|].
  destruct t as [| | |i].
  - destruct (main_step (main st) (shared st)) as [[m sh]|] eqn:E;
      [|discriminate].
    inversion H; subst. now constructor.
  - destruct (enumerator st) eqn:Een.
    1-3,5:
      match type of H with
      | match enum_step ?c ?e ?s with _ => _ end = _ =>
          destruct (enum_step c e s) as [[e' sh]|] eqn:E; [|discriminate]
      end;
      inversion H; subst; apply step_enum;
      [rewrite Een; discriminate | rewrite Een; exact E].
    destruct (main st) eqn:Em; try discriminate.
    inversion H; subst. now apply step_signal.
  - destruct (reporter_step (reporter st) (shared st)) as [[r sh]|] eqn:E;
      [|discriminate].
    inversion H; subst. now constructor.
  - destruct (nth_error (workers st) i) as [w|] eqn:En; [|discriminate].
    destruct (worker_step cfg thr cl w (shared st)) as [[w' sh]|] eqn:E;
      [|discriminate].
    inversion H; subst.
    destruct (set_nth_split i w w' (workers st) En) as (l1 & l2 & E1 & E2).
    rewrite E2. eapply step_worker; eauto.
Qed.

(** ** One goroutine at a time *)

Section Goroutines.

Variable cfg : Config.
Variable thresholdTime : Time.
Variable minioClient : Client.

Local Abbreviation wstep := (worker_step cfg thresholdTime minioClient).
Local Abbreviation wbody := (worker_body cfg thresholdTime minioClient).
Local Abbreviation candidate obj :=
  (LogCandidate (Key obj) (Size obj) (LastModified obj)).
Local Abbreviation bucket := (Bucket (Minio cfg)).

Lemma eligible_tests (obj : ObjectInfo) :
  eligible cfg thresholdTime obj = true <->
  (Size obj <? MinSize (Cleanup cfg)) = false /\
  After (LastModified obj) thresholdTime = false.
Proof.
  unfold eligible, After. rewrite andb_true_iff, Z.ltb_ge, Z.gtb_ltb, Z.ltb_ge.
  rewrite !Z.leb_le. tauto.
Qed.

Lemma eligible_iff (obj : ObjectInfo) :
  eligible cfg thresholdTime obj = true <->
  MinSize (Cleanup cfg) <= Size obj /\ LastModified obj <= thresholdTime.
Proof. unfold eligible. rewrite andb_true_iff, !Z.leb_le. tauto. Qed.

Lemma filter_pass (obj : ObjectInfo) (sh : Shared) :
  eligible cfg thresholdTime obj = true ->
  wstep (WFilter obj) sh = Some (WRemove obj, emit (candidate obj) sh).
Proof.
  intros H. apply eligible_tests in H as [H1 H2]. simpl.
  rewrite H1, H2. reflexivity.
Qed.

Lemma filter_skip (obj : ObjectInfo) (sh : Shared) :
  eligible cfg thresholdTime obj = false ->
  wstep (WFilter obj) sh = Some (WRecv, add_processed sh).
Proof.
  intros H. simpl.
  destruct (Size obj <? MinSize (Cleanup cfg)) eqn:H1; [reflexivity|].
  destruct (After (LastModified obj) thresholdTime) eqn:H2; [reflexivity|].
  assert (eligible cfg thresholdTime obj = true)
    by (apply eligible_tests; auto).
  congruence.
Qed.

(** What the loop body does with one object, by the four ways through it. *)
Lemma worker_body_cases (obj : ObjectInfo) (sh : Shared) :
  wbody obj sh =
  if eligible cfg thresholdTime obj then
    if DryRun (Cleanup cfg) then
      (WRecv, add_processed (emit (candidate obj) sh))
    else
      match RemoveObject minioClient bucket (Key obj) with
      | Some err =>
          (WRecv,
           add_processed
             (emit (LogRemoveFailed (Key obj) err)
                (emit (CallRemoveObject bucket (Key obj))
                   (emit (candidate obj) sh))))
      | None =>
          (WRecv,
           add_processed
             (add_size (Size obj)
                (add_deleted
                   (emit (LogRemoved (Key obj))
                      (emit (CallRemoveObject bucket (Key obj))
                         (emit (candidate obj) sh))))))
      end
  else (WRecv, add_processed sh).
Proof.
  unfold worker_body.
  destruct (eligible cfg thresholdTime obj) eqn:He.
  - cbn [worker_run]. rewrite (filter_pass obj sh He).
    cbn [worker_run worker_step].
    destruct (DryRun (Cleanup cfg)); cbn [negb]; [reflexivity|].
    destruct (RemoveObject minioClient bucket (Key obj)); reflexivity.
  - cbn [worker_run]. rewrite (filter_skip obj sh He). reflexivity.
Qed.


(** C2: the worker lets an object through its two tests (and logs it as
    a file to clean) if and only if its size is at least [MinSize] and
    it was last modified no later than [thresholdTime]; an object
    smaller than [MinSize], whatever its age, and an object modified
    strictly after [thresholdTime], whatever its size, is only counted
    as processed: nothing is logged, called or deleted for it. *)
Theorem filter_selects_iff (obj : ObjectInfo) (sh : Shared) :
  (wstep (WFilter obj) sh = Some (WRemove obj, emit (candidate obj) sh) <->
   MinSize (Cleanup cfg) <= Size obj /\ LastModified obj <= thresholdTime) /\
  (Size obj < MinSize (Cleanup cfg) ->
   wbody obj sh = (WRecv, add_processed sh)) /\
  (thresholdTime < LastModified obj ->
   wbody obj sh = (WRecv, add_processed sh)).
Proof.
  split; [|split].
  - split.
    + intros H. apply eligible_iff.
      destruct (eligible cfg thresholdTime obj) eqn:E; [reflexivity|].
      rewrite (filter_skip obj sh E) in H. discriminate.
    + intros H. apply filter_pass, eligible_iff, H.
  - intros H. rewrite worker_body_cases.
    destruct (eligible cfg thresholdTime obj) eqn:E; [|reflexivity].
    apply eligible_iff in E. lia.
  - intros H. rewrite worker_body_cases.
    destruct (eligible cfg thresholdTime obj) eqn:E; [|reflexivity].
    apply eligible_iff in E. lia.
Qed.

(** C4: for an eligible object whose removal fails, outside dry-run
    mode, the loop body logs the candidate, calls [RemoveObject] once,
    logs the failure with the key and the error, adds one to
    [processedFiles], leaves [deletedFiles], [deletedSize] and the rest
    of the shared state as they were, and is back at the head of the
    loop for the next object; each of its four transitions does so
    from whatever state the other goroutines have left. *)
Theorem removal_failure_counted_once
        (obj : ObjectInfo) (err : string) (sh : Shared) :
  MinSize (Cleanup cfg) <= Size obj ->
  LastModified obj <= thresholdTime ->
  DryRun (Cleanup cfg) = false ->
  RemoveObject minioClient bucket (Key obj) = Some err ->
  (let (w', sh') := wbody obj sh in
   w' = WRecv /\
   out sh' = out sh ++ [candidate obj; CallRemoveObject bucket (Key obj);
                        LogRemoveFailed (Key obj) err] /\
   processedFiles sh' = Int64.add (processedFiles sh) 1 /\
   deletedFiles sh' = deletedFiles sh /\
   deletedSize sh' = deletedSize sh /\
   totalFiles sh' = totalFiles sh /\
   fileChan sh' = fileChan sh /\
   fileChanClosed sh' = fileChanClosed sh) /\
  (forall sh1 sh2 sh3 sh4,
      wstep (WFilter obj) sh1 = Some (WRemove obj, emit (candidate obj) sh1) /\
      wstep (WRemove obj) sh2 =
        Some (WFailed obj err, emit (CallRemoveObject bucket (Key obj)) sh2) /\
      wstep (WFailed obj err) sh3 =
        Some (WCount obj, emit (LogRemoveFailed (Key obj) err) sh3) /\
      wstep (WCount obj) sh4 = Some (WRecv, add_processed sh4)).
Proof.
  intros Hs Ht Hd Hr.
  assert (He : eligible cfg thresholdTime obj = true)
    by (apply eligible_iff; tauto).
  split.
  - rewrite worker_body_cases, He, Hd, Hr. cbn.
    rewrite <- !app_assoc. cbn. repeat split; reflexivity.
  - intros sh1 sh2 sh3 sh4. repeat split.
    + apply filter_pass, He.
    + cbn. rewrite Hd, Hr. reflexivity.
Qed.

(** C6: the reporter, once it has sampled the four counters, logs a
    progress line (with the sampled values) exactly when the sampled
    total is positive and otherwise leaves the output alone; it leaves
    its loop exactly when the sampled processed count has reached a
    positive sampled total, and otherwise goes back to sleep for
    another round; sampling itself logs nothing and never ends the
    loop, and a whole round on unchanged counters behaves the same. *)
Theorem reporter_round (sh : Shared) :
  (forall processed total deleted size,
      exists r' sh',
        reporter_step (RReport processed total deleted size) sh = Some (r', sh') /\
        (total > 0 -> sh' = emit (LogProgress processed total deleted size) sh) /\
        (total <= 0 -> sh' = sh /\ r' = RSleep) /\
        (r' = RDone <-> processed >= total /\ total > 0) /\
        (r' <> RDone -> r' = RSleep)) /\
  (forall r r' sh',
      reporter_step r sh = Some (r', sh') ->
      (forall p t d s, r <> RReport p t d s) ->
      sh' = sh /\ r' <> RDone) /\
  reporter_tick sh =
    (if (processedFiles sh >=? totalFiles sh) && (totalFiles sh >? 0)
     then RDone else RSleep,
     if totalFiles sh >? 0
     then emit (LogProgress (processedFiles sh) (totalFiles sh)
                  (deletedFiles sh) (deletedSize sh)) sh
     else sh).
Proof.
  split; [|split].
  - intros p t d s. cbn [reporter_step].
    destruct (t >? 0) eqn:Et; destruct (p >=? t) eqn:Ep; cbn [andb];
      eexists; eexists; (split; [reflexivity|]);
      rewrite ?Z.gtb_ltb in Et; rewrite ?Z.geb_leb in Ep;
      rewrite ?Z.ltb_lt, ?Z.ltb_ge in Et; rewrite ?Z.leb_le, ?Z.leb_gt in Ep;
      repeat split; intros; try reflexivity; try discriminate; try lia;
      try congruence.
    all: match goal with H : _ /\ _ |- _ => destruct H; lia end.
  - intros r r' sh' H Hn.
    destruct r; cbn in H; try (inversion H; subst; split; [reflexivity|discriminate]).
    + exfalso. eapply Hn. reflexivity.
    + discriminate.
  - unfold reporter_tick. cbn.
    destruct (totalFiles sh >? 0); destruct (processedFiles sh >=? totalFiles sh);
      reflexivity.
Qed.

End Goroutines.

(** ** The process as a whole *)

Ltac step_cases H :=
  let Hlive := fresh "Hlive" in
  apply step_inv in H; destruct H as [Hlive H];
  inversion H as [ ? m sh Hms | ? Hen Hmn | ? e sh Hne Hes | ? r sh Hrs
                 | ? i w w' sh l1 l2 Hnth Hws Hwst ];
  subst; clear H.

Ltac open_state st :=
  destruct st as [[total processed deleted size buf cap closed tr] ws en rp mn];
  cbn [shared workers enumerator reporter main totalFiles processedFiles
       deletedFiles deletedSize fileChan fileChanCap fileChanClosed out] in *.

Ltac inv H := inversion H; subst; clear H.

(** Case analysis on an enabled transition of one goroutine. *)
Ltac enum_cases H :=
  match type of H with
  | enum_step _ ?en _ = _ =>
      let obj := fresh "obj" in
      let rest := fresh "rest" in
      let count := fresh "count" in
      destruct en as [[|obj rest] count | count | [|obj rest] | | ];
      cbn in H; try discriminate;
      try (let err := fresh "err" in
           let Herr := fresh "Herr" in
           destruct (Err obj) as [err|] eqn:Herr);
      try match type of H with
          | (if ?b then _ else _) = _ =>
              let Hroom := fresh "Hroom" in
              destruct b eqn:Hroom; [|discriminate]
          end;
      inv H
  end.

Ltac reporter_cases H :=
  match type of H with
  | reporter_step ?r _ = _ =>
      let p := fresh "p" in
      let t := fresh "t" in
      let d := fresh "d" in
      let s := fresh "s" in
      destruct r as [ | p | p t | p t d | p t d s | ];
      cbn in H; try discriminate;
      try match type of H with
          | (if ?b then _ else _) = _ =>
              let Hend := fresh "Hend" in
              destruct b eqn:Hend
          end;
      inv H
  end.

Ltac worker_cases H :=
  match type of H with
  | worker_step _ _ _ ?w _ = _ =>
      let obj := fresh "obj" in
      let err := fresh "err" in
      destruct w as [ | obj | obj | obj err | obj | obj | obj | obj | ];
      [ .. | discriminate H ]
  end.

Lemma filter_snoc {A} (p : A -> bool) (l : list A) (x : A) :
  filter p (l ++ [x]) = filter p l ++ (if p x then [x] else []).
Proof. rewrite filter_app. reflexivity. Qed.

Lemma count_valid_snoc (seen : list ObjectInfo) (obj : ObjectInfo) :
  count_valid (seen ++ [obj]) =
  if valid obj then Int64.add (count_valid seen) 1 else count_valid seen.
Proof.
  unfold count_valid. rewrite filter_app. cbn [filter].
  destruct (valid obj); [|rewrite app_nil_r; reflexivity].
  rewrite add_wrap, length_app, Nat2Z.inj_add. reflexivity.
Qed.

Lemma stream_errors_app (l1 l2 : list ObjectInfo) :
  stream_errors (l1 ++ l2) = stream_errors l1 ++ stream_errors l2.
Proof.
  induction l1 as [|o l1 IH]; [reflexivity|]. cbn.
  destruct (Err o); cbn; rewrite IH; reflexivity.
Qed.

Lemma sent_snoc (tr : list Event) (e : Event) :
  sent (tr ++ [e]) = sent tr ++ sent [e].
Proof.
  induction tr as [|x tr IH]; [reflexivity|].
  destruct x; cbn; rewrite ?IH; reflexivity.
Qed.

Lemma list_errors_snoc (tr : list Event) (e : Event) :
  list_errors (tr ++ [e]) = list_errors tr ++ list_errors [e].
Proof.
  induction tr as [|x tr IH]; [reflexivity|].
  destruct x; cbn; rewrite ?IH; reflexivity.
Qed.

Ltac trace_simpl :=
  unfold enum_trace in *; cbn;
  rewrite ?list_errors_snoc, ?sent_snoc, ?filter_snoc; cbn;
  rewrite ?app_nil_r.

Ltac trace_fin :=
  trace_simpl; rewrite ?stream_errors_app, ?filter_app; cbn; unfold valid;
  repeat match goal with
         | H : Err _ = _ |- _ => rewrite H
         | H : list_errors _ = _ |- _ => rewrite H
         | H : sent _ = _ |- _ => rewrite H
         | H : filter is_close _ = _ |- _ => rewrite H
         | H : filter is_done _ = _ |- _ => rewrite H
         end;
  rewrite ?app_nil_r, <- ?app_assoc; auto 10.

Section Process.

Variable cfg : Config.
Variable thresholdTime : Time.
Variable minioClient : Client.

Local Abbreviation pstep := (step cfg thresholdTime minioClient).
Local Abbreviation pexec := (exec cfg thresholdTime minioClient).
Local Abbreviation prun := (run cfg thresholdTime minioClient).
Local Abbreviation pinit := (init cfg thresholdTime minioClient).
Local Abbreviation wstep := (worker_step cfg thresholdTime minioClient).
Local Abbreviation bucket := (Bucket (Minio cfg)).
Local Abbreviation listing1 := (ListObjects minioClient 0).
Local Abbreviation listing2 := (ListObjects minioClient 1).

(** What a transition of a worker leaves alone. *)
Lemma worker_step_frame (w w' : Worker) (sh sh' : Shared) :
  wstep w sh = Some (w', sh') ->
  totalFiles sh' = totalFiles sh /\
  fileChanCap sh' = fileChanCap sh /\
  fileChanClosed sh' = fileChanClosed sh /\
  filter is_progress (out sh') = filter is_progress (out sh) /\
  filter is_summary (out sh') = filter is_summary (out sh) /\
  filter is_close (out sh') = filter is_close (out sh) /\
  filter is_done (out sh') = filter is_done (out sh) /\
  sent (out sh') = sent (out sh) /\
  list_errors (out sh') = list_errors (out sh).
Proof.
  intros H. worker_cases H; cbn in H.
  - destruct (fileChan sh) as [|o rest] eqn:Eb;
      [destruct (fileChanClosed sh) eqn:Ec|];
      inv H; cbn; repeat apply conj; auto.
  - destruct (Size obj <? MinSize (Cleanup cfg));
      [|destruct (After (LastModified obj) thresholdTime)];
      inv H; cbn; rewrite ?filter_snoc, ?sent_snoc, ?list_errors_snoc; cbn;
      rewrite ?app_nil_r; repeat apply conj; reflexivity.
  - destruct (DryRun (Cleanup cfg)); cbn in H;
      [|destruct (RemoveObject minioClient bucket (Key obj))];
      inv H; cbn; rewrite ?filter_snoc, ?sent_snoc, ?list_errors_snoc; cbn;
      rewrite ?app_nil_r; repeat apply conj; reflexivity.
  - inv H; cbn; rewrite ?filter_snoc, ?sent_snoc, ?list_errors_snoc; cbn;
      rewrite ?app_nil_r; repeat apply conj; reflexivity.
  - inv H; cbn; rewrite ?filter_snoc, ?sent_snoc, ?list_errors_snoc; cbn;
      rewrite ?app_nil_r; repeat apply conj; reflexivity.
  - inv H; cbn; repeat apply conj; reflexivity.
  - inv H; cbn; repeat apply conj; reflexivity.
  - inv H; cbn; repeat apply conj; reflexivity.
Qed.

Lemma nothing_counted_step (t : Thread) (st st' : State) :
  nothing_counted st -> pstep t st = Some st' -> nothing_counted st'.
Proof.
  intros (Ht & Hr & Hs & Hp & Hc) H. step_cases H; open_state st;
    unfold nothing_counted; cbn.
  - (* main *)
    destruct mn; cbn in *; try discriminate;
      match goal with E : Some _ = Some _ |- _ => inv E end;
      repeat apply conj; cbn; auto.
    rewrite filter_snoc, Hp. reflexivity.
  - repeat apply conj; cbn; auto; try discriminate.
    rewrite filter_snoc, Hp. reflexivity.
  - enum_cases Hes; cbn; repeat apply conj; auto;
      try (rewrite filter_snoc, Hp; reflexivity);
      try (intros r c E; inv E); try discriminate.
    all: match goal with
         | Hc : forall rest c, counted (EPass1 ?l ?k) = _ -> _ |- _ =>
             destruct (Hc l k eq_refl) as [Hv Hz]
         end; auto.
    all: cbn in Hv; unfold valid in Hv at 1; rewrite Herr in Hv;
      try discriminate; split; assumption.
  - reporter_cases Hrs;
      try match goal with
          | Hs : forall t0, sampled_total (RReport _ ?t _ _) = _ -> _ |- _ =>
              pose proof (Hs t eq_refl); subst t;
              try (rewrite andb_false_r in Hend; discriminate)
          end;
      cbn; repeat apply conj; auto; try discriminate;
      try (intros t' E; inv E; auto).
  - destruct (worker_step_frame _ _ _ _ Hwst) as (F1 & _ & _ & F2 & _).
    cbn in F1, F2. repeat apply conj; auto; congruence.
Qed.

(** The same for whole schedules. *)
Lemma nothing_counted_run (sched : list Thread) (st : State) :
  filter valid listing1 = [] ->
  prun sched = Some st -> nothing_counted st.
Proof.
  intros Hv H. apply run_exec in H as [_ H].
  eapply exec_invariant; [apply nothing_counted_step | | exact H].
  unfold nothing_counted, init, startup_log. cbn.
  repeat apply conj; auto; try discriminate.
  - destruct (DryRun (Cleanup cfg)); reflexivity.
  - intros r c E. inv E. auto.
Qed.

Lemma starved_step (t : Thread) (st st' : State) :
  starved minioClient st -> pstep t st = Some st' -> starved minioClient st'.
Proof.
  intros (Hm & Hw & Hb & Hcap & Hcl & Hsum & Hclose & Hsent & Htodo) H.
  step_cases H; open_state st; unfold starved; cbn; subst.
  - discriminate.
  - exfalso. apply Htodo. reflexivity.
  - enum_cases Hes; cbn in *;
      rewrite ?filter_snoc, ?sent_snoc, ?Hsum, ?Hclose, ?Hsent; cbn;
      repeat apply conj; auto; try discriminate.
    all: try (exfalso; apply Htodo; reflexivity).
    unfold valid in Htodo. rewrite Herr in Htodo. exact Htodo.
  - reporter_cases Hrs; cbn; try destruct (t >? 0); cbn;
      rewrite ?filter_snoc, ?sent_snoc, ?Hsum, ?Hclose, ?Hsent; cbn;
      repeat apply conj; auto.
  - destruct l1; discriminate.
Qed.

Local Abbreviation acct := (accounted cfg thresholdTime minioClient).
Local Abbreviation elig := (eligible cfg thresholdTime).
Local Abbreviation rem := (removed cfg thresholdTime minioClient).
Local Abbreviation rem1 := (removed_one cfg thresholdTime minioClient).
Local Abbreviation remsz := (removed_size cfg thresholdTime minioClient).
Local Abbreviation wok := (worker_ok cfg thresholdTime minioClient).
Local Abbreviation cred := (credit_deleted cfg thresholdTime minioClient).
Local Abbreviation credsz := (credit_size cfg thresholdTime minioClient).

Lemma removed_inv (obj : ObjectInfo) :
  rem obj = true ->
  elig obj = true /\ DryRun (Cleanup cfg) = false /\
  RemoveObject minioClient bucket (Key obj) = None.
Proof.
  unfold removed. rewrite !andb_true_iff, negb_true_iff.
  destruct (RemoveObject minioClient bucket (Key obj)); intuition discriminate.
Qed.

Lemma not_removed_one (obj : ObjectInfo) :
  rem obj = false -> rem1 obj = 0 /\ remsz obj = 0.
Proof. unfold removed_one, removed_size. intros ->. auto. Qed.

Lemma removed_one_size (obj : ObjectInfo) :
  rem obj = true -> rem1 obj = 1 /\ remsz obj = Size obj.
Proof. unfold removed_one, removed_size. intros ->. auto. Qed.

(** A step of anything but a worker that leaves the counters, the
    channel and what is left to read as they are keeps the books. *)
Lemma accounted_frame (fin : list ObjectInfo) (st st' : State) :
  acct fin st ->
  workers st' = workers st ->
  processedFiles (shared st') = processedFiles (shared st) ->
  deletedFiles (shared st') = deletedFiles (shared st) ->
  deletedSize (shared st') = deletedSize (shared st) ->
  fileChan (shared st') ++ filter valid (todo minioClient (enumerator st')) =
  fileChan (shared st) ++ filter valid (todo minioClient (enumerator st)) ->
  acct fin st'.
Proof.
  unfold accounted. intros (Hp & Hw & H1 & H2 & H3) Ew Ep Ed Es Eb.
  rewrite Ew, Ep, Ed, Es, Eb. auto.
Qed.

Lemma finish_perm {A} (x : A) (fin a b r l : list A) :
  Permutation (fin ++ (a ++ [x] ++ b) ++ r) l ->
  Permutation ((x :: fin) ++ (a ++ b) ++ r) l.
Proof.
  intros H. eapply Permutation_trans; [|exact H].
  rewrite <- !app_assoc. cbn. rewrite !app_assoc.
  rewrite <- (app_assoc fin a). rewrite <- !app_assoc.
  rewrite (app_assoc fin a). rewrite (app_assoc fin a (x :: _)).
  apply Permutation_middle.
Qed.

Ltac simp_shared :=
  cbn -[Z.add Z.mul Int64.wrap Int64.add] in *.

Lemma accounted_step (t : Thread) (st st' : State) (fin : list ObjectInfo) :
  acct fin st -> pstep t st = Some st' ->
  acct fin st' \/ exists obj, acct (obj :: fin) st'.
Proof.
  intros Hacc H. step_cases H.
  - left. eapply accounted_frame; eauto;
      destruct (main st); cbn in *; try discriminate; inv Hms; reflexivity.
  - left. eapply accounted_frame; eauto; cbn; try reflexivity.
    rewrite Hen. reflexivity.
  - left. eapply accounted_frame; eauto; cbn;
      enum_cases Hes; cbn; try reflexivity;
      unfold valid; rewrite Herr; rewrite <- ?app_assoc; reflexivity.
  - left. eapply accounted_frame; eauto;
      reporter_cases Hrs; cbn;
      try match goal with |- context [if ?b then _ else _] => destruct b end;
      reflexivity.
  - destruct Hacc as (Hp & Hw & H1 & H2 & H3).
    rewrite Hws in Hp, Hw, H2, H3.
    rewrite flat_map_app in Hp. rewrite sumZ_app in H2, H3.
    apply Forall_app in Hw as [Hw1 Hw2]. inv Hw2.
    cbn [flat_map sumZ] in *.
    assert (Hbuild : forall fin' w' sh',
      Permutation
        (fin' ++ (flat_map inflight l1 ++ inflight w' ++ flat_map inflight l2)
              ++ fileChan sh'
              ++ filter valid (todo minioClient (enumerator st)))
        (filter valid listing2) ->
      wok w' ->
      processedFiles sh' = Int64.wrap (sumZ (fun _ => 1) fin') ->
      deletedFiles sh' =
        Int64.wrap (sumZ rem1 fin' + (sumZ cred l1 + (cred w' + sumZ cred l2))) ->
      deletedSize sh' =
        Int64.wrap
          (sumZ remsz fin' + (sumZ credsz l1 + (credsz w' + sumZ credsz l2))) ->
      acct fin'
        {| shared := sh'; workers := l1 ++ w' :: l2;
           enumerator := enumerator st; reporter := reporter st;
           main := main st |}).
    { intros fin' w0 sh' Gp Gw G1 G2 G3. unfold accounted.
      cbn [shared workers enumerator].
      rewrite flat_map_app, !sumZ_app, Forall_app. cbn [flat_map sumZ].
      repeat apply conj; auto. }
    worker_cases Hwst.
    + (* 147: receive *)
      left. cbn in Hwst. destruct (fileChan (shared st)) as [|o rest] eqn:Eb.
      * destruct (fileChanClosed (shared st)); inv Hwst.
        apply Hbuild; auto. rewrite Eb. exact Hp.
      * inv Hwst. apply Hbuild; auto. cbn.
        eapply Permutation_trans; [|exact Hp].
        apply Permutation_app_head. rewrite <- !app_assoc.
        apply Permutation_app_head. cbn. apply Permutation_middle.
    + (* 149-162: the two tests *)
      destruct (elig obj) eqn:He.
      * rewrite (filter_pass _ _ _ _ _ He) in Hwst. inv Hwst.
        left. apply Hbuild; auto.
      * rewrite (filter_skip _ _ _ _ _ He) in Hwst. inv Hwst.
        right. exists obj.
        assert (Hr : rem obj = false) by (unfold removed; rewrite He; reflexivity).
        destruct (not_removed_one _ Hr) as [R1 R2].
        apply Hbuild; simp_shared; rewrite ?H1, ?add_wrap, ?R1, ?R2; auto.
        -- apply finish_perm, Hp.
        -- f_equal; lia.
    + (* 165-166: the removal call, or line 175 in dry-run mode *)
      cbn in Hwst, H4. destruct (DryRun (Cleanup cfg)) eqn:Hd; cbn in Hwst.
      * inv Hwst. right. exists obj.
        assert (Hr : rem obj = false)
          by (unfold removed; rewrite Hd, andb_false_r; reflexivity).
        destruct (not_removed_one _ Hr) as [R1 R2].
        apply Hbuild; simp_shared; rewrite ?H1, ?add_wrap, ?R1, ?R2; auto.
        -- apply finish_perm, Hp.
        -- f_equal; lia.
      * destruct (RemoveObject minioClient bucket (Key obj)) as [err|] eqn:Hr;
          inv Hwst; left; apply Hbuild; auto; cbn; auto.
        unfold removed. rewrite H4, Hd, Hr. reflexivity.
    + (* 168 *)
      cbn in Hwst, H4. inv Hwst. destruct H4 as (He & Hd & Hr).
      assert (Hn : rem obj = false)
        by (unfold removed; rewrite Hr, andb_false_r; reflexivity).
      destruct (not_removed_one _ Hn) as [R1 R2].
      left. apply Hbuild; simp_shared; rewrite ?R1, ?R2; auto.
    + (* 170 *)
      cbn in Hwst. inv Hwst. left. apply Hbuild; auto.
    + (* 171 *)
      cbn in Hwst. inv Hwst. left.
      apply Hbuild; simp_shared; rewrite ?H2, ?add_wrap; auto.
      f_equal; lia.
    + (* 172 *)
      cbn in Hwst, H4. inv Hwst.
      destruct (removed_one_size _ H4) as [R1 R2].
      destruct (removed_inv _ H4) as (He & Hd & _).
      left. apply Hbuild; simp_shared; rewrite ?H3, ?add_wrap, ?R1, ?R2; auto.
      f_equal; lia.
    + (* 175 *)
      cbn in Hwst. inv Hwst. right. exists obj.
      apply Hbuild; simp_shared; rewrite ?H1, ?add_wrap; auto.
      * apply finish_perm, Hp.
      * f_equal; lia.
      * rewrite H2. f_equal; lia.
      * rewrite H3. f_equal; lia.
Qed.

Lemma accounted_init : acct [] pinit.
Proof.
  unfold accounted, init. cbn -[Z.add Int64.wrap].
  generalize (Z.to_nat (Workers (Cleanup cfg))). intros n.
  assert (E1 : flat_map inflight (repeat WRecv n) = [])
    by (induction n; cbn; auto).
  assert (E2 : sumZ cred (repeat WRecv n) = 0) by (induction n; cbn; auto).
  assert (E3 : sumZ credsz (repeat WRecv n) = 0) by (induction n; cbn; auto).
  rewrite E1, E2, E3. cbn. repeat apply conj; auto.
  induction n; cbn; constructor; cbn; auto.
Qed.

Lemma accounted_exec (sched : list Thread) (st st' : State) :
  (exists fin, acct fin st) -> pexec sched st = Some st' ->
  exists fin, acct fin st'.
Proof.
  intros Hf H. revert Hf H.
  apply (exec_invariant cfg thresholdTime minioClient
           (fun s => exists fin, acct fin s)).
  intros t s s' [fin Hs] Hstep.
  destruct (accounted_step _ _ _ _ Hs Hstep) as [Ha | [obj Ha]]; eauto.
Qed.

Lemma accounted_run (sched : list Thread) (st : State) :
  prun sched = Some st -> exists fin, acct fin st.
Proof.
  intros H. apply run_exec in H as [_ H].
  eapply accounted_exec; [|exact H]. exists []. apply accounted_init.
Qed.

(** *** The enumerator's trace *)

Lemma quiet_refl (sh : Shared) : quiet sh sh.
Proof. unfold quiet. auto 10. Qed.

Lemma worker_step_quiet (w w' : Worker) (sh sh' : Shared) :
  wstep w sh = Some (w', sh') -> quiet sh sh'.
Proof.
  intros H. destruct (worker_step_frame _ _ _ _ H)
    as (F1 & F2 & F3 & F4 & F5 & F6 & F7 & F8 & F9).
  unfold quiet. auto 10.
Qed.

Lemma reporter_step_quiet (r r' : Reporter) (sh sh' : Shared) :
  reporter_step r sh = Some (r', sh') -> quiet sh sh'.
Proof.
  intros H. reporter_cases H; try apply quiet_refl;
    destruct (t >? 0); try apply quiet_refl;
    unfold quiet; cbn;
    rewrite ?filter_snoc, ?sent_snoc, ?list_errors_snoc; cbn;
    rewrite ?app_nil_r; auto 10.
Qed.

Lemma main_step_quiet (m m' : Main) (sh sh' : Shared) :
  main_step m sh = Some (m', sh') -> quiet sh sh'.
Proof.
  intros H. destruct m; cbn in H; try discriminate; inv H;
    try apply quiet_refl.
  unfold quiet; cbn.
  rewrite ?filter_snoc, ?sent_snoc, ?list_errors_snoc; cbn.
  rewrite ?app_nil_r; auto 10.
Qed.

Lemma enum_trace_quiet (sh sh' : Shared) (s1 s2 : list ObjectInfo)
      (cs ds : list Event) (b : bool) :
  quiet sh sh' -> enum_trace sh s1 s2 cs ds b -> enum_trace sh' s1 s2 cs ds b.
Proof.
  unfold quiet, enum_trace.
  intros (Q1 & Q2 & Q3 & Q4 & Q5 & Q6) (E1 & E2 & E3 & E4 & E5).
  rewrite Q2, Q3, Q4, Q5, Q6. auto.
Qed.

Lemma enumerated_quiet (st st' : State) :
  enumerator st' = enumerator st ->
  quiet (shared st) (shared st') ->
  enumerated minioClient st -> enumerated minioClient st'.
Proof.
  unfold enumerated. intros -> Q.
  pose proof Q as (Qt & _). rewrite Qt.
  destruct (enumerator st).
  - intros (seen & E1 & E2 & E3). exists seen. eauto using enum_trace_quiet.
  - intros (E1 & E2 & E3). eauto using enum_trace_quiet.
  - intros (E1 & seen & E2 & E3). split; auto. exists seen.
    eauto using enum_trace_quiet.
  - intros (E1 & E2). eauto using enum_trace_quiet.
  - intros (E1 & E2). eauto using enum_trace_quiet.
Qed.

Lemma enumerated_step (t : Thread) (st st' : State) :
  enumerated minioClient st -> pstep t st = Some st' ->
  enumerated minioClient st'.
Proof.
  intros He H. step_cases H.
  - eapply enumerated_quiet; [| |exact He]; [reflexivity|].
    eapply main_step_quiet; eauto.
  - unfold enumerated in *. rewrite Hen in He. destruct He as (E1 & E2).
    cbn. split; [exact E1|]. unfold enum_trace in *. cbn.
    rewrite list_errors_snoc, sent_snoc, !filter_snoc. cbn.
    rewrite !app_nil_r. destruct E2 as (T1 & T2 & T3 & T4 & T5).
    rewrite T4. auto.
  - unfold enumerated in *. enum_cases Hes; cbn.
    + destruct He as (seen & E1 & E2 & E3). rewrite app_nil_r in E1. subst seen.
      split; [exact E2|]. split; [reflexivity|]. exact E3.
    + destruct He as (seen & E1 & E2 & T1 & T2 & T3 & T4 & T5).
      exists (seen ++ [obj]). rewrite <- app_assoc. split; [exact E1|].
      rewrite count_valid_snoc. unfold valid at 1. rewrite Herr.
      split; [exact E2|]. trace_fin.
    + destruct He as (seen & E1 & E2 & T1 & T2 & T3 & T4 & T5).
      exists (seen ++ [obj]). rewrite <- app_assoc. split; [exact E1|].
      rewrite count_valid_snoc. unfold valid at 1. rewrite Herr.
      split; [congruence|]. trace_fin.
    + destruct He as (E1 & E2 & T1 & T2 & T3 & T4 & T5).
      split; [congruence|]. exists []. split; [reflexivity|]. trace_fin.
    + destruct He as (E1 & seen & E2 & T1 & T2 & T3 & T4 & T5).
      rewrite app_nil_r in E2. subst seen.
      split; [exact E1|]. trace_fin.
    + destruct He as (E1 & seen & E2 & T1 & T2 & T3 & T4 & T5).
      split; [exact E1|]. exists (seen ++ [obj]). rewrite <- app_assoc.
      split; [exact E2|]. trace_fin.
    + destruct He as (E1 & seen & E2 & T1 & T2 & T3 & T4 & T5).
      split; [exact E1|]. exists (seen ++ [obj]). rewrite <- app_assoc.
      split; [exact E2|]. trace_fin.
  - eapply enumerated_quiet; [| |exact He]; [reflexivity|].
    eapply reporter_step_quiet; eauto.
  - eapply enumerated_quiet; [| |exact He]; [reflexivity|].
    eapply worker_step_quiet; eauto.
Qed.

Lemma enumerated_init : enumerated minioClient pinit.
Proof.
  unfold enumerated, init, startup_log, enum_trace. cbn. exists [].
  destruct (DryRun (Cleanup cfg)); cbn; auto 10.
Qed.

Lemma enumerated_run (sched : list Thread) (st : State) :
  prun sched = Some st -> enumerated minioClient st.
Proof.
  intros H. apply run_exec in H as [_ H].
  eapply exec_invariant; [apply enumerated_step | | exact H].
  apply enumerated_init.
Qed.

(** *** Leaving the pool *)

Lemma worker_step_chan (w w' : Worker) (sh sh' : Shared) :
  wstep w sh = Some (w', sh') ->
  fileChan sh = [] -> fileChan sh' = [].
Proof.
  intros H Hb. worker_cases H; cbn in H.
  - rewrite Hb in H. destruct (fileChanClosed sh); inv H. exact Hb.
  - destruct (Size obj <? MinSize (Cleanup cfg));
      [|destruct (After (LastModified obj) thresholdTime)]; inv H; exact Hb.
  - destruct (DryRun (Cleanup cfg)); cbn in H;
      [|destruct (RemoveObject minioClient bucket (Key obj))]; inv H; exact Hb.
  - inv H; exact Hb.
  - inv H; exact Hb.
  - inv H; exact Hb.
  - inv H; exact Hb.
  - inv H; exact Hb.
Qed.

Lemma worker_exit_inv (w : Worker) (sh sh' : Shared) :
  wstep w sh = Some (WExit, sh') ->
  sh' = sh /\ fileChan sh = [] /\ fileChanClosed sh = true.
Proof.
  intros H. worker_cases H; cbn in H.
  - destruct (fileChan sh); [|discriminate].
    destruct (fileChanClosed sh); inv H. auto.
  - destruct (Size obj <? MinSize (Cleanup cfg));
      [|destruct (After (LastModified obj) thresholdTime)]; discriminate.
  - destruct (DryRun (Cleanup cfg)); cbn in H;
      [|destruct (RemoveObject minioClient bucket (Key obj))]; discriminate.
  - discriminate.
  - discriminate.
  - discriminate.
  - discriminate.
  - discriminate.
Qed.

Lemma closing_step (t : Thread) (st st' : State) :
  enumerated minioClient st -> closing st -> pstep t st = Some st' ->
  closing st'.
Proof.
  unfold closing. intros He Hc H. step_cases H; cbn.
  - destruct (main st); cbn in Hms; try discriminate; inv Hms; exact Hc.
  - exact Hc.
  - unfold enumerated in He. enum_cases Hes; cbn; try exact Hc.
    + intros Hin. destruct (Hc Hin) as [Hb _]. auto.
    + intros Hin. destruct (Hc Hin) as [_ Hcl].
      destruct He as (_ & seen & _ & _ & _ & _ & _ & T5). congruence.
  - reporter_cases Hrs; cbn; try exact Hc.
    all: destruct (t >? 0); exact Hc.
  - rewrite Hws in Hc. intros Hin.
    apply in_app_or in Hin. cbn in Hin.
    destruct Hin as [Hin | [Hin | Hin]].
    + destruct Hc as [Hb Hcl]; [apply in_or_app; auto|].
      destruct (worker_step_frame _ _ _ _ Hwst) as (_ & _ & F & _).
      split; [eapply worker_step_chan; eauto | congruence].
    + subst w'. destruct (worker_exit_inv _ _ _ Hwst) as (-> & Hb & Hcl). auto.
    + destruct Hc as [Hb Hcl]; [apply in_or_app; cbn; auto|].
      destruct (worker_step_frame _ _ _ _ Hwst) as (_ & _ & F & _).
      split; [eapply worker_step_chan; eauto | congruence].
Qed.

Lemma closing_run (sched : list Thread) (st : State) :
  prun sched = Some st -> closing st.
Proof.
  intros H. apply run_exec in H as [_ H].
  assert (G : enumerated minioClient st /\ closing st); [|apply G].
  eapply (exec_invariant cfg thresholdTime minioClient
            (fun s => enumerated minioClient s /\ closing s));
    [| |exact H].
  - intros t s s' [He Hc] Hs. split.
    + eapply enumerated_step; eauto.
    + eapply closing_step; eauto.
  - split.
    + apply enumerated_init.
    + unfold closing, init. cbn. intros Hin. apply repeat_spec in Hin.
      discriminate.
Qed.

(** *** Dry-run mode *)

Lemma dry_step (t : Thread) (st st' : State) :
  DryRun (Cleanup cfg) = true ->
  dry st -> pstep t st = Some st' -> dry st'.
Proof.
  unfold dry. intros Hd (D1 & D2 & D3 & D4) H. step_cases H; cbn.
  - destruct (main st); cbn in Hms; try discriminate; inv Hms; cbn;
      rewrite ?filter_snoc, ?D3; auto.
  - rewrite filter_snoc, D3. auto.
  - enum_cases Hes; cbn; rewrite ?filter_snoc, ?D3; auto.
  - reporter_cases Hrs; cbn; try destruct (t >? 0); cbn;
      rewrite ?filter_snoc, ?D3; auto.
  - rewrite Hws in D4. apply Forall_app in D4 as [D4 D5]. inv D5.
    rewrite Forall_app.
    worker_cases Hwst; cbn in Hwst;
      try match goal with H : dry_worker _ |- _ => now destruct H end.
    + destruct (fileChan (shared st)); [destruct (fileChanClosed (shared st))|];
        inv Hwst; cbn; repeat apply conj; auto; constructor; cbn; auto.
    + destruct (Size obj <? MinSize (Cleanup cfg));
        [|destruct (After (LastModified obj) thresholdTime)]; inv Hwst; cbn;
        rewrite ?filter_snoc, ?D3; repeat apply conj; auto;
        constructor; cbn; auto.
    + rewrite Hd in Hwst. cbn in Hwst. inv Hwst. cbn.
      repeat apply conj; auto; constructor; cbn; auto.
Qed.

Lemma dry_run_inv (sched : list Thread) (st : State) :
  DryRun (Cleanup cfg) = true -> prun sched = Some st -> dry st.
Proof.
  intros Hd H. apply run_exec in H as [_ H].
  eapply exec_invariant; [intros; eapply dry_step; eauto | | exact H].
  unfold dry, init, startup_log. cbn. rewrite Hd. cbn.
  repeat apply conj; auto.
  generalize (Z.to_nat (Workers (Cleanup cfg))).
  induction n; cbn; constructor; cbn; auto.
Qed.

(** *** The counters once the pool is done *)

Lemma pool_done_inflight (ws : list Worker) :
  Forall (fun w => w = WExit) ws ->
  flat_map inflight ws = [] /\ sumZ cred ws = 0 /\ sumZ credsz ws = 0.
Proof.
  induction 1 as [|w ws Hw _ (I1 & I2 & I3)]; [auto|].
  subst w. cbn. rewrite I1, I2, I3. auto.
Qed.

Lemma pool_done_counters (sched : list Thread) (st : State) :
  prun sched = Some st -> pool_done st ->
  processedFiles (shared st) = count_valid listing2 /\
  deletedFiles (shared st) = Int64.wrap (sumZ rem1 (filter valid listing2)) /\
  deletedSize (shared st) = Int64.wrap (sumZ remsz (filter valid listing2)).
Proof.
  intros H [Hne Hall].
  destruct (accounted_run _ _ H) as (fin & Hp & _ & H1 & H2 & H3).
  pose proof (closing_run _ _ H) as Hc.
  pose proof (enumerated_run _ _ H) as He.
  destruct (pool_done_inflight _ Hall) as (I1 & I2 & I3).
  assert (Hin : In WExit (workers st)).
  { destruct (workers st) as [|w ws]; [congruence|]. inv Hall. now left. }
  destruct (Hc Hin) as [Hb Hcl].
  assert (Htodo : todo minioClient (enumerator st) = []).
  { unfold enumerated, enum_trace in He.
    destruct (enumerator st); try reflexivity; exfalso.
    - destruct He as (? & _ & _ & _ & _ & _ & _ & T). congruence.
    - destruct He as (_ & _ & _ & _ & _ & _ & T). congruence.
    - destruct He as (_ & ? & _ & _ & _ & _ & _ & T). congruence. }
  rewrite I1, Hb, Htodo in Hp. cbn in Hp. rewrite app_nil_r in Hp.
  rewrite I2 in H2. rewrite I3 in H3. rewrite Z.add_0_r in H2, H3.
  rewrite H1, H2, H3.
  rewrite (sumZ_perm _ _ _ Hp), (sumZ_perm rem1 _ _ Hp),
    (sumZ_perm remsz _ _ Hp).
  unfold count_valid. rewrite sumZ_one_length. auto.
Qed.

(** *** The two deletion counters *)

Lemma deleted_step_shape (t : Thread) (st st' : State) :
  pstep t st = Some st' ->
  (deletedFiles (shared st') = deletedFiles (shared st) /\
   deletedSize (shared st') = deletedSize (shared st)) \/
  (exists l1 obj l2,
      workers st = l1 ++ WAddDeleted obj :: l2 /\
      deletedFiles (shared st') = Int64.add (deletedFiles (shared st)) 1 /\
      deletedSize (shared st') = deletedSize (shared st)) \/
  (exists l1 obj l2,
      workers st = l1 ++ WAddSize obj :: l2 /\
      deletedFiles (shared st') = deletedFiles (shared st) /\
      deletedSize (shared st') =
        Int64.add (deletedSize (shared st)) (Size obj)).
Proof.
  intros H. step_cases H; cbn.
  - left. destruct (main st); cbn in Hms; try discriminate; inv Hms; auto.
  - left. auto.
  - left. enum_cases Hes; auto.
  - left. reporter_cases Hrs; try destruct (t >? 0); auto.
  - worker_cases Hwst; cbn in Hwst.
    + left. destruct (fileChan (shared st)); [destruct (fileChanClosed (shared st))|];
        inv Hwst; auto.
    + left. destruct (Size obj <? MinSize (Cleanup cfg));
        [|destruct (After (LastModified obj) thresholdTime)]; inv Hwst; auto.
    + left. destruct (DryRun (Cleanup cfg)); cbn in Hwst;
        [|destruct (RemoveObject minioClient bucket (Key obj))]; inv Hwst; auto.
    + left. inv Hwst. auto.
    + left. inv Hwst. auto.
    + right. left. inv Hwst. exists l1, obj, l2. auto.
    + right. right. inv Hwst. exists l1, obj, l2. auto.
    + left. inv Hwst. auto.
Qed.

Lemma sumZ_filter {A} (f : A -> Z) (p : A -> bool) (l : list A) :
  sumZ f (filter p l) = sumZ (fun x => if p x then f x else 0) l.
Proof.
  induction l as [|x l IH]; [reflexivity|]. cbn.
  destruct (p x); cbn; rewrite IH; reflexivity.
Qed.

Lemma sumZ_ext {A} (f g : A -> Z) (l : list A) :
  (forall x, f x = g x) -> sumZ f l = sumZ g l.
Proof. intros E. induction l as [|x l IH]; cbn; [|rewrite E, IH]; reflexivity. Qed.

(** The objects counted as deleted: [deletedSize] is the sum of their
    sizes, and [deletedFiles] their number plus the workers that stand
    between the two additions. *)
Lemma deleted_counted (sched : list Thread) (st : State) :
  prun sched = Some st ->
  exists del,
    (forall obj, In obj del ->
                 rem obj = true /\ In obj listing2 /\ Err obj = None) /\
    deletedSize (shared st) = Int64.wrap (sumZ Size del) /\
    deletedFiles (shared st) =
      Int64.wrap (Z.of_nat (List.length del)
                  + sumZ at_add_size (workers st)).
Proof.
  intros H. destruct (accounted_run _ _ H) as (fin & Hp & _ & _ & H2 & H3).
  exists (filter rem fin
            ++ flat_map (counted_by cfg thresholdTime minioClient) (workers st)).
  repeat apply conj.
  - intros obj Hin.
    assert (G : rem obj = true /\ In obj (filter valid listing2)).
    { apply in_app_or in Hin as [Hin | Hin].
      - apply filter_In in Hin as [Hin Hr]. split; [exact Hr|].
        eapply Permutation_in; [exact Hp|]. apply in_or_app. auto.
      - apply in_flat_map in Hin as (w & Hw & Ho).
        assert (rem obj = true /\ In obj (inflight w)) as [Hr Hi].
        { destruct w; cbn in Ho; try contradiction.
          destruct (rem obj0) eqn:E; cbn in Ho; [|contradiction].
          destruct Ho as [<- | []]. cbn. auto. }
        split; [exact Hr|].
        eapply Permutation_in; [exact Hp|]. apply in_or_app. right.
        apply in_or_app. left. apply in_flat_map. eauto. }
    destruct G as [Hr Hv]. apply filter_In in Hv as [Hl Hv].
    unfold valid in Hv. destruct (Err obj); [discriminate | auto].
  - rewrite H3. f_equal. rewrite sumZ_app, sumZ_filter, sumZ_flat_map.
    f_equal. apply sumZ_ext. intros w. destruct w; cbn; try reflexivity.
    unfold removed_size. destruct (rem obj); cbn; lia.
  - rewrite H2. f_equal.
    rewrite <- sumZ_one_length, sumZ_app, sumZ_filter, sumZ_flat_map.
    rewrite <- Z.add_assoc, <- sumZ_plus. f_equal.
    apply sumZ_ext. intros w. destruct w; cbn; try reflexivity.
    unfold removed_one. destruct (rem obj); cbn; lia.
Qed.

Section Fit.

Hypothesis Hfit : sizes_fit minioClient.

Lemma fit_size (obj : ObjectInfo) :
  In obj (filter valid listing2) -> 0 <= Size obj.
Proof.
  intros Hin. apply filter_In in Hin as [Hin Hv].
  destruct Hfit as (Hs & _). apply Hs; [exact Hin|].
  unfold valid in Hv. destruct (Err obj); [discriminate | reflexivity].
Qed.

(** Under [sizes_fit] the tallies behind the two counters are in
    range, and stay so with what the workers are about to add. *)
Lemma tallies_in_range (fin : list ObjectInfo) (st : State) :
  acct fin st ->
  0 <= sumZ rem1 fin + sumZ cred (workers st) /\
  0 <= sumZ remsz fin + sumZ credsz (workers st) /\
  sumZ rem1 fin + sumZ cred (workers st) + sumZ pending_one (workers st)
    <= Int64.max /\
  sumZ remsz fin + sumZ credsz (workers st) + sumZ pending_size (workers st)
    <= Int64.max /\
  (forall w, In w (workers st) -> 0 <= pending_size w).
Proof.
  intros (Hp & _).
  set (held := flat_map inflight (workers st)) in *.
  set (later := fileChan (shared st)
                  ++ filter valid (todo minioClient (enumerator st))) in *.
  assert (Hall : forall obj, In obj (fin ++ held ++ later) -> 0 <= Size obj).
  { intros obj Hin. apply fit_size. eapply Permutation_in; [exact Hp|].
    exact Hin. }
  assert (Hfin : forall obj, In obj fin -> 0 <= Size obj)
    by (intros; apply Hall, in_or_app; auto).
  assert (Hheld : forall obj, In obj held -> 0 <= Size obj)
    by (intros; apply Hall, in_or_app; right; apply in_or_app; auto).
  assert (Hlater : forall obj, In obj later -> 0 <= Size obj)
    by (intros; apply Hall, in_or_app; right; apply in_or_app; auto).
  assert (Hw : forall w obj, In w (workers st) -> In obj (inflight w) ->
                             0 <= Size obj).
  { intros w obj Hin Ho. apply Hheld. apply in_flat_map. eauto. }
  destruct Hfit as (_ & Hsum & Hlen).
  rewrite <- (sumZ_perm Size _ _ Hp) in Hsum.
  rewrite <- sumZ_one_length, <- (sumZ_perm (fun _ => 1) _ _ Hp) in Hlen.
  rewrite !sumZ_app in Hsum, Hlen.
  unfold held in Hsum, Hlen. rewrite !sumZ_flat_map in Hsum, Hlen.
  pose proof (sumZ_nonneg Size later Hlater) as L1.
  pose proof (sumZ_nonneg (fun _ => 1) later (fun _ _ => Z.le_0_1)) as L2.
  assert (R1 : forall obj, 0 <= rem1 obj <= 1)
    by (intros; unfold removed_one; destruct (rem obj); lia).
  assert (R2 : forall obj, 0 <= Size obj -> 0 <= remsz obj <= Size obj)
    by (intros; unfold removed_size; destruct (rem obj); lia).
  pose proof (sumZ_nonneg rem1 fin (fun o _ => proj1 (R1 o))) as F1.
  pose proof (sumZ_le rem1 (fun _ => 1) fin (fun o _ => proj2 (R1 o))) as F2.
  pose proof (sumZ_nonneg remsz fin (fun o H => proj1 (R2 o (Hfin o H)))) as F3.
  pose proof (sumZ_le remsz Size fin (fun o H => proj2 (R2 o (Hfin o H)))) as F4.
  assert (W1 : forall w, In w (workers st) ->
                 0 <= cred w /\
                 cred w + pending_one w <= sumZ (fun _ => 1) (inflight w)).
  { intros w _. destruct w; cbn; try lia; specialize (R1 obj); lia. }
  assert (W2 : forall w, In w (workers st) ->
                 0 <= credsz w /\ 0 <= pending_size w /\
                 credsz w + pending_size w <= sumZ Size (inflight w)).
  { intros w Hin. pose proof (Hw w) as Hw'.
    destruct w; cbn; try lia;
      specialize (Hw' obj Hin (or_introl eq_refl));
      try specialize (R2 obj Hw'); lia. }
  pose proof (sumZ_nonneg cred (workers st) (fun w H => proj1 (W1 w H))) as C1.
  pose proof (sumZ_nonneg credsz (workers st) (fun w H => proj1 (W2 w H))) as C2.
  pose proof (sumZ_le (fun w => cred w + pending_one w)
                (fun w => sumZ (fun _ => 1) (inflight w)) (workers st)
                (fun w H => proj2 (W1 w H))) as C3.
  pose proof (sumZ_le (fun w => credsz w + pending_size w)
                (fun w => sumZ Size (inflight w)) (workers st)
                (fun w H => proj2 (proj2 (W2 w H)))) as C4.
  rewrite sumZ_plus in C3, C4.
  repeat apply conj; try lia.
  intros w Hin. apply W2, Hin.
Qed.

Lemma deleted_monotone (sched : list Thread) (st st' : State) (t : Thread) :
  prun sched = Some st -> pstep t st = Some st' ->
  deletedFiles (shared st) <= deletedFiles (shared st') /\
  deletedSize (shared st) <= deletedSize (shared st').
Proof.
  intros Hrun Hstep.
  destruct (accounted_run _ _ Hrun) as (fin & Hacc).
  destruct (tallies_in_range _ _ Hacc) as (T1 & T2 & T3 & T4 & T5).
  destruct Hacc as (_ & _ & _ & H2 & H3).
  destruct (deleted_step_shape _ _ _ Hstep)
    as [[E1 E2] | [(l1 & obj & l2 & Hws & E1 & E2)
                  | (l1 & obj & l2 & Hws & E1 & E2)]];
    rewrite E1, E2; try lia.
  - split; [|lia]. rewrite H2, add_wrap.
    rewrite Hws in T1, T3 |- *.
    rewrite ?sumZ_app in T1. rewrite ?sumZ_app in T3. rewrite ?sumZ_app.
    cbn [sumZ pending_one credit_deleted] in *.
    assert (0 <= sumZ pending_one l1)
      by (apply sumZ_nonneg; intros []; cbn; lia).
    assert (0 <= sumZ pending_one l2)
      by (apply sumZ_nonneg; intros []; cbn; lia).
    unfold Int64.max in *.
    rewrite !wrap_small; unfold Int64.min, Int64.max; lia.
  - split; [lia|]. rewrite H3, add_wrap.
    assert (0 <= sumZ pending_size l1).
    { apply sumZ_nonneg. intros w Hin. apply T5. rewrite Hws.
      apply in_or_app. auto. }
    assert (0 <= sumZ pending_size l2).
    { apply sumZ_nonneg. intros w Hin. apply T5. rewrite Hws.
      apply in_or_app. cbn. auto. }
    assert (0 <= Size obj).
    { apply (T5 (WAddSize obj)). rewrite Hws. apply in_or_app. cbn. auto. }
    rewrite Hws in T2, T4 |- *.
    rewrite ?sumZ_app in T2. rewrite ?sumZ_app in T4. rewrite ?sumZ_app.
    cbn [sumZ pending_size credit_size] in *.
    unfold Int64.max in *.
    rewrite !wrap_small; unfold Int64.min, Int64.max; lia.
Qed.

End Fit.

(** *** A schedule that runs to the end *)

Lemma not_exited (m : Main) : m <> MExit -> exited m = false.
Proof. destruct m; cbn; congruence. Qed.

Lemma worker_moves (w : Worker) (sh : Shared) :
  w <> WRecv -> w <> WExit ->
  exists w' sh',
    wstep w sh = Some (w', sh') /\
    (steps_left w' < steps_left w)%nat /\ w' <> WExit /\
    fileChan sh' = fileChan sh /\
    fileChanCap sh' = fileChanCap sh /\
    fileChanClosed sh' = fileChanClosed sh.
Proof.
  intros H1 H2. destruct w; try congruence; cbn.
  - destruct (Size obj <? MinSize (Cleanup cfg));
      [|destruct (After (LastModified obj) thresholdTime)];
      eexists; eexists; (split; [reflexivity|]); cbn;
      repeat apply conj; auto; try discriminate; lia.
  - destruct (DryRun (Cleanup cfg)); cbn;
      [|destruct (RemoveObject minioClient bucket (Key obj))];
      eexists; eexists; (split; [reflexivity|]); cbn;
      repeat apply conj; auto; try discriminate; lia.
  - eexists; eexists; (split; [reflexivity|]); cbn;
      repeat apply conj; auto; try discriminate; lia.
  - eexists; eexists; (split; [reflexivity|]); cbn;
      repeat apply conj; auto; try discriminate; lia.
  - eexists; eexists; (split; [reflexivity|]); cbn;
      repeat apply conj; auto; try discriminate; lia.
  - eexists; eexists; (split; [reflexivity|]); cbn;
      repeat apply conj; auto; try discriminate; lia.
  - eexists; eexists; (split; [reflexivity|]); cbn;
      repeat apply conj; auto; try discriminate; lia.
Qed.

(** The first worker, scheduled alone, finishes its loop body. *)
Lemma first_worker_finishes (n : nat) (st : State) (w : Worker)
      (ws : list Worker) :
  (steps_left w <= n)%nat -> w <> WExit ->
  workers st = w :: ws -> main st <> MExit ->
  exists sched st',
    pexec sched st = Some st' /\
    workers st' = WRecv :: ws /\
    enumerator st' = enumerator st /\ main st' = main st /\
    fileChan (shared st') = fileChan (shared st) /\
    fileChanCap (shared st') = fileChanCap (shared st) /\
    fileChanClosed (shared st') = fileChanClosed (shared st).
Proof.
  revert st w. induction n as [|n IH]; intros st w Hn Hx Hws Hm.
  - exists [], st. cbn. destruct w; cbn in Hn; try lia; try congruence.
    repeat apply conj; auto.
  - destruct w eqn:Ew;
      try (exists [], st; cbn; repeat apply conj; auto; fail);
      try congruence.
    all: rewrite <- Ew in *;
      assert (Hr : w <> WRecv) by (rewrite Ew; discriminate);
      destruct (worker_moves w (shared st) Hr Hx)
        as (w' & sh' & Hs & Hlt & Hx' & F1 & F2 & F3);
      set (st1 := {| shared := sh'; workers := w' :: ws;
                     enumerator := enumerator st; reporter := reporter st;
                     main := main st |});
      assert (Hstep : pstep (TWorker 0) st = Some st1)
        by (unfold step; rewrite (not_exited _ Hm); cbn;
            rewrite Hws; cbn; rewrite Hs; reflexivity);
      destruct (IH st1 w') as (sched & st' & He & G1 & G2 & G3 & G4 & G5 & G6);
      try assumption; try reflexivity; try lia;
      exists (TWorker 0 :: sched), st'; cbn [exec]; rewrite Hstep;
      cbn in G2, G3, G4, G5, G6;
      repeat apply conj; auto; congruence.
Qed.

(** The first pass, scheduled alone, runs through. *)
Lemma first_pass_finishes (rest : list ObjectInfo) (count : Z) (st : State) :
  enumerator st = EPass1 rest count -> main st <> MExit ->
  exists sched st',
    pexec sched st = Some st' /\
    enumerator st' = EPass2 listing2 /\
    workers st' = workers st /\ main st' = main st /\
    fileChan (shared st') = fileChan (shared st) /\
    fileChanCap (shared st') = fileChanCap (shared st) /\
    fileChanClosed (shared st') = fileChanClosed (shared st).
Proof.
  revert count st. induction rest as [|obj rest IH]; intros count st He Hm.
  - exists [TEnumerator; TEnumerator]. eexists. split.
    + cbn. unfold step. rewrite (not_exited _ Hm), He. cbn.
      rewrite (not_exited _ Hm). reflexivity.
    + cbn. repeat apply conj; reflexivity.
  - assert (Hs : exists st1, pstep TEnumerator st = Some st1 /\
                   (exists c, enumerator st1 = EPass1 rest c) /\
                   workers st1 = workers st /\ main st1 = main st /\
                   fileChan (shared st1) = fileChan (shared st) /\
                   fileChanCap (shared st1) = fileChanCap (shared st) /\
                   fileChanClosed (shared st1) = fileChanClosed (shared st)).
    { unfold step. rewrite (not_exited _ Hm), He. cbn.
      destruct (Err obj); eexists; (split; [reflexivity|]);
        cbn; repeat apply conj; eauto. }
    destruct Hs as (st1 & Hs & [c Hc] & F1 & F2 & F3 & F4 & F5).
    destruct (IH c st1 Hc) as (sched & st' & E & G1 & G2 & G3 & G4 & G5 & G6);
      [congruence|].
    exists (TEnumerator :: sched), st'. cbn [exec]. rewrite Hs.
    repeat apply conj; auto; congruence.
Qed.

(** The second pass: the enumerator sends one object, the first worker
    handles it, and so on to the end of the listing. *)
Lemma second_pass_finishes (rest : list ObjectInfo) (st : State) :
  ready rest st -> exists sched st', pexec sched st = Some st' /\ ready [] st'.
Proof.
  revert st. induction rest as [|obj rest IH]; intros st Hr.
  - exists [], st. auto.
  - destruct Hr as (He & Hm & Hb & Hc & Hcap & ws & Hws).
    assert (Hlive : main st <> MExit) by (rewrite Hm; discriminate).
    destruct (Err obj) as [err|] eqn:Herr.
    + set (st1 := {| shared := emit (LogListError err) (shared st);
                     workers := workers st; enumerator := EPass2 rest;
                     reporter := reporter st; main := main st |}).
      assert (Hs : pstep TEnumerator st = Some st1)
        by (unfold step; rewrite (not_exited _ Hlive), He; cbn;
            rewrite Herr; reflexivity).
      destruct (IH st1) as (sched & st' & E & G).
      { unfold ready, st1; cbn. repeat apply conj; eauto. }
      exists (TEnumerator :: sched), st'. cbn [exec]. rewrite Hs. auto.
    + set (sh1 := emit (SendFile obj)
                    (set_chan (fileChan (shared st) ++ [obj])
                       (fileChanClosed (shared st)) (shared st))).
      set (st1 := {| shared := sh1; workers := workers st;
                     enumerator := EPass2 rest;
                     reporter := reporter st; main := main st |}).
      assert (Hs1 : pstep TEnumerator st = Some st1).
      { unfold step; rewrite (not_exited _ Hlive), He; cbn.
        rewrite Herr, Hb.
        destruct (fileChanCap (shared st)) eqn:Ecap; [lia|].
        unfold st1, sh1. rewrite Hb. reflexivity. }
      set (st2 := {| shared := set_chan [] (fileChanClosed sh1) sh1;
                     workers := WFilter obj :: ws;
                     enumerator := EPass2 rest;
                     reporter := reporter st; main := main st |}).
      assert (Hs2 : pstep (TWorker 0) st1 = Some st2).
      { unfold step, st1. cbn. rewrite (not_exited _ Hlive), Hws. cbn.
        rewrite Hb. reflexivity. }
      destruct (first_worker_finishes 6 st2 (WFilter obj) ws
                  (le_n 6) ltac:(discriminate) eq_refl Hlive)
        as (sched3 & st3 & E3 & G1 & G2 & G3 & G4 & G5 & G6).
      cbn in G2, G3, G4, G5, G6.
      destruct (IH st3) as (sched & st' & E & G).
      { unfold ready. rewrite G1, G2, G3, G4, G5, G6.
        repeat apply conj; eauto. }
      exists (TEnumerator :: TWorker 0 :: sched3 ++ sched), st'.
      cbn [exec]. rewrite Hs1, Hs2, exec_app, E3. auto.
Qed.

(** After the second pass: close, signal, and the summary. *)
Lemma summary_follows (st : State) :
  ready [] st ->
  exists st',
    pexec [TEnumerator; TEnumerator; TMain; TMain; TMain; TMain; TMain] st
      = Some st' /\
    main st' = MExit /\ enumerator st' = EExit /\
    exists total processed deleted size,
      In (LogSummary total processed deleted size) (out (shared st')).
Proof.
  intros (He & Hm & Hb & Hc & Hcap & ws & Hws).
  eexists. split.
  - cbn. unfold step. rewrite Hm, He. cbn. reflexivity.
  - cbn. repeat apply conj; auto. do 4 eexists.
    apply in_or_app. right. left. reflexivity.
Qed.

(** With at least one worker the process can run to its end. *)
Lemma can_complete :
  1 <= Workers (Cleanup cfg) <= 2 ^ 62 - 1 ->
  exists sched st,
    prun sched = Some st /\ main st = MExit /\ enumerator st = EExit /\
    exists total processed deleted size,
      In (LogSummary total processed deleted size) (out (shared st)).
Proof.
  intros Hw.
  assert (Hcap : Int64.mul (Workers (Cleanup cfg)) 2
                 = Workers (Cleanup cfg) * 2).
  { unfold Int64.mul. apply wrap_small. unfold Int64.min, Int64.max. lia. }
  assert (Hboot : boot cfg thresholdTime minioClient = Some pinit).
  { unfold boot. rewrite Hcap.
    destruct (Workers (Cleanup cfg) * 2 <? 0) eqn:E; [|reflexivity].
    apply Z.ltb_lt in E. lia. }
  destruct (first_pass_finishes listing1 0 pinit)
    as (s1 & st1 & E1 & G1 & G2 & G3 & G4 & G5 & G6);
    [reflexivity | discriminate |].
  cbn in G2, G3, G4, G5, G6.
  destruct (second_pass_finishes listing2 st1) as (s2 & st2 & E2 & R2).
  { unfold ready. rewrite G1, G2, G3, G4, G5, G6, Hcap.
    repeat apply conj; auto.
    - apply Nat2Z.inj_lt. rewrite Z2Nat.id; lia.
    - destruct (Z.to_nat (Workers (Cleanup cfg))) as [|n] eqn:En; [lia|].
      cbn. eauto. }
  destruct (summary_follows st2 R2) as (st3 & E3 & G).
  exists (s1 ++ s2 ++ [TEnumerator; TEnumerator; TMain; TMain; TMain; TMain;
                       TMain]), st3.
  split; [|exact G].
  unfold run. rewrite Hboot, exec_app, E1, exec_app, E2. exact E3.
Qed.

Lemma starved_run (sched : list Thread) (st : State) :
  Z.to_nat (Workers (Cleanup cfg)) = O ->
  Z.to_nat (Int64.mul (Workers (Cleanup cfg)) 2) = O ->
  filter valid listing2 <> [] ->
  prun sched = Some st -> starved minioClient st.
Proof.
  intros Hw Hcap Hv H. apply run_exec in H as [_ H].
  eapply exec_invariant; [apply starved_step | | exact H].
  unfold starved, init, startup_log. cbn. rewrite Hw, Hcap. cbn.
  destruct (DryRun (Cleanup cfg)); cbn; repeat apply conj; auto.
Qed.

(** *** The properties of the run *)


(** C5: in both passes an entry with an error is logged and skipped and
    the pass goes on.  Whenever the enumerator has closed the channel,
    [totalFiles] is the number of error-free entries of the first
    listing, the logged listing errors are those of the first listing
    followed by those of the second, exactly the error-free entries of
    the second listing have been sent on [fileChan], in order, and the
    channel has been closed once; once it has signalled, it has done
    so once; before that nothing has been closed or signalled.  With
    at least one worker the enumerator can get there. *)
Theorem enumerator_counts_and_feeds (sched : list Thread) (st : State) :
  prun sched = Some st ->
  (enumerator st = ESignal \/ enumerator st = EExit ->
   totalFiles (shared st) = count_valid listing1 /\
   list_errors (out (shared st))
     = stream_errors listing1 ++ stream_errors listing2 /\
   sent (out (shared st)) = filter valid listing2 /\
   filter is_close (out (shared st)) = [CloseFileChan] /\
   fileChanClosed (shared st) = true /\
   filter is_done (out (shared st))
     = match enumerator st with EExit => [SendDone] | _ => [] end) /\
  (enumerator st <> ESignal -> enumerator st <> EExit ->
   filter is_close (out (shared st)) = [] /\
   filter is_done (out (shared st)) = [] /\
   fileChanClosed (shared st) = false /\
   exists seen rest,
     listing2 = seen ++ rest /\ sent (out (shared st)) = filter valid seen) /\
  (Z.of_nat (List.length listing1) <= Int64.max ->
   count_valid listing1 = Z.of_nat (List.length (filter valid listing1))) /\
  (1 <= Workers (Cleanup cfg) <= 2 ^ 62 - 1 ->
   exists sched' st',
     prun sched' = Some st' /\ enumerator st' = EExit).
Proof.
  intros H. pose proof (enumerated_run _ _ H) as He.
  unfold enumerated, enum_trace in He. repeat apply conj.
  - intros [E | E]; rewrite E in *; cbn; tauto.
  - intros N1 N2. destruct (enumerator st); try congruence.
    + destruct He as (seen & _ & _ & _ & T2 & T3 & T4 & T5).
      repeat apply conj; auto. exists [], listing2. auto.
    + destruct He as (_ & _ & _ & T2 & T3 & T4 & T5).
      repeat apply conj; auto. exists [], listing2. auto.
    + destruct He as (_ & seen & E & _ & T2 & T3 & T4 & T5).
      repeat apply conj; auto. exists seen, objectCh. auto.
  - intros Hlen. unfold count_valid. apply wrap_small.
    pose proof (filter_length_le valid listing1).
    unfold Int64.min, Int64.max in *. lia.
  - intros Hw. destruct (can_complete Hw) as (s' & st' & E & _ & G & _).
    eauto.
Qed.

(** C8: the two deletion counters move together and only for removed
    objects.  At any moment of a run there is a list of objects, each
    of them valid, listed and removed with success, such that
    [deletedSize] is the sum of their sizes and [deletedFiles] is their
    number plus the workers that stand between lines 171 and 172; the
    loop body adds one and the size of its object when the object is
    removed, and nothing otherwise; no transition changes either
    counter but those two additions; and when the sizes of the bucket
    fit an [int64] no transition makes either counter smaller. *)
Theorem deleted_counters_together (sched : list Thread) (st : State) :
  prun sched = Some st ->
  (exists del,
      (forall obj, In obj del ->
                   rem obj = true /\ In obj listing2 /\ Err obj = None) /\
      deletedSize (shared st) = Int64.wrap (sumZ Size del) /\
      deletedFiles (shared st) =
        Int64.wrap (Z.of_nat (List.length del)
                    + sumZ at_add_size (workers st))) /\
  (forall obj sh,
      let (w', sh') := worker_body cfg thresholdTime minioClient obj sh in
      w' = WRecv /\
      if rem obj
      then deletedFiles sh' = Int64.add (deletedFiles sh) 1 /\
           deletedSize sh' = Int64.add (deletedSize sh) (Size obj)
      else deletedFiles sh' = deletedFiles sh /\
           deletedSize sh' = deletedSize sh) /\
  (forall t st',
      pstep t st = Some st' ->
      (deletedFiles (shared st') = deletedFiles (shared st) /\
       deletedSize (shared st') = deletedSize (shared st)) \/
      (exists l1 obj l2,
          workers st = l1 ++ WAddDeleted obj :: l2 /\
          deletedFiles (shared st') = Int64.add (deletedFiles (shared st)) 1 /\
          deletedSize (shared st') = deletedSize (shared st)) \/
      (exists l1 obj l2,
          workers st = l1 ++ WAddSize obj :: l2 /\
          deletedFiles (shared st') = deletedFiles (shared st) /\
          deletedSize (shared st') =
            Int64.add (deletedSize (shared st)) (Size obj))) /\
  (sizes_fit minioClient ->
   forall t st',
     pstep t st = Some st' ->
     deletedFiles (shared st) <= deletedFiles (shared st') /\
     deletedSize (shared st) <= deletedSize (shared st')).
Proof.
  intros H. repeat apply conj.
  - apply (deleted_counted _ _ H).
  - intros obj sh. rewrite worker_body_cases. unfold removed.
    destruct (elig obj); cbn; [|auto].
    destruct (DryRun (Cleanup cfg)); cbn; [auto|].
    destruct (RemoveObject minioClient bucket (Key obj)); cbn; auto.
  - intros t st' Hs. apply (deleted_step_shape _ _ _ Hs).
  - intros Hfit t st' Hs. apply (deleted_monotone Hfit _ _ _ _ H Hs).
Qed.

(** C10: when the first listing has no valid entry, [totalFiles] stays
    0 for the whole run, the reporter never leaves its loop and never
    logs a progress line; it can always take its next step, until
    [main] has returned, after which no goroutine moves. *)
Theorem reporter_runs_on_without_objects (sched : list Thread) (st : State) :
  filter valid listing1 = [] ->
  prun sched = Some st ->
  totalFiles (shared st) = 0 /\
  reporter st <> RDone /\
  (forall p t d s, ~ In (LogProgress p t d s) (out (shared st))) /\
  (main st <> MExit -> exists st', pstep TReporter st = Some st') /\
  (main st = MExit -> forall t, pstep t st = None).
Proof.
  intros Hv H.
  destruct (nothing_counted_run _ _ Hv H) as (N1 & N2 & N3 & N4 & _).
  repeat apply conj; auto.
  - intros p t d s Hin.
    assert (Hf : In (LogProgress p t d s)
                    (filter is_progress (out (shared st))))
      by (apply filter_In; auto).
    rewrite N4 in Hf. exact Hf.
  - intros Hm. unfold step. rewrite (not_exited _ Hm).
    destruct (reporter st); try congruence; cbn; eauto.
    destruct ((processed >=? total) && (total >? 0)); eauto.
  - intros Hm t. unfold step. rewrite Hm. reflexivity.
Qed.

(** C9, as amended: when [Workers] is 0 and the second listing has a
    valid entry, no worker exists, [fileChan] has no buffer, nothing is
    ever sent, closed or signalled, [main] stays at its receive and no
    summary is logged, in every state of every run; at the first valid
    entry the enumerator cannot move.  And a run that does reach the
    end of [main] has [Workers] at least 1, or so far below zero that
    its double wraps around to a positive capacity. *)
Theorem no_worker_no_summary (sched : list Thread) (st : State) :
  filter valid listing2 <> [] ->
  prun sched = Some st ->
  (Workers (Cleanup cfg) = 0 ->
   workers st = [] /\
   fileChanCap (shared st) = O /\
   fileChan (shared st) = [] /\
   sent (out (shared st)) = [] /\
   fileChanClosed (shared st) = false /\
   enumerator st <> ESignal /\ enumerator st <> EExit /\
   main st = MWait /\
   (forall total processed deleted size,
       ~ In (LogSummary total processed deleted size) (out (shared st))) /\
   (forall obj rest,
       enumerator st = EPass2 (obj :: rest) -> Err obj = None ->
       pstep TEnumerator st = None)) /\
  (Int64.min <= Workers (Cleanup cfg) <= Int64.max ->
   main st = MExit ->
   1 <= Workers (Cleanup cfg) \/
   - 2 ^ 63 < Workers (Cleanup cfg) < - 2 ^ 62).
Proof.
  intros Hv H.
  assert (Hstarved : Z.to_nat (Workers (Cleanup cfg)) = O ->
                     Z.to_nat (Int64.mul (Workers (Cleanup cfg)) 2) = O ->
                     starved minioClient st)
    by (intros; eapply starved_run; eauto).
  split.
  - intros Hw. rewrite Hw in Hstarved.
    destruct (Hstarved eq_refl eq_refl)
      as (S1 & S2 & S3 & S4 & S5 & S6 & S7 & S8 & S9).
    repeat apply conj; auto.
    + intros E. rewrite E in S9. apply S9. reflexivity.
    + intros E. rewrite E in S9. apply S9. reflexivity.
    + intros total processed deleted size Hin.
      assert (Hf : In (LogSummary total processed deleted size)
                      (filter is_summary (out (shared st))))
        by (apply filter_In; auto).
      rewrite S6 in Hf. exact Hf.
    + intros obj rest He Herr. unfold step. rewrite S1, He. cbn.
      rewrite Herr, S3, S4. reflexivity.
  - intros Hr Hm.
    destruct (Z_le_gt_dec 1 (Workers (Cleanup cfg))) as [|Hlt]; [auto|].
    destruct (Z_lt_le_dec (- 2 ^ 63) (Workers (Cleanup cfg))) as [Hlo|Hlo].
    + destruct (Z_lt_le_dec (Workers (Cleanup cfg)) (- 2 ^ 62)) as [|Hhi];
        [auto|]. exfalso.
      assert (Hmul : Int64.mul (Workers (Cleanup cfg)) 2
                     = Workers (Cleanup cfg) * 2).
      { unfold Int64.mul. apply wrap_small. unfold Int64.min, Int64.max. lia. }
      destruct (Z.eq_dec (Workers (Cleanup cfg)) 0) as [Hz|Hz].
      * destruct Hstarved as (S1 & _); [rewrite Hz; reflexivity ..|].
        congruence.
      * apply run_exec in H as [Hb _]. rewrite Hmul in Hb. lia.
    + exfalso. unfold Int64.min in Hr.
      assert (Hw : Workers (Cleanup cfg) = - 2 ^ 63) by lia.
      destruct Hstarved as (S1 & _); [rewrite Hw; reflexivity ..|].
      congruence.
Qed.

End Process.

(** ** More about the run *)

Lemma perm_snoc_mid {A} (x : A) (t f a e b : list A) :
  Permutation t (f ++ a ++ e ++ b) ->
  Permutation (t ++ [x]) (f ++ a ++ (e ++ [x]) ++ b).
Proof.
  intros H. eapply Permutation_trans.
  - apply Permutation_app_tail. exact H.
  - rewrite <- !app_assoc. do 3 apply Permutation_app_head.
    cbn. apply Permutation_sym, Permutation_cons_append.
Qed.

Lemma perm_finish {A} (t f a x b : list A) :
  Permutation t (f ++ a ++ x ++ b) ->
  Permutation t ((x ++ f) ++ a ++ b).
Proof.
  intros H. eapply Permutation_trans; [exact H|].
  rewrite <- (app_assoc x f). rewrite (app_assoc f a (x ++ b)).
  rewrite (app_assoc f a b). apply Permutation_app_swap_app.
Qed.

Lemma perm_filter {A} (p : A -> bool) (l1 l2 : list A) :
  Permutation l1 l2 -> Permutation (filter p l1) (filter p l2).
Proof.
  induction 1 as [|x l l' _ IH|x y l|l l' l'' _ IH1 _ IH2]; cbn.
  - constructor.
  - destruct (p x); [constructor|]; exact IH.
  - destruct (p x), (p y); try apply Permutation_refl. constructor.
  - eapply Permutation_trans; eauto.
Qed.

Lemma perm_flat_map {A B} (f : A -> list B) (l1 l2 : list A) :
  Permutation l1 l2 -> Permutation (flat_map f l1) (flat_map f l2).
Proof.
  induction 1 as [|x l l' _ IH|x y l|l l' l'' _ IH1 _ IH2]; cbn.
  - constructor.
  - apply Permutation_app_head, IH.
  - rewrite !app_assoc. apply Permutation_app_tail, Permutation_app_comm.
  - eapply Permutation_trans; eauto.
Qed.

Lemma remove_calls_are_worker_events (tr : list Event) :
  filter is_remove_call tr
  = filter is_remove_call (filter is_worker_event tr).
Proof.
  induction tr as [|e tr IH]; [reflexivity|].
  destruct e; cbn; rewrite ?IH; reflexivity.
Qed.

Ltac simp_counters :=
  cbn -[Z.add Z.mul Int64.wrap Int64.add events_of] in *.

Section Ledgers.

Variable cfg : Config.
Variable thresholdTime : Time.
Variable minioClient : Client.

Local Abbreviation pstep := (step cfg thresholdTime minioClient).
Local Abbreviation pexec := (exec cfg thresholdTime minioClient).
Local Abbreviation prun := (run cfg thresholdTime minioClient).
Local Abbreviation pinit := (init cfg thresholdTime minioClient).
Local Abbreviation wstep := (worker_step cfg thresholdTime minioClient).
Local Abbreviation wbody := (worker_body cfg thresholdTime minioClient).
Local Abbreviation bucket := (Bucket (Minio cfg)).
Local Abbreviation listing1 := (ListObjects minioClient 0).
Local Abbreviation listing2 := (ListObjects minioClient 1).
Local Abbreviation acct := (accounted cfg thresholdTime minioClient).
Local Abbreviation elig := (eligible cfg thresholdTime).
Local Abbreviation rem := (removed cfg thresholdTime minioClient).
Local Abbreviation rem1 := (removed_one cfg thresholdTime minioClient).
Local Abbreviation remsz := (removed_size cfg thresholdTime minioClient).
Local Abbreviation wok := (worker_ok cfg thresholdTime minioClient).
Local Abbreviation cred := (credit_deleted cfg thresholdTime minioClient).
Local Abbreviation credsz := (credit_size cfg thresholdTime minioClient).
Local Abbreviation evs := (events_of cfg thresholdTime minioClient).
Local Abbreviation emit_so_far := (emitted cfg thresholdTime minioClient).
Local Abbreviation ledg := (ledger cfg thresholdTime minioClient).

(** The loop body lets the outside see exactly [events_of]. *)
Lemma worker_body_events (obj : ObjectInfo) (sh : Shared) :
  out (snd (wbody obj sh)) = out sh ++ evs obj.
Proof.
  rewrite worker_body_cases. unfold events_of, candidate_of, call_of.
  destruct (elig obj); [|cbn; rewrite app_nil_r; reflexivity].
  destruct (DryRun (Cleanup cfg)); [reflexivity|].
  destruct (RemoveObject minioClient bucket (Key obj)); cbn;
    rewrite <- !app_assoc; reflexivity.
Qed.

(** A step of anything but a worker adds nothing to the workers' output. *)
Lemma main_step_events (m m' : Main) (sh sh' : Shared) :
  main_step m sh = Some (m', sh') ->
  filter is_worker_event (out sh') = filter is_worker_event (out sh).
Proof.
  intros H. destruct m; cbn in H; try discriminate; inv H; try reflexivity.
  cbn. rewrite filter_snoc. cbn. apply app_nil_r.
Qed.

Lemma enum_step_events (e e' : Enumerator) (sh sh' : Shared) :
  enum_step minioClient e sh = Some (e', sh') ->
  filter is_worker_event (out sh') = filter is_worker_event (out sh).
Proof.
  intros H. enum_cases H; cbn; rewrite ?filter_snoc; cbn;
    rewrite ?app_nil_r; reflexivity.
Qed.

Lemma reporter_step_events (r r' : Reporter) (sh sh' : Shared) :
  reporter_step r sh = Some (r', sh') ->
  filter is_worker_event (out sh') = filter is_worker_event (out sh).
Proof.
  intros H. reporter_cases H; try reflexivity;
    destruct (t >? 0); cbn; rewrite ?filter_snoc; cbn;
    rewrite ?app_nil_r; reflexivity.
Qed.

Lemma ledger_step (t : Thread) (st st' : State) (fin : list ObjectInfo) :
  ledg fin st -> pstep t st = Some st' ->
  ledg fin st' \/ exists obj, ledg (obj :: fin) st'.
Proof.
  intros [Hacc Hev] H. step_cases H.
  - left. split.
    + eapply accounted_frame; eauto;
        destruct (main st); cbn in *; try discriminate; inv Hms; reflexivity.
    + cbn. rewrite (main_step_events _ _ _ _ Hms). exact Hev.
  - left. split.
    + eapply accounted_frame; eauto; cbn; try reflexivity.
      rewrite Hen. reflexivity.
    + cbn. rewrite filter_snoc. cbn. rewrite app_nil_r. exact Hev.
  - left. split.
    + eapply accounted_frame; eauto; cbn;
        enum_cases Hes; cbn; try reflexivity;
        unfold valid; rewrite Herr; rewrite <- ?app_assoc; reflexivity.
    + cbn. rewrite (enum_step_events _ _ _ _ Hes). exact Hev.
  - left. split.
    + eapply accounted_frame; eauto;
        reporter_cases Hrs; cbn;
        try match goal with |- context [if ?b then _ else _] => destruct b end;
        reflexivity.
    + cbn. rewrite (reporter_step_events _ _ _ _ Hrs). exact Hev.
  - destruct Hacc as (Hp & Hw & H1 & H2 & H3).
    rewrite Hws in Hp, Hw, H2, H3, Hev.
    rewrite flat_map_app in Hp, Hev. rewrite sumZ_app in H2, H3.
    apply Forall_app in Hw as [Hw1 Hw2]. inv Hw2.
    cbn [flat_map sumZ] in *.
    assert (Hbuild : forall fin' w' sh',
      Permutation
        (fin' ++ (flat_map inflight l1 ++ inflight w' ++ flat_map inflight l2)
              ++ fileChan sh'
              ++ filter valid (todo minioClient (enumerator st)))
        (filter valid listing2) ->
      wok w' ->
      processedFiles sh' = Int64.wrap (sumZ (fun _ => 1) fin') ->
      deletedFiles sh' =
        Int64.wrap (sumZ rem1 fin' + (sumZ cred l1 + (cred w' + sumZ cred l2))) ->
      deletedSize sh' =
        Int64.wrap
          (sumZ remsz fin' + (sumZ credsz l1 + (credsz w' + sumZ credsz l2))) ->
      Permutation
        (filter is_worker_event (out sh'))
        (flat_map evs fin'
           ++ flat_map emit_so_far l1 ++ emit_so_far w'
           ++ flat_map emit_so_far l2) ->
      ledg fin'
        {| shared := sh'; workers := l1 ++ w' :: l2;
           enumerator := enumerator st; reporter := reporter st;
           main := main st |}).
    { intros fin' w0 sh' Gp Gw G1 G2 G3 Ge. unfold ledger, accounted.
      cbn [shared workers enumerator].
      rewrite !flat_map_app, !sumZ_app, Forall_app. cbn [flat_map sumZ].
      repeat apply conj; auto. }
    worker_cases Hwst.
    + (* 147: receive *)
      left. cbn in Hwst. destruct (fileChan (shared st)) as [|o rest] eqn:Eb.
      * destruct (fileChanClosed (shared st)); inv Hwst.
        apply Hbuild; auto. rewrite Eb. exact Hp.
      * inv Hwst. apply Hbuild; auto. cbn.
        eapply Permutation_trans; [|exact Hp].
        apply Permutation_app_head. rewrite <- !app_assoc.
        apply Permutation_app_head. cbn. apply Permutation_middle.
    + (* 149-162: the two tests *)
      destruct (elig obj) eqn:He.
      * rewrite (filter_pass _ _ _ _ _ He) in Hwst. inv Hwst.
        left. apply Hbuild; auto. cbn [out emit]. rewrite filter_snoc.
        cbn [is_worker_event].
        apply (perm_snoc_mid _ _ _ _ [] _ Hev).
      * rewrite (filter_skip _ _ _ _ _ He) in Hwst. inv Hwst.
        right. exists obj.
        assert (Hr : rem obj = false) by (unfold removed; rewrite He; reflexivity).
        destruct (not_removed_one _ _ _ _ Hr) as [R1 R2].
        apply Hbuild; simp_counters; rewrite ?H1, ?add_wrap, ?R1, ?R2; auto.
        -- apply finish_perm, Hp.
        -- f_equal; lia.
        -- assert (Ev : evs obj = [])
             by (unfold events_of; rewrite He; reflexivity).
           rewrite Ev. exact Hev.
    + (* 165-166: the removal call, or line 175 in dry-run mode *)
      cbn in Hwst, H4. destruct (DryRun (Cleanup cfg)) eqn:Hd; cbn in Hwst.
      * inv Hwst. right. exists obj.
        assert (Hr : rem obj = false)
          by (unfold removed; rewrite Hd, andb_false_r; reflexivity).
        destruct (not_removed_one _ _ _ _ Hr) as [R1 R2].
        apply Hbuild; simp_counters; rewrite ?H1, ?add_wrap, ?R1, ?R2; auto.
        -- apply finish_perm, Hp.
        -- f_equal; lia.
        -- assert (Ev : evs obj = [candidate_of obj])
             by (unfold events_of; rewrite H4, Hd; reflexivity).
           rewrite Ev. exact (perm_finish _ _ _ [_] _ Hev).
      * destruct (RemoveObject minioClient bucket (Key obj)) as [err|] eqn:Hr;
          inv Hwst; left; apply Hbuild; auto; cbn [worker_ok]; auto.
        -- cbn [out emit]. rewrite filter_snoc. cbn [is_worker_event].
           apply (perm_snoc_mid _ _ _ _ [_] _ Hev).
        -- unfold removed. rewrite H4, Hd, Hr. reflexivity.
        -- cbn [out emit]. rewrite filter_snoc. cbn [is_worker_event].
           apply (perm_snoc_mid _ _ _ _ [_] _ Hev).
    + (* 168 *)
      cbn in Hwst, H4. inv Hwst. destruct H4 as (He & Hd & Hr).
      assert (Hn : rem obj = false)
        by (unfold removed; rewrite Hr, andb_false_r; reflexivity).
      destruct (not_removed_one _ _ _ _ Hn) as [R1 R2].
      left. apply Hbuild; simp_counters; rewrite ?R1, ?R2; auto.
      rewrite filter_snoc. cbn [is_worker_event].
      assert (Ev : evs obj = [candidate_of obj; call_of cfg obj;
                              LogRemoveFailed (Key obj) err])
        by (unfold events_of; rewrite He, Hd, Hr; reflexivity).
      rewrite Ev. apply (perm_snoc_mid _ _ _ _ [_; _] _ Hev).
    + (* 170 *)
      cbn in Hwst. inv Hwst. left. apply Hbuild; auto.
      cbn [out emit]. rewrite filter_snoc. cbn [is_worker_event].
      apply (perm_snoc_mid _ _ _ _ [_; _] _ Hev).
    + (* 171 *)
      cbn in Hwst. inv Hwst. left.
      apply Hbuild; simp_counters; rewrite ?H2, ?add_wrap; auto.
      f_equal; lia.
    + (* 172 *)
      cbn in Hwst, H4. inv Hwst.
      destruct (removed_one_size _ _ _ _ H4) as [R1 R2].
      destruct (removed_inv _ _ _ _ H4) as (He & Hd & Hr).
      left. apply Hbuild; simp_counters; rewrite ?H3, ?add_wrap, ?R1, ?R2; auto.
      * f_equal; lia.
      * assert (Ev : evs obj = [candidate_of obj; call_of cfg obj;
                                LogRemoved (Key obj)])
          by (unfold events_of; rewrite He, Hd, Hr; reflexivity).
        rewrite Ev. exact Hev.
    + (* 175 *)
      cbn in Hwst. inv Hwst. right. exists obj.
      apply Hbuild; simp_counters; rewrite ?H1, ?add_wrap; auto.
      * apply finish_perm, Hp.
      * f_equal; lia.
      * rewrite H2. f_equal; lia.
      * rewrite H3. f_equal; lia.
      * exact (perm_finish _ _ _ (evs obj) _ Hev).
Qed.

Lemma ledger_init : ledg [] pinit.
Proof.
  split; [apply accounted_init|].
  unfold init, startup_log. cbn.
  assert (E : flat_map emit_so_far
                (repeat WRecv (Z.to_nat (Workers (Cleanup cfg)))) = [])
    by (induction (Z.to_nat (Workers (Cleanup cfg))); cbn; auto).
  rewrite E. destruct (DryRun (Cleanup cfg)); cbn; constructor.
Qed.

Lemma ledger_run (sched : list Thread) (st : State) :
  prun sched = Some st -> exists fin, ledg fin st.
Proof.
  intros H. apply run_exec in H as [_ H].
  revert H. apply (exec_invariant cfg thresholdTime minioClient
                     (fun s => exists fin, ledg fin s)).
  - intros t s s' [fin Hs] Hstep.
    destruct (ledger_step _ _ _ _ Hs Hstep) as [Ha | [obj Ha]]; eauto.
  - exists []. apply ledger_init.
Qed.

(** What a worker has emitted for its object is the beginning of what
    the loop body emits for it. *)
Lemma emitted_prefix (w : Worker) :
  wok w ->
  exists owed, flat_map evs (inflight w) = emit_so_far w ++ owed.
Proof.
  destruct w; cbn; intros Hw; rewrite ?app_nil_r.
  - exists []. reflexivity.
  - eexists. reflexivity.
  - unfold events_of. rewrite Hw. eexists. reflexivity.
  - destruct Hw as (He & Hd & Hr). unfold events_of. rewrite He, Hd, Hr.
    exists [LogRemoveFailed (Key obj) err]. reflexivity.
  - destruct (removed_inv _ _ _ _ Hw) as (He & Hd & Hr).
    unfold events_of. rewrite He, Hd, Hr.
    exists [LogRemoved (Key obj)]. reflexivity.
  - destruct (removed_inv _ _ _ _ Hw) as (He & Hd & Hr).
    unfold events_of. rewrite He, Hd, Hr. exists []. reflexivity.
  - destruct (removed_inv _ _ _ _ Hw) as (He & Hd & Hr).
    unfold events_of. rewrite He, Hd, Hr. exists []. reflexivity.
  - exists []. rewrite app_nil_r. reflexivity.
  - exists []. reflexivity.
Qed.

Lemma held_events (ws : list Worker) :
  Forall wok ws ->
  exists owed,
    Permutation (flat_map evs (flat_map inflight ws))
                (flat_map emit_so_far ws ++ owed) /\
    (Forall (fun w => w = WExit) ws -> owed = []).
Proof.
  induction 1 as [|w ws Hw _ (owed & IH & IHx)].
  - exists []. split; [constructor | reflexivity].
  - destruct (emitted_prefix w Hw) as (o1 & E1).
    assert (Ex : w = WExit -> o1 = []).
    { intros ->. cbn in E1. symmetry. exact E1. }
    exists (o1 ++ owed). split.
    + cbn [flat_map]. rewrite flat_map_app, E1.
      rewrite <- !app_assoc. apply Permutation_app_head.
      eapply Permutation_trans; [apply Permutation_app_head, IH|].
      rewrite !app_assoc. apply Permutation_app_tail, Permutation_app_comm.
    + intros Hall. inv Hall. rewrite Ex, IHx; auto.
Qed.

(** Once the pool is done the channel is empty and nothing is left to
    read. *)
Lemma pool_done_drained (sched : list Thread) (st : State) :
  prun sched = Some st -> pool_done st ->
  fileChan (shared st) = [] /\ todo minioClient (enumerator st) = [].
Proof.
  intros H [Hne Hall].
  pose proof (closing_run _ _ _ _ _ H) as Hc.
  pose proof (enumerated_run _ _ _ _ _ H) as He.
  assert (Hin : In WExit (workers st)).
  { destruct (workers st) as [|w ws]; [congruence|]. inv Hall. now left. }
  destruct (Hc Hin) as [Hb Hcl]. split; [exact Hb|].
  unfold enumerated, enum_trace in He.
  destruct (enumerator st); try reflexivity; exfalso.
  - destruct He as (? & _ & _ & _ & _ & _ & _ & T). congruence.
  - destruct He as (_ & _ & _ & _ & _ & _ & T). congruence.
  - destruct He as (_ & ? & _ & _ & _ & _ & _ & T). congruence.
Qed.

Lemma events_split (st : State) (fin : list ObjectInfo) (owed : list Event) :
  Permutation
    (fin ++ flat_map inflight (workers st) ++ fileChan (shared st)
         ++ filter valid (todo minioClient (enumerator st)))
    (filter valid listing2) ->
  Permutation (filter is_worker_event (out (shared st)))
              (flat_map evs fin ++ flat_map emit_so_far (workers st)) ->
  Permutation (flat_map evs (flat_map inflight (workers st)))
              (flat_map emit_so_far (workers st) ++ owed) ->
  Permutation
    (filter is_worker_event (out (shared st))
       ++ owed
       ++ flat_map evs
            (fileChan (shared st)
               ++ filter valid (todo minioClient (enumerator st))))
    (flat_map evs (filter valid listing2)).
Proof.
  intros Hp Hev Ho.
  eapply Permutation_trans; [|apply perm_flat_map, Hp].
  rewrite (flat_map_app evs fin).
  rewrite (flat_map_app evs (flat_map inflight (workers st))).
  rewrite !app_assoc. apply Permutation_app_tail.
  eapply Permutation_trans; [apply Permutation_app_tail, Hev|].
  rewrite <- !app_assoc. apply Permutation_app_head.
  apply Permutation_sym, Ho.
Qed.

(** X2: the candidate lines, removal calls and outcome lines of a run
    are, up to order and at every moment, part of what one pass of the
    loop body over each valid entry of the second listing produces,
    and all of it once the pool is done: no object is handled twice,
    and then none has been left out. *)
Theorem workers_handle_each_object_once (sched : list Thread) (st : State) :
  prun sched = Some st ->
  (forall obj sh, out (snd (wbody obj sh)) = out sh ++ evs obj) /\
  exists rest,
    Permutation (filter is_worker_event (out (shared st)) ++ rest)
                (flat_map evs (filter valid listing2)) /\
    (pool_done st -> rest = []).
Proof.
  intros H. split; [apply worker_body_events|].
  destruct (ledger_run _ _ H) as (fin & (Hp & Hw & _) & Hev).
  destruct (held_events _ Hw) as (owed & Ho & Hx).
  exists (owed ++ flat_map evs
                    (fileChan (shared st)
                       ++ filter valid (todo minioClient (enumerator st)))).
  split.
  - apply (events_split _ _ _ Hp Hev Ho).
  - intros Hd. destruct (pool_done_drained _ _ H Hd) as [Hb Ht].
    rewrite Hb, Ht, Hx; [reflexivity | apply Hd].
Qed.

Lemma events_of_inv (obj : ObjectInfo) (e : Event) :
  In e (evs obj) ->
  elig obj = true /\
  (e = candidate_of obj \/
   DryRun (Cleanup cfg) = false /\
   (e = call_of cfg obj \/
    e = LogRemoved (Key obj) /\
      RemoveObject minioClient bucket (Key obj) = None \/
    exists err,
      e = LogRemoveFailed (Key obj) err /\
      RemoveObject minioClient bucket (Key obj) = Some err)).
Proof.
  unfold events_of. destruct (elig obj); [|intros []].
  intros [<- | Hin]; [auto|]. split; [reflexivity|]. right.
  destruct (DryRun (Cleanup cfg)); [destruct Hin|]. split; [reflexivity|].
  destruct Hin as [<- | Hin]; [auto|]. right.
  destruct (RemoveObject minioClient bucket (Key obj)) as [err|];
    destruct Hin as [<- | []]; eauto.
Qed.

(** X1: whatever the schedule, a removal is only ever requested for the
    configured bucket and the key of an object that the second listing
    delivered without error, that is at least [MinSize] large and was
    not modified after [thresholdTime], and never in dry-run mode; a
    line about a success or a failure is only logged for such an object
    and tells what the client answered; a candidate line carries the
    key, size and time of such an object. *)
Theorem only_eligible_objects_are_removed
        (sched : list Thread) (st : State) (e : Event) :
  prun sched = Some st ->
  In e (out (shared st)) ->
  is_worker_event e = true ->
  exists obj,
    In obj listing2 /\ Err obj = None /\
    MinSize (Cleanup cfg) <= Size obj /\ LastModified obj <= thresholdTime /\
    match e with
    | LogCandidate k s m =>
        k = Key obj /\ s = Size obj /\ m = LastModified obj
    | CallRemoveObject b k =>
        b = bucket /\ k = Key obj /\ DryRun (Cleanup cfg) = false
    | LogRemoved k =>
        k = Key obj /\ DryRun (Cleanup cfg) = false /\
        RemoveObject minioClient bucket k = None
    | LogRemoveFailed k err =>
        k = Key obj /\ DryRun (Cleanup cfg) = false /\
        RemoveObject minioClient bucket k = Some err
    | _ => False
    end.
Proof.
  intros H Hin He.
  destruct (ledger_run _ _ H) as (fin & (Hp & Hw & _) & Hev).
  destruct (held_events _ Hw) as (owed & Ho & _).
  assert (Hin' : In e (filter is_worker_event (out (shared st))))
    by (apply filter_In; auto).
  apply (Permutation_in _ Hev) in Hin'.
  assert (Hobj : exists obj,
             In obj (fin ++ flat_map inflight (workers st)) /\
             In e (evs obj)).
  { apply in_app_or in Hin' as [Hf | Hf].
    - apply in_flat_map in Hf as (obj & Hobj & Hf). exists obj.
      split; [apply in_or_app; auto | exact Hf].
    - assert (Hf' : In e (flat_map evs (flat_map inflight (workers st)))).
      { apply (Permutation_in _ (Permutation_sym Ho)), in_or_app. auto. }
      apply in_flat_map in Hf' as (obj & Hobj & Hf'). exists obj.
      split; [apply in_or_app; auto | exact Hf']. }
  destruct Hobj as (obj & Hobj & Hf).
  assert (Hv : In obj (filter valid listing2)).
  { apply (Permutation_in _ Hp). rewrite app_assoc. apply in_or_app. auto. }
  apply filter_In in Hv as [Hl Hv].
  destruct (events_of_inv _ _ Hf) as [Hel Hcases].
  apply eligible_iff in Hel as [Hs Ht].
  exists obj. repeat apply conj; auto.
  - unfold valid in Hv. destruct (Err obj); [discriminate | reflexivity].
  - destruct Hcases as [-> | [Hd [-> | [[-> Hr] | (err & -> & Hr)]]]];
      cbn; auto.
Qed.

Lemma remove_calls_nodup (l : list ObjectInfo) :
  NoDup (map Key l) -> NoDup (filter is_remove_call (flat_map evs l)).
Proof.
  induction l as [|obj l IH]; cbn; intros Hn; [constructor|].
  inv Hn. rewrite filter_app.
  assert (Hone : filter is_remove_call (evs obj) = []
                 \/ filter is_remove_call (evs obj) = [call_of cfg obj]).
  { unfold events_of. destruct (elig obj); cbn; auto.
    destruct (DryRun (Cleanup cfg)); cbn; auto.
    destruct (RemoveObject minioClient bucket (Key obj)); cbn; auto. }
  destruct Hone as [-> | ->]; cbn; [auto|].
  constructor; [|auto]. intros Hin.
  apply filter_In in Hin as [Hin _].
  apply in_flat_map in Hin as (obj' & Hobj' & Hin).
  destruct (events_of_inv _ _ Hin)
    as [_ [E | [_ [E | [[E _] | (err & E & _)]]]]];
    try discriminate E.
  inv E. match goal with H : ~ In _ _ |- _ => apply H end.
  match goal with H : Key _ = Key _ |- _ => rewrite H end.
  apply in_map, Hobj'.
Qed.

(** X3: when the valid entries of the second listing have distinct
    keys, no key is handed to [RemoveObject] twice in a run. *)
Theorem no_key_is_removed_twice (sched : list Thread) (st : State) :
  NoDup (map Key (filter valid listing2)) ->
  prun sched = Some st ->
  NoDup (filter is_remove_call (out (shared st))).
Proof.
  intros Hn H.
  destruct (ledger_run _ _ H) as (fin & (Hp & Hw & _) & Hev).
  destruct (held_events _ Hw) as (owed & Ho & _).
  rewrite remove_calls_are_worker_events.
  pose proof (remove_calls_nodup _ Hn) as Hall.
  pose proof (Permutation_sym (events_split _ _ _ Hp Hev Ho)) as Hperm.
  apply (perm_filter is_remove_call) in Hperm.
  rewrite filter_app in Hperm.
  apply (Permutation_NoDup Hperm) in Hall.
  apply NoDup_app_remove_r in Hall. exact Hall.
Qed.

(** *** The channel and the pool *)

Lemma worker_step_buffer (w w' : Worker) (sh sh' : Shared) :
  wstep w sh = Some (w', sh') ->
  (List.length (fileChan sh') <= List.length (fileChan sh))%nat.
Proof.
  intros H. worker_cases H; cbn in H.
  - destruct (fileChan sh) as [|o rest] eqn:Eb;
      [destruct (fileChanClosed sh)|]; inv H; cbn; rewrite ?Eb; cbn; lia.
  - destruct (Size obj <? MinSize (Cleanup cfg));
      [|destruct (After (LastModified obj) thresholdTime)]; inv H; cbn; lia.
  - destruct (DryRun (Cleanup cfg)); cbn in H;
      [|destruct (RemoveObject minioClient bucket (Key obj))]; inv H; cbn; lia.
  - inv H; cbn; lia.
  - inv H; cbn; lia.
  - inv H; cbn; lia.
  - inv H; cbn; lia.
  - inv H; cbn; lia.
Qed.

Lemma bounded_step (t : Thread) (st st' : State) :
  bounded cfg st -> pstep t st = Some st' -> bounded cfg st'.
Proof.
  unfold bounded. intros (B1 & B2 & B3) H. step_cases H; cbn.
  - destruct (main st); cbn in Hms; try discriminate; inv Hms; auto.
  - auto.
  - enum_cases Hes; cbn; auto.
    apply Nat.ltb_lt in Hroom. rewrite length_app. cbn.
    repeat apply conj; auto. lia.
  - reporter_cases Hrs; try destruct (t >? 0); cbn; auto.
  - destruct (worker_step_frame _ _ _ _ _ _ _ Hwst) as (_ & F & _).
    pose proof (worker_step_buffer _ _ _ _ Hwst).
    rewrite Hws in B3. rewrite length_app in *. cbn in *.
    repeat apply conj; try lia; congruence.
Qed.

Lemma held_at_most_one (ws : list Worker) :
  (List.length (flat_map inflight ws) <= List.length ws)%nat.
Proof.
  induction ws as [|w ws IH]; cbn; [lia|].
  rewrite length_app. destruct w; cbn; lia.
Qed.

(** X4: the channel never holds more than its capacity, the capacity
    stays [Workers * 2] and the pool stays [Workers] strong, each
    worker holds at most one object; so for a worker count that does
    not overflow at most [3 * Workers] objects are in memory between
    the listing and their disposition. *)
Theorem channel_within_capacity (sched : list Thread) (st : State) :
  prun sched = Some st ->
  (List.length (fileChan (shared st)) <= fileChanCap (shared st))%nat /\
  fileChanCap (shared st) = Z.to_nat (Int64.mul (Workers (Cleanup cfg)) 2) /\
  List.length (workers st) = Z.to_nat (Workers (Cleanup cfg)) /\
  (List.length (flat_map inflight (workers st))
   <= List.length (workers st))%nat /\
  (0 <= Workers (Cleanup cfg) <= 2 ^ 62 - 1 ->
   Z.of_nat (List.length (fileChan (shared st)))
     <= 2 * Workers (Cleanup cfg) /\
   Z.of_nat (List.length (fileChan (shared st))
             + List.length (flat_map inflight (workers st)))
     <= 3 * Workers (Cleanup cfg)).
Proof.
  intros H. apply run_exec in H as [_ H].
  assert (Hb : bounded cfg st).
  { eapply exec_invariant; [apply bounded_step | | exact H].
    unfold bounded, init. cbn. rewrite repeat_length.
    repeat apply conj; auto. lia. }
  destruct Hb as (B1 & B2 & B3).
  pose proof (held_at_most_one (workers st)) as B4.
  repeat apply conj; auto.
  intros Hw.
  assert (Hmul : Int64.mul (Workers (Cleanup cfg)) 2
                 = Workers (Cleanup cfg) * 2).
  { unfold Int64.mul. apply wrap_small. unfold Int64.min, Int64.max. lia. }
  rewrite Hmul in B2. lia.
Qed.

(** *** The processed counter *)

(** X5: when the number of valid entries of the second listing fits an
    [int64], at every moment of a run [processedFiles] plus the objects
    held by workers, waiting in the channel and not yet read is that
    number; so the counter is never negative and never beyond it, and
    a transition leaves it as it is or adds one. *)
Theorem processed_is_conserved (sched : list Thread) (st : State) :
  count_fits minioClient ->
  prun sched = Some st ->
  processedFiles (shared st)
    + Z.of_nat (List.length (flat_map inflight (workers st))
                + List.length (fileChan (shared st))
                + List.length
                    (filter valid (todo minioClient (enumerator st))))
    = Z.of_nat (List.length (filter valid listing2)) /\
  0 <= processedFiles (shared st)
    <= Z.of_nat (List.length (filter valid listing2)) /\
  (forall t st',
      pstep t st = Some st' ->
      processedFiles (shared st') = processedFiles (shared st) \/
      processedFiles (shared st') = processedFiles (shared st) + 1).
Proof.
  unfold count_fits. intros Hfit H.
  destruct (accounted_run _ _ _ _ _ H) as (fin & Hacc).
  assert (Hexact : forall fin' s,
             acct fin' s ->
             processedFiles (shared s) = Z.of_nat (List.length fin') /\
             Z.of_nat (List.length fin')
               + Z.of_nat (List.length (flat_map inflight (workers s))
                           + List.length (fileChan (shared s))
                           + List.length
                               (filter valid (todo minioClient (enumerator s))))
               = Z.of_nat (List.length (filter valid listing2))).
  { intros fin' s (Hp & _ & H1 & _).
    apply Permutation_length in Hp. rewrite !length_app in Hp.
    rewrite H1, sumZ_one_length. split; [|lia].
    apply wrap_small. unfold Int64.min, Int64.max in *. lia. }
  destruct (Hexact _ _ Hacc) as [E1 E2].
  repeat apply conj; try lia.
  intros t st' Hs.
  destruct (accounted_step _ _ _ _ _ _ _ Hacc Hs) as [Ha | [obj Ha]];
    destruct (Hexact _ _ Ha) as [E1' _]; rewrite E1, E1'.
  - left. reflexivity.
  - right. cbn [List.length]. lia.
Qed.

(** *** The totals in the log *)

Lemma worker_step_out (w w' : Worker) (sh sh' : Shared) :
  wstep w sh = Some (w', sh') ->
  out sh' = out sh \/
  exists e, out sh' = out sh ++ [e] /\ is_worker_event e = true.
Proof.
  intros H. worker_cases H; cbn in H.
  - destruct (fileChan sh) as [|o rest];
      [destruct (fileChanClosed sh)|]; inv H; auto.
  - destruct (Size obj <? MinSize (Cleanup cfg));
      [|destruct (After (LastModified obj) thresholdTime)]; inv H; cbn; eauto.
  - destruct (DryRun (Cleanup cfg)); cbn in H;
      [|destruct (RemoveObject minioClient bucket (Key obj))];
      inv H; cbn; eauto.
  - inv H; cbn; eauto.
  - inv H; cbn; eauto.
  - inv H; auto.
  - inv H; auto.
  - inv H; auto.
Qed.

Lemma total_ok_worker_event (c : Z) (e : Event) :
  is_worker_event e = true -> total_ok c e.
Proof. destruct e; cbn; intros; try discriminate; exact I. Qed.

Lemma Forall_snoc {A} (P : A -> Prop) (l : list A) (x : A) :
  Forall P l -> P x -> Forall P (l ++ [x]).
Proof. intros Hl Hx. apply Forall_app. split; [exact Hl | constructor; auto]. Qed.

Lemma totals_step (t : Thread) (st st' : State) :
  enumerated minioClient st -> totals minioClient st ->
  pstep t st = Some st' -> totals minioClient st'.
Proof.
  unfold totals. intros He (T1 & T2 & T3 & T4 & T5) H.
  step_cases H; cbn.
  - (* main *)
    assert (Hexit : main st <> MWait -> totalFiles (shared st)
                                       = count_valid listing1).
    { intros Hm. unfold enumerated in He. rewrite (T4 Hm) in He. apply He. }
    destruct (main st) eqn:Em; cbn in Hms; try discriminate; inv Hms; cbn;
      repeat apply conj; auto; try discriminate;
      try (intros _; apply T4; discriminate);
      try (intros t' E; inv E; first [apply Hexit; discriminate
                                     | apply T3; reflexivity]).
    apply Forall_snoc; [exact T5|]. cbn. apply T3. reflexivity.
  - repeat apply conj; auto; try discriminate.
    apply Forall_snoc; [exact T5 | exact I].
  - assert (Hm : main st = MWait).
    { destruct (main st) eqn:Em; try reflexivity;
        rewrite T4 in Hes by discriminate; discriminate. }
    unfold enumerated in He.
    enum_cases Hes; cbn; rewrite ?Hm; cbn;
      repeat apply conj; auto; try discriminate; try congruence;
      try (apply Forall_snoc; [exact T5 | exact I]).
    + right. destruct He as (seen & E1 & E2 & _).
      rewrite app_nil_r in E1. congruence.
    + apply Forall_snoc; [exact T5|]. cbn. apply He.
  - reporter_cases Hrs; cbn; repeat apply conj; auto;
      try (intros t' E; inv E; auto; fail);
      try (intros t' E; discriminate E).
    all: destruct (t >? 0) eqn:Egt; cbn; auto.
    all: apply Forall_snoc; [exact T5|]; cbn.
    all: rewrite Z.gtb_ltb in Egt; apply Z.ltb_lt in Egt.
    all: destruct (T2 t eq_refl) as [Hz | Ht]; [lia | auto].
  - destruct (worker_step_frame _ _ _ _ _ _ _ Hwst) as (F1 & _).
    rewrite F1. repeat apply conj; auto.
    destruct (worker_step_out _ _ _ _ Hwst) as [-> | (e & -> & Hev)]; auto.
    apply Forall_snoc; [exact T5|]. apply total_ok_worker_event, Hev.
Qed.

Lemma totals_init : totals minioClient pinit.
Proof.
  unfold totals, init, startup_log. cbn.
  repeat apply conj; auto; try discriminate.
  - intros Hm. congruence.
  - destruct (DryRun (Cleanup cfg)); repeat constructor.
Qed.

Lemma totals_run (sched : list Thread) (st : State) :
  prun sched = Some st -> totals minioClient st.
Proof.
  intros H. apply run_exec in H as [_ H].
  assert (G : enumerated minioClient st /\ totals minioClient st);
    [|apply G].
  eapply (exec_invariant cfg thresholdTime minioClient
            (fun s => enumerated minioClient s /\ totals minioClient s));
    [| |exact H].
  - intros t s s' [He Ht] Hs. split.
    + eapply enumerated_step; eauto.
    + eapply totals_step; eauto.
  - split; [apply enumerated_init | apply totals_init].
Qed.

(** X6: every total that a run logs, in the line after the first pass,
    in a progress line or in the summary, is the number of error-free
    entries of the first listing (as an [int64]); and a progress line
    is only logged with a positive total. *)
Theorem logged_totals_are_the_first_count
        (sched : list Thread) (st : State) (e : Event) :
  prun sched = Some st ->
  In e (out (shared st)) ->
  match e with
  | LogTotal count => count = count_valid listing1
  | LogProgress _ total _ _ => total = count_valid listing1 /\ 0 < total
  | LogSummary total _ _ _ => total = count_valid listing1
  | _ => True
  end.
Proof.
  intros H Hin. destruct (totals_run _ _ H) as (_ & _ & _ & _ & T5).
  rewrite Forall_forall in T5. apply (T5 e Hin).
Qed.

(** *** The summary *)

Lemma summary_last_step (t : Thread) (st st' : State) :
  summary_last st -> pstep t st = Some st' -> summary_last st'.
Proof.
  unfold summary_last. intros [S1 _] H. step_cases H; cbn.
  - specialize (S1 Hlive).
    destruct (main st); cbn in Hms; try discriminate; inv Hms; cbn;
      (split; [intros Hn; first [exact S1 | congruence]
              | intros E; try discriminate E]).
    do 5 eexists. split; [reflexivity | exact S1].
  - split; [|discriminate]. intros _. rewrite filter_snoc. cbn.
    rewrite app_nil_r. auto.
  - split; [|congruence]. intros _.
    enum_cases Hes; cbn; rewrite ?filter_snoc; cbn; rewrite ?app_nil_r; auto.
  - split; [|congruence]. intros _.
    reporter_cases Hrs; cbn; try destruct (t >? 0); cbn;
      rewrite ?filter_snoc; cbn; rewrite ?app_nil_r; auto.
  - split; [|congruence]. intros _.
    destruct (worker_step_frame _ _ _ _ _ _ _ Hwst) as (_ & _ & _ & _ & F & _).
    rewrite F. auto.
Qed.

(** X7: the summary is logged at most once and nothing is logged after
    it: as long as [main] has not returned the log has no summary, and
    when it has, the summary is the last line; by then every error-free
    entry of the second listing has been sent on [fileChan], in order,
    and the channel has been closed and [main] signalled once. *)
Theorem summary_is_the_last_line (sched : list Thread) (st : State) :
  prun sched = Some st ->
  (main st <> MExit ->
   forall total processed deleted size,
     ~ In (LogSummary total processed deleted size) (out (shared st))) /\
  (main st = MExit ->
   exists tr total processed deleted size,
     out (shared st) = tr ++ [LogSummary total processed deleted size] /\
     filter is_summary tr = [] /\
     sent tr = filter valid listing2 /\
     filter is_close tr = [CloseFileChan] /\
     filter is_done tr = [SendDone]).
Proof.
  intros H.
  pose proof (enumerated_run _ _ _ _ _ H) as He.
  destruct (totals_run _ _ H) as (_ & _ & _ & T4 & _).
  apply run_exec in H as [_ H].
  assert (Hs : summary_last st).
  { eapply exec_invariant; [apply summary_last_step | | exact H].
    unfold summary_last, init, startup_log. cbn. split; [|discriminate].
    intros _. destruct (DryRun (Cleanup cfg)); reflexivity. }
  destruct Hs as [S1 S2]. split.
  - intros Hm total processed deleted size Hin.
    assert (Hf : In (LogSummary total processed deleted size)
                    (filter is_summary (out (shared st))))
      by (apply filter_In; auto).
    rewrite (S1 Hm) in Hf. exact Hf.
  - intros Hm. destruct (S2 Hm) as (tr & t & p & d & s & E & Hn).
    exists tr, t, p, d, s. split; [exact E|]. split; [exact Hn|].
    unfold enumerated, enum_trace in He.
    rewrite T4 in He by congruence.
    destruct He as (_ & _ & E2 & E3 & E4 & _).
    rewrite E in E2, E3, E4.
    rewrite sent_snoc in E2. rewrite filter_snoc in E3, E4.
    cbn in E2, E3, E4. rewrite app_nil_r in E2, E3, E4. auto.
Qed.

(** *** A reporter that cannot catch up *)

Lemma processed_in_range (fin : list ObjectInfo) (st : State) :
  count_fits minioClient -> acct fin st ->
  processedFiles (shared st)
    <= Z.of_nat (List.length (filter valid listing2)).
Proof.
  unfold count_fits. intros Hfit (Hp & _ & H1 & _).
  apply Permutation_length in Hp. rewrite !length_app in Hp.
  rewrite H1, sumZ_one_length, wrap_small;
    unfold Int64.min, Int64.max in *; lia.
Qed.

Lemma lagging_step (t : Thread) (st st' : State) (fin : list ObjectInfo) :
  count_fits minioClient ->
  Z.of_nat (List.length (filter valid listing2)) < count_valid listing1 ->
  acct fin st -> totals minioClient st ->
  lagging minioClient (Z.of_nat (List.length (filter valid listing2))) st ->
  pstep t st = Some st' ->
  lagging minioClient (Z.of_nat (List.length (filter valid listing2))) st'.
Proof.
  unfold lagging. intros Hfit Hgap Hacc (T1 & _) (L1 & L2 & L3) H.
  pose proof (processed_in_range _ _ Hfit Hacc) as Hp.
  step_cases H; cbn; auto.
  reporter_cases Hrs; cbn; repeat apply conj; auto; try discriminate;
    try (intros x E; inv E; auto; fail);
    try (intros x E; discriminate E).
  exfalso. apply andb_true_iff in Hend as [E1 E2].
  rewrite Z.geb_leb in E1. apply Z.leb_le in E1.
  rewrite Z.gtb_ltb in E2. apply Z.ltb_lt in E2.
  specialize (L2 p eq_refl). destruct (L3 t eq_refl); lia.
Qed.

(** X8: when the second listing has fewer error-free entries than the
    first has counted (objects have gone in between) and their number
    fits an [int64], the processed count never reaches the total and
    the reporter never leaves its loop, whatever the schedule. *)
Theorem reporter_never_ends_after_shrinking_listing
        (sched : list Thread) (st : State) :
  count_fits minioClient ->
  Z.of_nat (List.length (filter valid listing2)) < count_valid listing1 ->
  prun sched = Some st ->
  reporter st <> RDone /\
  processedFiles (shared st) < count_valid listing1.
Proof.
  intros Hfit Hgap H.
  destruct (accounted_run _ _ _ _ _ H) as (fin & Hacc).
  pose proof (processed_in_range _ _ Hfit Hacc) as Hp.
  split; [|lia].
  apply run_exec in H as [_ H].
  set (n := Z.of_nat (List.length (filter valid listing2))) in *.
  assert (G : (exists fin, acct fin st) /\
              (enumerated minioClient st /\ totals minioClient st) /\
              lagging minioClient n st); [|apply G].
  eapply (exec_invariant cfg thresholdTime minioClient
            (fun s => (exists fin, acct fin s) /\
                      (enumerated minioClient s /\ totals minioClient s) /\
                      lagging minioClient n s));
    [| |exact H].
  - intros t s s' ([f Ha] & [He Ht] & Hl) Hs.
    split; [|split; [split|]].
    + destruct (accounted_step _ _ _ _ _ _ _ Ha Hs) as [G | [o G]]; eauto.
    + eapply enumerated_step; eauto.
    + eapply totals_step; eauto.
    + eapply lagging_step; eauto.
  - split; [|split; [split|]].
    + exists []. apply accounted_init.
    + apply enumerated_init.
    + apply totals_init.
    + unfold lagging. cbn. repeat apply conj; intros; discriminate.
Qed.

(** *** Start-up *)

(** X9: a worker count in [-2^62, 0), or of 2^62 and more, makes the
    size [Workers * 2] of [fileChan] negative as an [int]; creating the
    channel panics and the process does nothing: no schedule yields a
    state. *)
Theorem negative_capacity_panics (sched : list Thread) :
  Int64.min <= Workers (Cleanup cfg) <= Int64.max ->
  - 2 ^ 62 <= Workers (Cleanup cfg) < 0 \/ 2 ^ 62 <= Workers (Cleanup cfg) ->
  Int64.mul (Workers (Cleanup cfg)) 2 < 0 /\ prun sched = None.
Proof.
  unfold Int64.min, Int64.max. intros Hr Hw.
  assert (Hneg : Int64.mul (Workers (Cleanup cfg)) 2 < 0).
  { unfold Int64.mul. destruct Hw as [Hw | Hw].
    - rewrite wrap_small; unfold Int64.min, Int64.max; lia.
    - unfold Int64.wrap.
      replace (Workers (Cleanup cfg) * 2 + 2 ^ 63)
        with (Workers (Cleanup cfg) * 2 - 2 ^ 63 + 1 * 2 ^ 64) by lia.
      rewrite Z.mod_add by lia. rewrite Z.mod_small; lia. }
  split; [exact Hneg|].
  unfold run, boot. apply Z.ltb_lt in Hneg. rewrite Hneg. reflexivity.
Qed.

(** *** A schedule on which [main] prints the final counters *)

Lemma second_pass_patient (rest : list ObjectInfo) (ws : list Worker)
      (st : State) :
  ready rest st -> workers st = WRecv :: ws ->
  exists sched st',
    pexec sched st = Some st' /\ ready [] st' /\ workers st' = WRecv :: ws.
Proof.
  revert st. induction rest as [|obj rest IH]; intros st Hr Hws.
  - exists [], st. auto.
  - destruct Hr as (He & Hm & Hb & Hc & Hcap & _).
    assert (Hlive : main st <> MExit) by (rewrite Hm; discriminate).
    destruct (Err obj) as [err|] eqn:Herr.
    + set (st1 := {| shared := emit (LogListError err) (shared st);
                     workers := workers st; enumerator := EPass2 rest;
                     reporter := reporter st; main := main st |}).
      assert (Hs : pstep TEnumerator st = Some st1)
        by (unfold step; rewrite (not_exited _ Hlive), He; cbn;
            rewrite Herr; reflexivity).
      destruct (IH st1) as (sched & st' & E & G).
      { unfold ready, st1; cbn. repeat apply conj; eauto. }
      { exact Hws. }
      exists (TEnumerator :: sched), st'. cbn [exec]. rewrite Hs. auto.
    + set (sh1 := emit (SendFile obj)
                    (set_chan (fileChan (shared st) ++ [obj])
                       (fileChanClosed (shared st)) (shared st))).
      set (st1 := {| shared := sh1; workers := workers st;
                     enumerator := EPass2 rest;
                     reporter := reporter st; main := main st |}).
      assert (Hs1 : pstep TEnumerator st = Some st1).
      { unfold step; rewrite (not_exited _ Hlive), He; cbn.
        rewrite Herr, Hb.
        destruct (fileChanCap (shared st)) eqn:Ecap; [lia|].
        unfold st1, sh1. rewrite Hb. reflexivity. }
      set (st2 := {| shared := set_chan [] (fileChanClosed sh1) sh1;
                     workers := WFilter obj :: ws;
                     enumerator := EPass2 rest;
                     reporter := reporter st; main := main st |}).
      assert (Hs2 : pstep (TWorker 0) st1 = Some st2).
      { unfold step, st1. cbn. rewrite (not_exited _ Hlive), Hws. cbn.
        rewrite Hb. reflexivity. }
      destruct (first_worker_finishes cfg thresholdTime minioClient
                  6 st2 (WFilter obj) ws
                  (le_n 6) ltac:(discriminate) eq_refl Hlive)
        as (sched3 & st3 & E3 & G1 & G2 & G3 & G4 & G5 & G6).
      cbn in G2, G3, G4, G5, G6.
      destruct (IH st3) as (sched & st' & E & G).
      { unfold ready. rewrite G1, G2, G3, G4, G5, G6.
        repeat apply conj; eauto. }
      { exact G1. }
      exists (TEnumerator :: TWorker 0 :: sched3 ++ sched), st'.
      cbn [exec]. rewrite Hs1, Hs2, exec_app, E3. auto.
Qed.

Lemma set_nth_length {A} (l1 l2 : list A) (x y : A) :
  set_nth (List.length l1) y (l1 ++ x :: l2) = l1 ++ y :: l2.
Proof. induction l1 as [|h t IH]; cbn; [|rewrite IH]; reflexivity. Qed.

Lemma nth_error_length {A} (l1 l2 : list A) (x : A) :
  nth_error (l1 ++ x :: l2) (List.length l1) = Some x.
Proof. induction l1 as [|h t IH]; cbn; auto. Qed.

Lemma repeat_shift {A} (x : A) (k : nat) (l : list A) :
  repeat x k ++ x :: l = repeat x (S k) ++ l.
Proof. induction k as [|k IH]; cbn; [|rewrite IH]; reflexivity. Qed.

Lemma worker_in_pool_steps (l1 l2 : list Worker) (w w' : Worker)
      (st : State) (sh' : Shared) :
  workers st = l1 ++ w :: l2 ->
  wstep w (shared st) = Some (w', sh') ->
  main st <> MExit ->
  pstep (TWorker (List.length l1)) st
  = Some {| shared := sh'; workers := l1 ++ w' :: l2;
            enumerator := enumerator st; reporter := reporter st;
            main := main st |}.
Proof.
  intros Hws Hs Hm. unfold step.
  rewrite (not_exited _ Hm), Hws, nth_error_length, Hs, set_nth_length.
  reflexivity.
Qed.

(** On the closed, empty channel the idle workers leave one by one. *)
Lemma pool_leaves (m k : nat) (st : State) :
  workers st = repeat WExit k ++ repeat WRecv m ->
  fileChan (shared st) = [] -> fileChanClosed (shared st) = true ->
  main st <> MExit ->
  exists sched st',
    pexec sched st = Some st' /\
    workers st' = repeat WExit (k + m) /\
    shared st' = shared st /\ enumerator st' = enumerator st /\
    main st' = main st.
Proof.
  revert k st. induction m as [|m IH]; intros k st Hws Hb Hc Hm.
  - exists [], st. cbn in Hws. rewrite app_nil_r in Hws.
    rewrite Nat.add_0_r. auto.
  - cbn [repeat] in Hws.
    set (st1 := {| shared := shared st;
                   workers := repeat WExit (S k) ++ repeat WRecv m;
                   enumerator := enumerator st; reporter := reporter st;
                   main := main st |}).
    assert (Hs : pstep (TWorker k) st = Some st1).
    { pose proof (worker_in_pool_steps (repeat WExit k) (repeat WRecv m)
                    WRecv WExit st (shared st) Hws) as Hs.
      rewrite repeat_length, repeat_shift in Hs. apply Hs; [|exact Hm].
      cbn. rewrite Hb, Hc. reflexivity. }
    destruct (IH (S k) st1) as (sched & st' & E & G1 & G2 & G3 & G4);
      try assumption; try reflexivity.
    exists (TWorker k :: sched), st'. cbn [exec]. rewrite Hs.
    rewrite Nat.add_succ_r. auto.
Qed.

Lemma removed_tallies (l : list ObjectInfo) :
  sumZ rem1 l = Z.of_nat (List.length (filter rem l)) /\
  sumZ remsz l = sumZ Size (filter rem l).
Proof.
  rewrite <- sumZ_one_length, !sumZ_filter. split; reflexivity.
Qed.

(** X10: with at least one worker and a channel that has been created,
    and for every bucket and policy,
    there is a schedule on which every worker has left its loop before
    [main] reads the counters; the summary then shows the number of
    error-free entries of the first listing, the number of those of
    the second as processed, and the number and the sizes of the
    objects removed with success (eligible, not in dry-run mode, no
    error from the client), all as [int64]. *)
Theorem patient_schedule_prints_final_counters :
  1 <= Workers (Cleanup cfg) <= Int64.max ->
  boot cfg thresholdTime minioClient <> None ->
  exists sched st,
    prun sched = Some st /\ main st = MExit /\ pool_done st /\
    In (LogSummary
          (count_valid listing1)
          (count_valid listing2)
          (Int64.wrap
             (Z.of_nat (List.length (filter rem (filter valid listing2)))))
          (Int64.wrap (sumZ Size (filter rem (filter valid listing2)))))
       (out (shared st)).
Proof.
  intros Hr Hmade.
  assert (Hw : 1 <= Workers (Cleanup cfg) <= 2 ^ 62 - 1).
  { unfold Int64.max in Hr. split; [lia|].
    destruct (Z_le_gt_dec (Workers (Cleanup cfg)) (2 ^ 62 - 1)) as [Hle|Hgt];
      [exact Hle|].
    exfalso. apply Hmade. unfold boot.
    assert (Hneg : Int64.mul (Workers (Cleanup cfg)) 2 < 0).
    { unfold Int64.mul, Int64.wrap.
      replace (Workers (Cleanup cfg) * 2 + 2 ^ 63)
        with (Workers (Cleanup cfg) * 2 - 2 ^ 63 + 1 * 2 ^ 64) by lia.
      rewrite Z.mod_add by lia. rewrite Z.mod_small; lia. }
    apply Z.ltb_lt in Hneg. rewrite Hneg. reflexivity. }
  assert (Hcap : Int64.mul (Workers (Cleanup cfg)) 2
                 = Workers (Cleanup cfg) * 2).
  { unfold Int64.mul. apply wrap_small. unfold Int64.min, Int64.max. lia. }
  assert (Hboot : boot cfg thresholdTime minioClient = Some pinit).
  { unfold boot. rewrite Hcap.
    destruct (Workers (Cleanup cfg) * 2 <? 0) eqn:E; [|reflexivity].
    apply Z.ltb_lt in E. lia. }
  destruct (Z.to_nat (Workers (Cleanup cfg))) as [|n] eqn:En; [lia|].
  destruct (first_pass_finishes cfg thresholdTime minioClient listing1 0 pinit)
    as (s1 & st1 & E1 & G1 & G2 & G3 & G4 & G5 & G6);
    [reflexivity | discriminate |].
  cbn in G2, G3, G4, G5, G6. rewrite En in G2. cbn [repeat] in G2.
  destruct (second_pass_patient listing2 (repeat WRecv n) st1)
    as (s2 & st2 & E2 & R2 & W2).
  { unfold ready. rewrite G1, G2, G3, G4, G5, G6, Hcap.
    repeat apply conj; eauto.
    apply Nat2Z.inj_lt. rewrite Z2Nat.id; lia. }
  { exact G2. }
  destruct R2 as (He2 & Hm2 & Hb2 & Hc2 & Hcap2 & _).
  assert (Hlive2 : main st2 <> MExit) by (rewrite Hm2; discriminate).
  set (st3 := {| shared := emit CloseFileChan (set_chan [] true (shared st2));
                 workers := workers st2; enumerator := ESignal;
                 reporter := reporter st2; main := main st2 |}).
  assert (E3 : pstep TEnumerator st2 = Some st3).
  { unfold step. rewrite (not_exited _ Hlive2), He2. cbn.
    unfold st3. rewrite Hb2. reflexivity. }
  destruct (pool_leaves (S n) 0 st3) as (s4 & st4 & E4 & W4 & S4 & N4 & M4);
    try reflexivity; [exact W2 | exact Hlive2 |].
  cbn in S4, N4, M4.
  set (sh5 := emit SendDone (shared st4)).
  set (st6 :=
         {| shared :=
              emit (LogSummary (totalFiles sh5) (processedFiles sh5)
                      (deletedFiles sh5) (deletedSize sh5)) sh5;
            workers := workers st4; enumerator := EExit;
            reporter := reporter st4; main := MExit |}).
  assert (E6 : pexec [TEnumerator; TMain; TMain; TMain; TMain; TMain] st4
               = Some st6).
  { cbn. unfold step. rewrite M4, Hm2, N4. cbn. reflexivity. }
  assert (Hrun : prun (s1 ++ s2 ++ [TEnumerator] ++ s4
                          ++ [TEnumerator; TMain; TMain; TMain; TMain; TMain])
                 = Some st6).
  { unfold run. rewrite Hboot, exec_app, E1, exec_app, E2.
    cbn [app exec]. rewrite E3, exec_app, E4. exact E6. }
  assert (Hdone : pool_done st6).
  { unfold pool_done, st6. cbn. rewrite W4. cbn. split; [discriminate|].
    constructor; [reflexivity|]. apply Forall_forall.
    intros w Hin. apply repeat_spec in Hin. exact Hin. }
  destruct (pool_done_counters _ _ _ _ _ Hrun Hdone) as (P1 & P2 & P3).
  pose proof (enumerated_run _ _ _ _ _ Hrun) as Hen.
  unfold enumerated in Hen. cbn in Hen. destruct Hen as (P0 & _).
  destruct (removed_tallies (filter valid listing2)) as [R1 R2].
  rewrite R1 in P2. rewrite R2 in P3.
  cbn in P0, P1, P2, P3.
  eexists. exists st6. split; [exact Hrun|].
  split; [reflexivity|]. split; [exact Hdone|].
  cbn. apply in_or_app. right. left.
  rewrite P0, P1, P2, P3. reflexivity.
Qed.

Lemma pool_done_events (sched : list Thread) (st : State) :
  prun sched = Some st -> pool_done st ->
  Permutation (filter is_worker_event (out (shared st)))
              (flat_map evs (filter valid listing2)).
Proof.
  intros H Hd.
  destruct (ledger_run _ _ H) as (fin & (Hp & Hw & _) & Hev).
  destruct (held_events _ Hw) as (owed & Ho & Hx).
  pose proof (events_split _ _ _ Hp Hev Ho) as Hs.
  destruct (pool_done_drained _ _ H Hd) as [Hb Ht].
  rewrite Hb, Ht, Hx in Hs by apply Hd. cbn in Hs.
  rewrite app_nil_r in Hs. exact Hs.
Qed.

(** *** What must come before what *)

Lemma causal_snoc (b : string) (tr : list Event) (e : Event) :
  causal b tr -> justified b tr e -> causal b (tr ++ [e]).
Proof.
  intros Hc Hj before e' after E.
  induction after as [|x after' _] using rev_ind.
  - apply app_inj_tail in E as [-> ->]. exact Hj.
  - rewrite app_comm_cons, app_assoc in E.
    apply app_inj_tail in E as [E _]. eapply Hc. exact E.
Qed.

Lemma causal_quiet (b : string) (tr : list Event) (e : Event) :
  causal b tr -> is_worker_event e = false -> causal b (tr ++ [e]).
Proof.
  intros Hc He. apply causal_snoc; [exact Hc|].
  destruct e; cbn in *; auto; discriminate.
Qed.

(** What a worker emits is justified by what it has emitted before for
    the same object. *)
Lemma worker_step_justified (w w' : Worker) (sh sh' : Shared) :
  wstep w sh = Some (w', sh') ->
  out sh' = out sh \/
  exists e, out sh' = out sh ++ [e] /\ justified bucket (emit_so_far w) e.
Proof.
  intros H. worker_cases H; cbn in H.
  - destruct (fileChan sh) as [|o rest];
      [destruct (fileChanClosed sh)|]; inv H; auto.
  - destruct (Size obj <? MinSize (Cleanup cfg));
      [|destruct (After (LastModified obj) thresholdTime)]; inv H; cbn; auto.
    right. eexists. split; [reflexivity | exact I].
  - destruct (DryRun (Cleanup cfg)); cbn in H;
      [|destruct (RemoveObject minioClient bucket (Key obj))];
      inv H; cbn; auto;
      right; eexists; (split; [reflexivity|]); cbn;
      do 2 eexists; left; reflexivity.
  - inv H. right. eexists. split; [reflexivity|]. cbn.
    right. left. reflexivity.
  - inv H. right. eexists. split; [reflexivity|]. cbn.
    right. left. reflexivity.
  - inv H; auto.
  - inv H; auto.
  - inv H; auto.
Qed.

Lemma justified_incl (b : string) (l1 l2 : list Event) (e : Event) :
  (forall x, In x l1 -> In x l2) -> justified b l1 e -> justified b l2 e.
Proof.
  intros Hi. destruct e; cbn; auto.
  intros (s & m & Hin). eauto.
Qed.

Lemma causal_step (t : Thread) (st st' : State) (fin : list ObjectInfo) :
  ledg fin st -> causal bucket (out (shared st)) ->
  pstep t st = Some st' -> causal bucket (out (shared st')).
Proof.
  intros [_ Hev] Hc H. step_cases H; cbn.
  - destruct (main st); cbn in Hms; try discriminate; inv Hms; auto.
    apply causal_quiet; auto.
  - apply causal_quiet; auto.
  - enum_cases Hes; cbn; auto; apply causal_quiet; auto.
  - reporter_cases Hrs; cbn; auto; destruct (t >? 0); auto;
      apply causal_quiet; auto.
  - destruct (worker_step_justified _ _ _ _ Hwst) as [-> | (e & -> & Hj)];
      [exact Hc|].
    apply causal_snoc; [exact Hc|].
    eapply justified_incl; [|exact Hj].
    intros x Hx.
    assert (Hin : In x (filter is_worker_event (out (shared st)))).
    { apply (Permutation_in _ (Permutation_sym Hev)).
      apply in_or_app. right. rewrite Hws, flat_map_app.
      apply in_or_app. right. cbn. apply in_or_app. auto. }
    apply filter_In in Hin. apply Hin.
Qed.

(** X13: in the output of a run, whatever the schedule, a removal call
    for a key comes after a line that announces that key as a file to
    clean, and a line about the success or the failure of a removal
    comes after the call for that key. *)
Theorem outcome_follows_call_follows_candidate
        (sched : list Thread) (st : State)
        (before after : list Event) (e : Event) :
  prun sched = Some st ->
  out (shared st) = before ++ e :: after ->
  match e with
  | CallRemoveObject _ k => exists s m, In (LogCandidate k s m) before
  | LogRemoved k | LogRemoveFailed k _ => In (CallRemoveObject bucket k) before
  | _ => True
  end.
Proof.
  intros H E. apply run_exec in H as [_ H].
  assert (G : (exists fin, ledg fin st) /\ causal bucket (out (shared st))).
  { eapply (exec_invariant cfg thresholdTime minioClient
              (fun s => (exists fin, ledg fin s)
                        /\ causal bucket (out (shared s))));
      [| |exact H].
    - intros t s s' [[fin Hl] Hc] Hs. split.
      + destruct (ledger_step _ _ _ _ Hl Hs) as [G | [o G]]; eauto.
      + eapply causal_step; eauto.
    - split; [exists []; apply ledger_init|].
      intros b0 e0 a0 E0.
      assert (Hin : In e0 (out (shared pinit)))
        by (rewrite E0; apply in_elt).
      unfold init, startup_log in Hin. cbn in Hin.
      destruct Hin as [<- | Hin]; [exact I|].
      destruct (DryRun (Cleanup cfg)); [|destruct Hin].
      destruct Hin as [<- | []]. exact I. }
  destruct G as [_ Hc]. apply (Hc before e after E).
Qed.

End Ledgers.

(** *** Two runs over the same bucket *)

Lemma candidate_keys_of_worker_events (tr : list Event) :
  flat_map candidate_key tr
  = flat_map candidate_key (filter is_worker_event tr).
Proof.
  induction tr as [|e tr IH]; [reflexivity|].
  destruct e; cbn; rewrite ?IH; reflexivity.
Qed.

Lemma call_keys_of_worker_events (tr : list Event) :
  flat_map call_key tr = flat_map call_key (filter is_worker_event tr).
Proof.
  induction tr as [|e tr IH]; [reflexivity|].
  destruct e; cbn; rewrite ?IH; reflexivity.
Qed.

Lemma eligible_same_policy (cfg1 cfg2 : Config) (thr : Time)
      (obj : ObjectInfo) :
  MinSize (Cleanup cfg1) = MinSize (Cleanup cfg2) ->
  eligible cfg1 thr obj = eligible cfg2 thr obj.
Proof. unfold eligible. intros ->. reflexivity. Qed.

Lemma candidate_keys_of_events (cfg : Config) (thr : Time) (cl : Client)
      (l : list ObjectInfo) :
  flat_map candidate_key (flat_map (events_of cfg thr cl) l)
  = map Key (filter (eligible cfg thr) l).
Proof.
  induction l as [|obj l IH]; [reflexivity|].
  cbn [flat_map filter]. rewrite flat_map_app, IH.
  unfold events_of at 1. destruct (eligible cfg thr obj); [|reflexivity].
  cbn. f_equal.
  destruct (DryRun (Cleanup cfg)); [reflexivity|].
  destruct (RemoveObject cl (Bucket (Minio cfg)) (Key obj)); reflexivity.
Qed.

Lemma call_keys_of_events (cfg : Config) (thr : Time) (cl : Client)
      (l : list ObjectInfo) :
  DryRun (Cleanup cfg) = false ->
  flat_map call_key (flat_map (events_of cfg thr cl) l)
  = map Key (filter (eligible cfg thr) l).
Proof.
  intros Hd. induction l as [|obj l IH]; [reflexivity|].
  cbn [flat_map filter]. rewrite flat_map_app, IH.
  unfold events_of at 1. rewrite Hd.
  destruct (eligible cfg thr obj); [|reflexivity].
  cbn. f_equal.
  destruct (RemoveObject cl (Bucket (Minio cfg)) (Key obj)); reflexivity.
Qed.

(** X11: a dry run previews the real run.  For the same bucket, the
    same [thresholdTime] and the same [MinSize], the keys that a run
    in dry-run mode has logged as files to clean when its pool is done
    are, up to order, the keys that a real run has handed to
    [RemoveObject] when its pool is done, whatever the schedules and
    the worker counts. *)
Theorem dry_run_previews_removals
        (dry real : Config) (thr : Time) (cl : Client)
        (sched_dry sched_real : list Thread) (st_dry st_real : State) :
  Minio dry = Minio real ->
  MinSize (Cleanup dry) = MinSize (Cleanup real) ->
  DryRun (Cleanup dry) = true ->
  DryRun (Cleanup real) = false ->
  run dry thr cl sched_dry = Some st_dry -> pool_done st_dry ->
  run real thr cl sched_real = Some st_real -> pool_done st_real ->
  Permutation (flat_map candidate_key (out (shared st_dry)))
              (flat_map call_key (out (shared st_real))) /\
  flat_map call_key (out (shared st_dry)) = [].
Proof.
  intros _ Hmin Hd Hr H1 D1 H2 D2.
  pose proof (pool_done_events _ _ _ _ _ H1 D1) as P1.
  pose proof (pool_done_events _ _ _ _ _ H2 D2) as P2.
  split.
  - rewrite candidate_keys_of_worker_events, call_keys_of_worker_events.
    eapply Permutation_trans; [apply perm_flat_map, P1|].
    eapply Permutation_trans; [|apply perm_flat_map, Permutation_sym, P2].
    rewrite candidate_keys_of_events, (call_keys_of_events _ _ _ _ Hr).
    rewrite (filter_ext _ _ (fun o => eligible_same_policy dry real thr o Hmin)).
    apply Permutation_refl.
  - destruct (dry_run_inv _ _ _ _ _ Hd H1) as (_ & _ & D3 & _).
    clear - D3. induction (out (shared st_dry)) as [|e tr IH]; [reflexivity|].
    destruct e; cbn in *; try (apply IH; exact D3). discriminate.
Qed.

Lemma removed_same_policy (cfg1 cfg2 : Config) (thr : Time) (cl : Client)
      (obj : ObjectInfo) :
  Minio cfg1 = Minio cfg2 ->
  MinSize (Cleanup cfg1) = MinSize (Cleanup cfg2) ->
  DryRun (Cleanup cfg1) = DryRun (Cleanup cfg2) ->
  removed cfg1 thr cl obj = removed cfg2 thr cl obj /\
  events_of cfg1 thr cl obj = events_of cfg2 thr cl obj.
Proof.
  intros Hm Hs Hd. unfold removed, events_of, call_of.
  rewrite (eligible_same_policy cfg1 cfg2 thr obj Hs), Hm, Hd. auto.
Qed.

(** X12: the number of workers does not matter once the pool is done.
    Two runs over the same bucket with the same [Bucket], [MinSize],
    [DryRun] and [thresholdTime], under any schedules and with any
    worker counts, that have both reached the end of their pools show
    the same [processedFiles], [deletedFiles] and [deletedSize], and
    the same candidate lines, removal calls and outcome lines up to
    order. *)
Theorem done_pools_agree
        (cfg1 cfg2 : Config) (thr : Time) (cl : Client)
        (sched1 sched2 : list Thread) (st1 st2 : State) :
  Minio cfg1 = Minio cfg2 ->
  MinSize (Cleanup cfg1) = MinSize (Cleanup cfg2) ->
  DryRun (Cleanup cfg1) = DryRun (Cleanup cfg2) ->
  run cfg1 thr cl sched1 = Some st1 -> pool_done st1 ->
  run cfg2 thr cl sched2 = Some st2 -> pool_done st2 ->
  processedFiles (shared st1) = processedFiles (shared st2) /\
  deletedFiles (shared st1) = deletedFiles (shared st2) /\
  deletedSize (shared st1) = deletedSize (shared st2) /\
  Permutation (filter is_worker_event (out (shared st1)))
              (filter is_worker_event (out (shared st2))).
Proof.
  intros Hm Hs Hd H1 D1 H2 D2.
  destruct (pool_done_counters _ _ _ _ _ H1 D1) as (A1 & A2 & A3).
  destruct (pool_done_counters _ _ _ _ _ H2 D2) as (B1 & B2 & B3).
  pose proof (pool_done_events _ _ _ _ _ H1 D1) as P1.
  pose proof (pool_done_events _ _ _ _ _ H2 D2) as P2.
  assert (Er : forall o, removed cfg1 thr cl o = removed cfg2 thr cl o)
    by (intros o; apply (removed_same_policy cfg1 cfg2 thr cl o Hm Hs Hd)).
  assert (Ee : forall o, events_of cfg1 thr cl o = events_of cfg2 thr cl o)
    by (intros o; apply (removed_same_policy cfg1 cfg2 thr cl o Hm Hs Hd)).
  repeat apply conj.
  - congruence.
  - rewrite A2, B2. f_equal. apply sumZ_ext. intros o.
    unfold removed_one. rewrite Er. reflexivity.
  - rewrite A3, B3. f_equal. apply sumZ_ext. intros o.
    unfold removed_size. rewrite Er. reflexivity.
  - eapply Permutation_trans; [exact P1|].
    eapply Permutation_trans; [|apply Permutation_sym, P2].
    rewrite (flat_map_ext _ _ Ee). apply Permutation_refl.
Qed.

(** ** The scenario, run *)

Section ScenarioRuns.

Import Scenario.

(** C1: [main] prints the summary as soon as the enumerator has
    signalled, whatever the workers are doing.  With one worker and the
    three objects, under the schedule [hasty1], the summary reads 3
    files in total and 0 processed; [main] has returned while the
    worker still holds A and B and C wait in the channel. *)
Theorem summary_before_workers_finish :
  exists st,
    run (config 1 false) threshold bucket hasty1 = Some st /\
    main st = MExit /\
    In (LogSummary 3 0 0 0) (out (shared st)) /\
    totalFiles (shared st) = 3 /\
    processedFiles (shared st) = 0 /\
    workers st = [WFilter objA] /\
    fileChan (shared st) = [objB; objC].
Proof.
  eexists. split; [vm_compute; reflexivity|].
  cbn. repeat apply conj; try reflexivity.
  do 7 right. left. reflexivity.
Qed.

(** C3: in dry-run mode too, [main] prints and returns as soon as the
    enumerator has signalled.  With one worker and the three objects,
    under the schedule [hasty1], no removal has been called and both
    deletion counters are 0; but [main] has returned, nothing moves any
    more, 3 objects have been discovered and none has been counted as
    processed, and there is no candidate line for the eligible object
    A, which the worker still holds. *)
Theorem dry_run_exits_before_workers :
  exists st,
    run (config 1 true) threshold bucket hasty1 = Some st /\
    DryRun (Cleanup (config 1 true)) = true /\
    main st = MExit /\
    (forall t, step (config 1 true) threshold bucket t st = None) /\
    In objA (ListObjects bucket 1) /\
    Err objA = None /\
    eligible (config 1 true) threshold objA = true /\
    (forall k s m, ~ In (LogCandidate k s m) (out (shared st))) /\
    (forall b k, ~ In (CallRemoveObject b k) (out (shared st))) /\
    totalFiles (shared st) = 3 /\
    processedFiles (shared st) = 0 /\
    deletedFiles (shared st) = 0 /\
    deletedSize (shared st) = 0 /\
    workers st = [WFilter objA] /\
    fileChan (shared st) = [objB; objC] /\
    ~ pool_done st.
Proof.
  eexists. split; [vm_compute; reflexivity|].
  split; [reflexivity|]. split; [reflexivity|].
  split; [intros t; reflexivity|].
  split; [left; reflexivity|]. split; [reflexivity|].
  split; [vm_compute; reflexivity|].
  split.
  { intros k s m H. cbn in H.
    repeat (destruct H as [H|H]; [discriminate|]). exact H. }
  split.
  { intros b k H. cbn in H.
    repeat (destruct H as [H|H]; [discriminate|]). exact H. }
  do 6 (split; [reflexivity|]).
  intros [_ H]. inversion H as [|w ws Hw _]. discriminate.
Qed.

(** C7: the counters that the summary prints depend on the schedule and
    not only on the bucket and the policy.  With one worker that is
    given the time to handle every object the summary reads 3
    processed, 1 deleted, 10 MB; with eight workers that are not, and
    equally with one, it reads 0 processed, 0 deleted, 0 bytes. *)
Theorem summary_depends_on_schedule :
  exists st1 st8 st1',
    run (config 1 false) threshold bucket patient1 = Some st1 /\
    run (config 8 false) threshold bucket hasty8 = Some st8 /\
    run (config 1 false) threshold bucket hasty1 = Some st1' /\
    main st1 = MExit /\ main st8 = MExit /\ main st1' = MExit /\
    filter is_summary (out (shared st1)) = [LogSummary 3 3 1 (10 * MB)] /\
    filter is_summary (out (shared st8)) = [LogSummary 3 0 0 0] /\
    filter is_summary (out (shared st1')) = [LogSummary 3 0 0 0].
Proof.
  do 3 eexists.
  split; [vm_compute; reflexivity|].
  split; [vm_compute; reflexivity|].
  split; [vm_compute; reflexivity|].
  cbn. repeat apply conj; reflexivity.
Qed.

(** C9, as stated, fails: with [Workers] at [- 2 ^ 63 + 1] the capacity
    [Workers * 2] wraps around to 2, no worker is started, the single
    object fits the buffer, and [main] prints its summary and returns. *)
Lemma termination_without_workers :
  ~ (forall cfg thr cl sched st,
        filter valid (ListObjects cl 1) <> [] ->
        run cfg thr cl sched = Some st ->
        main st = MExit ->
        1 <= Workers (Cleanup cfg)).
Proof.
  intros H.
  assert (G : 1 <= wrapping).
  { apply (H (config wrapping false) threshold single
             (repeat TEnumerator 6 ++ repeat TMain 5)
             {| shared :=
                  {| totalFiles := 1; processedFiles := 0; deletedFiles := 0;
                     deletedSize := 0; fileChan := [objA]; fileChanCap := 2;
                     fileChanClosed := true;
                     out := [LogStart threshold MB; LogTotal 1; SendFile objA;
                             CloseFileChan; SendDone; LogSummary 1 0 0 0] |};
                workers := []; enumerator := EExit; reporter := RSleep;
                main := MExit |}).
    - cbn. discriminate.
    - vm_compute. reflexivity.
    - reflexivity. }
  vm_compute in G. apply G. reflexivity.
Qed.

(** C8, as stated, fails where the sizes do not fit: with two removed
    objects of 2^62 bytes each the second addition of line 172 takes
    [deletedSize] from 2^62 to -2^63; and with a negative [MinSize] a
    removed object of negative size takes it from 0 to that size. *)
Lemma deleted_size_can_decrease :
  (exists st st',
      run (config 1 false) threshold oversized before_second_size = Some st /\
      step (config 1 false) threshold oversized (TWorker 0) st = Some st' /\
      deletedFiles (shared st) = 2 /\ deletedFiles (shared st') = 2 /\
      deletedSize (shared st) = 2 ^ 62 /\
      deletedSize (shared st') = - 2 ^ 63 /\
      deletedSize (shared st') < deletedSize (shared st)) /\
  (exists st st',
      run lenient threshold indebted before_size = Some st /\
      step lenient threshold indebted (TWorker 0) st = Some st' /\
      deletedSize (shared st) = 0 /\
      deletedSize (shared st') = -5 /\
      deletedSize (shared st') < deletedSize (shared st)).
Proof.
  split.
  - do 2 eexists.
    split; [vm_compute; reflexivity|].
    split; [vm_compute; reflexivity|].
    cbn. repeat apply conj; reflexivity.
  - do 2 eexists.
    split; [vm_compute; reflexivity|].
    split; [vm_compute; reflexivity|].
    cbn. repeat apply conj; reflexivity.
Qed.


(** C4 at work: object A behind the client that refuses removals. *)
Lemma removal_failure_counted_once_witness :
  MinSize (Cleanup (config 1 false)) <= Size objA /\
  LastModified objA <= threshold /\
  DryRun (Cleanup (config 1 false)) = false /\
  RemoveObject denying (Bucket (Minio (config 1 false))) (Key objA)
    = Some "access denied"%string /\
  forall sh,
    worker_step (config 1 false) threshold denying
      (WFailed objA "access denied") sh
    = Some (WCount objA, emit (LogRemoveFailed "A" "access denied") sh).
Proof.
  assert (H1 : MinSize (Cleanup (config 1 false)) <= Size objA)
    by (vm_compute; discriminate).
  assert (H2 : LastModified objA <= threshold) by (vm_compute; discriminate).
  split; [exact H1|]. split; [exact H2|].
  split; [reflexivity|]. split; [reflexivity|].
  intros sh.
  destruct (removal_failure_counted_once (config 1 false) threshold denying
              objA "access denied" sh H1 H2 eq_refl eq_refl) as [_ H].
  apply (H sh sh sh sh).
Defined.

(** C5 at work: a listing with a broken first entry, run to the end. *)
Lemma enumerator_counts_and_feeds_witness :
  exists st,
    run (config 1 false) threshold faulty patient1_faulty = Some st /\
    (enumerator st = ESignal \/ enumerator st = EExit ->
     totalFiles (shared st) = 3 /\
     list_errors (out (shared st))
       = ["listing failed"; "listing failed"]%string /\
     sent (out (shared st)) = [objA; objB; objC] /\
     filter is_close (out (shared st)) = [CloseFileChan]).
Proof.
  destruct (run (config 1 false) threshold faulty patient1_faulty)
    as [st|] eqn:Hrun; [|vm_compute in Hrun; discriminate].
  exists st. split; [reflexivity|]. intros He.
  destruct (enumerator_counts_and_feeds (config 1 false) threshold faulty
              patient1_faulty st Hrun) as (H & _).
  destruct (H He) as (H1 & H2 & H3 & H4 & _).
  repeat apply conj.
  - rewrite H1. vm_compute. reflexivity.
  - exact H2.
  - exact H3.
  - exact H4.
Defined.

(** The sizes of the three objects fit. *)
Lemma bucket_sizes_fit : sizes_fit bucket.
Proof.
  unfold sizes_fit. cbn. repeat apply conj.
  - intros obj [<- | [<- | [<- | []]]] _; vm_compute; discriminate.
  - vm_compute. discriminate.
  - vm_compute. discriminate.
Qed.

(** C8 at work: the three objects, as far as line 172 for object A. *)
Lemma deleted_counters_together_witness :
  exists st,
    run (config 1 false) threshold bucket
      (repeat TEnumerator 6 ++ repeat (TWorker 0) 5) = Some st /\
    forall t st',
      step (config 1 false) threshold bucket t st = Some st' ->
      deletedFiles (shared st) <= deletedFiles (shared st') /\
      deletedSize (shared st) <= deletedSize (shared st').
Proof.
  destruct (run (config 1 false) threshold bucket
              (repeat TEnumerator 6 ++ repeat (TWorker 0) 5))
    as [st|] eqn:Hrun; [|vm_compute in Hrun; discriminate].
  exists st. split; [reflexivity|].
  destruct (deleted_counters_together (config 1 false) threshold bucket
              (repeat TEnumerator 6 ++ repeat (TWorker 0) 5) st Hrun)
    as (_ & _ & _ & H).
  apply (H bucket_sizes_fit).
Defined.

(** C9 at work: no worker, three objects. *)
Lemma no_worker_no_summary_witness :
  filter valid (ListObjects bucket 1) <> [] /\
  exists st,
    run (config 0 false) threshold bucket waiting = Some st /\
    main st = MWait /\ sent (out (shared st)) = [] /\
    (forall total processed deleted size,
        ~ In (LogSummary total processed deleted size) (out (shared st))).
Proof.
  assert (Hv : filter valid (ListObjects bucket 1) <> [])
    by (cbn; discriminate).
  split; [exact Hv|].
  destruct (run (config 0 false) threshold bucket waiting)
    as [st|] eqn:Hrun; [|vm_compute in Hrun; discriminate].
  exists st. split; [reflexivity|].
  destruct (no_worker_no_summary (config 0 false) threshold bucket
              waiting st Hv Hrun) as (H & _).
  destruct (H eq_refl) as (_ & _ & _ & H4 & _ & _ & _ & H8 & H9 & _).
  repeat apply conj.
  - exact H8.
  - exact H4.
  - exact H9.
Defined.

(** C10 at work: a listing without a valid entry. *)
Lemma reporter_runs_on_without_objects_witness :
  filter valid (ListObjects barren 0) = [] /\
  exists st,
    run (config 1 false) threshold barren
      (repeat TEnumerator 5 ++ repeat TReporter 6) = Some st /\
    totalFiles (shared st) = 0 /\ reporter st <> RDone /\
    (forall p t d s, ~ In (LogProgress p t d s) (out (shared st))).
Proof.
  split; [reflexivity|].
  destruct (run (config 1 false) threshold barren
              (repeat TEnumerator 5 ++ repeat TReporter 6))
    as [st|] eqn:Hrun; [|vm_compute in Hrun; discriminate].
  exists st. split; [reflexivity|].
  destruct (reporter_runs_on_without_objects (config 1 false) threshold barren
              (repeat TEnumerator 5 ++ repeat TReporter 6) st eq_refl Hrun)
    as (H1 & H2 & H3 & _).
  repeat apply conj; assumption.
Defined.

End ScenarioRuns.

(** ** The scenario, continued *)

Section OutcomeRuns.

Import Scenario.
Import Outcomes.

Lemma patient1_runs :
  run (config 1 false) threshold bucket patient1 = Some patient1_end.
Proof. vm_compute. reflexivity. Qed.

Lemma hasty1_runs :
  run (config 1 false) threshold bucket hasty1 = Some hasty1_end.
Proof. vm_compute. reflexivity. Qed.

Lemma shrunk_runs :
  run (config 1 false) threshold shrunk shrunk_run = Some shrunk_end.
Proof. vm_compute. reflexivity. Qed.

Lemma patient1_dry_runs :
  run (config 1 true) threshold bucket patient1_dry = Some patient1_dry_end.
Proof. vm_compute. reflexivity. Qed.

Lemma pair_runs :
  run (config 2 false) threshold bucket pair = Some pair_end.
Proof. vm_compute. reflexivity. Qed.

Lemma patient1_pool_done : pool_done patient1_end.
Proof. split; [discriminate | repeat constructor]. Qed.

Lemma patient1_dry_pool_done : pool_done patient1_dry_end.
Proof. split; [discriminate | repeat constructor]. Qed.

Lemma pair_pool_done : pool_done pair_end.
Proof. split; [discriminate | repeat constructor]. Qed.

Lemma bucket_count_fits : count_fits bucket.
Proof. vm_compute. discriminate. Qed.

(** X1 at work: the one removal call of the patient run. *)
Lemma only_eligible_objects_are_removed_witness :
  exists obj,
    In obj (ListObjects bucket 1) /\ Err obj = None /\
    MinSize (Cleanup (config 1 false)) <= Size obj /\
    LastModified obj <= threshold /\
    "backups"%string = Bucket (Minio (config 1 false)) /\
    "A"%string = Key obj /\
    DryRun (Cleanup (config 1 false)) = false.
Proof.
  assert (Hin : In (CallRemoveObject "backups" "A")
                   (out (shared patient1_end)))
    by (cbn; do 4 right; left; reflexivity).
  exact (only_eligible_objects_are_removed (config 1 false) threshold bucket
           patient1 patient1_end (CallRemoveObject "backups" "A")
           patient1_runs Hin eq_refl).
Defined.

(** X2 at work: the output of the workers in the patient run. *)
Lemma workers_handle_each_object_once_witness :
  exists rest,
    Permutation
      (filter is_worker_event (out (shared patient1_end)) ++ rest)
      (flat_map (events_of (config 1 false) threshold bucket)
         (filter valid (ListObjects bucket 1))).
Proof.
  destruct (workers_handle_each_object_once (config 1 false) threshold bucket
              patient1 patient1_end patient1_runs)
    as [_ (rest & Hperm & _)].
  exists rest. exact Hperm.
Defined.

(** X3 at work: the keys A, B and C are distinct. *)
Lemma no_key_is_removed_twice_witness :
  NoDup (map Key (filter valid (ListObjects bucket 1))) /\
  NoDup (filter is_remove_call (out (shared patient1_end))).
Proof.
  assert (Hn : NoDup (map Key (filter valid (ListObjects bucket 1)))).
  { cbn. repeat constructor; cbn; intuition discriminate. }
  split; [exact Hn|].
  exact (no_key_is_removed_twice (config 1 false) threshold bucket
           patient1 patient1_end Hn patient1_runs).
Defined.

(** X4 at work: the hasty run, with B and C in the channel. *)
Lemma channel_within_capacity_witness :
  (List.length (fileChan (shared hasty1_end))
   <= fileChanCap (shared hasty1_end))%nat /\
  Z.of_nat (List.length (fileChan (shared hasty1_end))
            + List.length (flat_map inflight (workers hasty1_end)))
    <= 3 * 1.
Proof.
  destruct (channel_within_capacity (config 1 false) threshold bucket
              hasty1 hasty1_end hasty1_runs) as (H1 & _ & _ & _ & H5).
  split; [exact H1|].
  apply H5. cbn. lia.
Defined.

(** X5 at work: the hasty run has processed nothing of three. *)
Lemma processed_is_conserved_witness :
  count_fits bucket /\
  0 <= processedFiles (shared hasty1_end)
    <= Z.of_nat (List.length (filter valid (ListObjects bucket 1))).
Proof.
  split; [exact bucket_count_fits|].
  destruct (processed_is_conserved (config 1 false) threshold bucket
              hasty1 hasty1_end bucket_count_fits hasty1_runs)
    as (_ & H & _).
  exact H.
Defined.

(** X6 at work: the total in the summary of the hasty run. *)
Lemma logged_totals_are_the_first_count_witness :
  3 = count_valid (ListObjects bucket 0).
Proof.
  assert (Hin : In (LogSummary 3 0 0 0) (out (shared hasty1_end)))
    by (cbn; do 7 right; left; reflexivity).
  exact (logged_totals_are_the_first_count (config 1 false) threshold bucket
           hasty1 hasty1_end (LogSummary 3 0 0 0) hasty1_runs Hin).
Defined.

(** X7 at work: the summary of the hasty run. *)
Lemma summary_is_the_last_line_witness :
  exists tr total processed deleted size,
    out (shared hasty1_end) = tr ++ [LogSummary total processed deleted size] /\
    filter is_summary tr = [] /\
    sent tr = filter valid (ListObjects bucket 1).
Proof.
  destruct (summary_is_the_last_line (config 1 false) threshold bucket
              hasty1 hasty1_end hasty1_runs) as [_ H].
  destruct (H eq_refl) as (tr & t & p & d & s & H1 & H2 & H3 & _).
  exists tr, t, p, d, s. auto.
Defined.

(** X8 at work: the bucket that has lost C. *)
Lemma reporter_never_ends_after_shrinking_listing_witness :
  count_fits shrunk /\
  Z.of_nat (List.length (filter valid (ListObjects shrunk 1)))
    < count_valid (ListObjects shrunk 0) /\
  reporter shrunk_end <> RDone /\
  processedFiles (shared shrunk_end) < count_valid (ListObjects shrunk 0).
Proof.
  assert (H1 : count_fits shrunk) by (vm_compute; discriminate).
  assert (H2 : Z.of_nat (List.length (filter valid (ListObjects shrunk 1)))
               < count_valid (ListObjects shrunk 0))
    by (vm_compute; reflexivity).
  split; [exact H1|]. split; [exact H2|].
  exact (reporter_never_ends_after_shrinking_listing (config 1 false)
           threshold shrunk shrunk_run shrunk_end H1 H2 shrunk_runs).
Defined.

(** X9 at work: minus one worker. *)
Lemma negative_capacity_panics_witness :
  Int64.mul (Workers (Cleanup (config (-1) false))) 2 < 0 /\
  run (config (-1) false) threshold bucket hasty1 = None.
Proof.
  apply (negative_capacity_panics (config (-1) false) threshold bucket hasty1).
  - vm_compute. split; discriminate.
  - left. vm_compute. split; [discriminate | reflexivity].
Defined.

(** X10 at work: one worker and the three objects. *)
Lemma patient_schedule_prints_final_counters_witness :
  exists sched st,
    run (config 1 false) threshold bucket sched = Some st /\
    main st = MExit /\ pool_done st /\
    In (LogSummary 3 3 1 (10 * MB)) (out (shared st)).
Proof.
  destruct (patient_schedule_prints_final_counters (config 1 false) threshold
              bucket) as (sched & st & H1 & H2 & H3 & H4).
  - vm_compute. split; discriminate.
  - vm_compute. discriminate.
  - exists sched, st.
    split; [exact H1|]. split; [exact H2|]. split; [exact H3|].
    exact H4.
Defined.

(** X11 at work: the dry run announces A, the real run removes A. *)
Lemma dry_run_previews_removals_witness :
  Permutation (flat_map candidate_key (out (shared patient1_dry_end)))
              (flat_map call_key (out (shared patient1_end))) /\
  flat_map call_key (out (shared patient1_dry_end)) = [].
Proof.
  exact (dry_run_previews_removals (config 1 true) (config 1 false)
           threshold bucket patient1_dry patient1
           patient1_dry_end patient1_end eq_refl eq_refl eq_refl eq_refl
           patient1_dry_runs patient1_dry_pool_done
           patient1_runs patient1_pool_done).
Defined.

(** X12 at work: one worker and two workers over the three objects. *)
Lemma done_pools_agree_witness :
  processedFiles (shared patient1_end) = processedFiles (shared pair_end) /\
  deletedFiles (shared patient1_end) = deletedFiles (shared pair_end) /\
  deletedSize (shared patient1_end) = deletedSize (shared pair_end) /\
  Permutation (filter is_worker_event (out (shared patient1_end)))
              (filter is_worker_event (out (shared pair_end))).
Proof.
  exact (done_pools_agree (config 1 false) (config 2 false)
           threshold bucket patient1 pair patient1_end pair_end
           eq_refl eq_refl eq_refl
           patient1_runs patient1_pool_done pair_runs pair_pool_done).
Defined.

(** X13 at work: the removal call for A in the patient run comes after
    the candidate line for A. *)
Lemma outcome_follows_call_follows_candidate_witness :
  exists s m,
    In (LogCandidate "A" s m) (firstn 4 (out (shared patient1_end))).
Proof.
  assert (H : out (shared patient1_end)
              = firstn 4 (out (shared patient1_end))
                  ++ CallRemoveObject "backups" "A"
                  :: skipn 5 (out (shared patient1_end)))
    by (vm_compute; reflexivity).
  exact (outcome_follows_call_follows_candidate (config 1 false) threshold
           bucket patient1 patient1_end _ _ _ patient1_runs H).
Defined.

End OutcomeRuns.
